(** * Hierarchy.js: the matrix stack, the joint model and the animation step

    A shallow embedding of [src/comp-graf/Hierarchy/Hierarchy.js].

    - [Matrix4] objects are mutable and are shared by reference (the global
      [turbineMatrix] is pushed on the stack as it is), so they live in a
      heap: a list indexed by address, allocation appending at the end.
    - The [Matrix4] class itself comes from cuon-matrix, which is not part of
      the sources; its values and builders are the interface [Matrix4] below.
    - JavaScript numbers: the joint angles, the speed and the stack pointer
      only ever take integer values in this program (0, 45, steps of 15, of
      the speed and of 1), where doubles are exact below 2^53; they are
      integers here. Literals handed to the matrix library are rationals.
    - [console.log] output and the calls made on the [Stack] object are
      recorded in the state, and so are these calls on the GL context:
      [clear], [useProgram], the upload of the [model] uniform and
      [drawArrays]. [gl.getAttribLocation] is a query, answered by the table
      [lightingShader]. Once past its attribute checks [renderCube] also
      enables the three vertex attributes, binds their buffers and points
      the attributes at them, uploads the other uniforms (view, projection,
      colour, light, normal matrix) and unbinds the buffer; these calls
      neither read nor write anything the hierarchy uses and are left out,
      as are the DOM accesses of [handleKeyPress]. *)

From Stdlib Require Import ZArith QArith String Reals Qreals.
From stdpp Require Import base option list gmap.

Local Open Scope string_scope.
Local Open Scope list_scope.

(** ** Values and console output *)

Definition loc := nat.

(** What a stack slot or a method result can hold: a reference to a
    [Matrix4] object, or [undefined]. *)
Inductive value := undefined | ref (l : loc).

Inductive logarg := LStr (s : string) | LNum (n : Z).

(** One [console.log(...)] call: its arguments. *)
Definition logline := list logarg.

(** ** class Stack (lines 154-209) *)

Module Stack.

(** [elements] is a JavaScript array, that is, an object keyed by index;
    reading a missing index gives [undefined]. *)
Record stack := mk { elements : gmap Z value; t : Z }.

Definition get (a : gmap Z value) (i : Z) : value := default undefined (a !! i).

Definition new : stack := {| elements := ∅; t := 0 |}.

(** [this.elements[this.t++] = m] *)
Definition push (m : value) (s : stack) : stack :=
  {| elements := <[t s := m]> (elements s); t := (t s + 1)%Z |}.

(** Result and console output; the stack itself is not written. *)
Definition top (s : stack) : value * list logline :=
  if (t s <=? 0)%Z
  then (undefined,
        [[LStr "top = "; LNum (t s)]; [LStr "Warning: stack underflow"]])
  else (get (elements s) (t s - 1), []).

Definition pop (s : stack) : value * stack * list logline :=
  if (t s <=? 0)%Z
  then (undefined, s, [[LStr "Warning: stack underflow"]])
  else
    let t' := (t s - 1)%Z in
    let temp := get (elements s) t' in
    (temp, {| elements := <[t' := undefined]> (elements s); t := t' |}, []).

Definition isEmpty (s : stack) : bool := (t s <=? 0)%Z.

(** The methods a caller can invoke, and the states a [Stack] object can be
    in: those obtained from [new Stack()] by calling them. *)
Inductive op := Push (m : value) | Top | Pop | IsEmpty.

Definition exec (o : op) (s : stack) : stack :=
  match o with
  | Push m => push m s
  | Pop => (pop s).1.2
  | Top | IsEmpty => s
  end.

Inductive reachable : stack -> Prop :=
| reach_new : reachable new
| reach_exec o s : reachable s -> reachable (exec o s).

(** A sequence of pushes and pops is balanced when every pop matches an
    earlier push and none is left over: [balanced d ops] for a sequence
    that closes [d] pushes made before it. *)
Fixpoint balanced (d : nat) (ops : list op) : bool :=
  match ops with
  | [] => Nat.eqb d 0
  | Push _ :: r => balanced (S d) r
  | Pop :: r => match d with O => false | S d' => balanced d' r end
  | (Top | IsEmpty) :: r => balanced d r
  end.

End Stack.

(** ** The Matrix4 interface *)

(** Modelled from the spec: the class [Matrix4] of cuon-matrix, which the
    sources use and do not contain. The spec (section 2) takes it as a 4x4
    homogeneous transform with a product and builders for translations,
    rotations and scalings, known by its algebraic contract. This is that
    interface: the value a fresh object holds, the product, and the values
    the [set...] builders store. The angle of a rotation is in degrees. *)
Class Matrix4 (Mat : Type) := {
  identity : Mat;
  mul : Mat -> Mat -> Mat;
  translation : Q -> Q -> Q -> Mat;
  rotation : Z -> Q -> Q -> Q -> Mat;
  scaling : Q -> Q -> Q -> Mat
}.

(** The part of the algebraic contract of the matrix library that the joint
    model relies on: the identity is neutral, and a null translation and a
    rotation by zero degrees about a proper axis are the identity. *)
Class Matrix4Laws (Mat : Type) `{Matrix4 Mat} := {
  mul_identity_r : forall m : Mat, mul m identity = m;
  mul_identity_l : forall m : Mat, mul identity m = m;
  translation_zero : translation 0 0 0 = identity;
  rotation_zero : forall x y z : Q,
    ~ (x == 0 /\ y == 0 /\ z == 0)%Q -> rotation 0 x y z = identity
}.

(** ** Program state *)

(** [var joint] (lines 57-67). *)
Record Joint := {
  turbine : Z; base : Z; generator : Z; rotor : Z; blade : Z;
  shoulder : Z; arm : Z; hand : Z
}.

(** A call on the [Stack] object of a render pass, with its argument or
    result. Kept to count pushes and pops; no code reads it. *)
Inductive call :=
| CallPush (m : value)
| CallTop (r : value)
| CallPop (r : value)
| CallIsEmpty (r : bool).

(** The global matrix variables are bound once, in this order, at the top
    level of the script, and never rebound: each is the address of its
    object. [initial_addresses] checks the numbering. *)
Definition turbineMatrix : loc := 0.
Definition baseMatrix : loc := 1.
Definition generatorMatrix : loc := 2.
Definition rotorMatrix : loc := 3.
Definition bladeMatrix : loc := 4.
Definition turbineMatrixLocal : loc := 5.
Definition baseMatrixLocal : loc := 6.
Definition generatorMatrixLocal : loc := 7.
Definition rotorMatrixLocal : loc := 8.
Definition bladeMatrixLocal : loc := 9.
Definition modelMatrix : loc := 10.

Section Program.

Context {Mat : Type} `{Matrix4 Mat}.

(** The calls on the GL context that are recorded: [gl.clear], then
    [gl.useProgram(lightingShader)] as [UseProgram true] and
    [gl.useProgram(null)] as [UseProgram false], the upload of the [model]
    uniform, and [gl.drawArrays(gl.TRIANGLES, 0, n)]. *)
Inductive glcall :=
| Clear
| UseProgram (bound : bool)
| UniformModel (m : Mat)
| DrawArrays (n : Z).

Record State := {
  heap : list Mat;
  joint : Joint;
  rotDir : bool;
  rotSpeed : Z;
  rotAnim : bool;
  (** [lightingShader], as the table [gl.getAttribLocation] reads. *)
  lightingShader : string -> Z;
  console : list logline;
  calls : list call;
  gl : list glcall
}.

Definition set_heap (h : list Mat) (st : State) : State :=
  {| heap := h; joint := joint st; rotDir := rotDir st;
     rotSpeed := rotSpeed st; rotAnim := rotAnim st;
     lightingShader := lightingShader st; console := console st;
     calls := calls st; gl := gl st |}.

Definition set_joint (j : Joint) (st : State) : State :=
  {| heap := heap st; joint := j; rotDir := rotDir st;
     rotSpeed := rotSpeed st; rotAnim := rotAnim st;
     lightingShader := lightingShader st; console := console st;
     calls := calls st; gl := gl st |}.

Definition set_rotDir (b : bool) (st : State) : State :=
  {| heap := heap st; joint := joint st; rotDir := b;
     rotSpeed := rotSpeed st; rotAnim := rotAnim st;
     lightingShader := lightingShader st; console := console st;
     calls := calls st; gl := gl st |}.

Definition set_rotSpeed (n : Z) (st : State) : State :=
  {| heap := heap st; joint := joint st; rotDir := rotDir st;
     rotSpeed := n; rotAnim := rotAnim st;
     lightingShader := lightingShader st; console := console st;
     calls := calls st; gl := gl st |}.

Definition set_rotAnim (b : bool) (st : State) : State :=
  {| heap := heap st; joint := joint st; rotDir := rotDir st;
     rotSpeed := rotSpeed st; rotAnim := b;
     lightingShader := lightingShader st; console := console st;
     calls := calls st; gl := gl st |}.

Definition add_console (out : list logline) (st : State) : State :=
  {| heap := heap st; joint := joint st; rotDir := rotDir st;
     rotSpeed := rotSpeed st; rotAnim := rotAnim st;
     lightingShader := lightingShader st; console := console st ++ out;
     calls := calls st; gl := gl st |}.

Definition add_call (c : call) (st : State) : State :=
  {| heap := heap st; joint := joint st; rotDir := rotDir st;
     rotSpeed := rotSpeed st; rotAnim := rotAnim st;
     lightingShader := lightingShader st; console := console st;
     calls := calls st ++ [c]; gl := gl st |}.

Definition add_gl (c : glcall) (st : State) : State :=
  {| heap := heap st; joint := joint st; rotDir := rotDir st;
     rotSpeed := rotSpeed st; rotAnim := rotAnim st;
     lightingShader := lightingShader st; console := console st;
     calls := calls st; gl := gl st ++ [c] |}.

(** ** The state monad the statements run in *)

Definition M (A : Type) : Type := State -> A * State.

Definition ret {A : Type} (a : A) : M A := fun st => (a, st).

Definition bind {A B : Type} (c : M A) (k : A -> M B) : M B :=
  fun st => match c st with (a, st') => k a st' end.

Notation "x <- c ;; k" := (bind c (fun x => k))
  (at level 100, c at next level, right associativity).
Notation "c ;; k" := (bind c (fun _ => k))
  (at level 100, right associativity).

Definition log (l : logline) : M unit := fun st => (tt, add_console [l] st).

(** ** Matrix4 objects in the heap *)

(** The program never holds an address it was not given by [new]; the
    default only makes the function total. *)
Definition deref (h : list Mat) (l : loc) : Mat := default identity (h !! l).

(** Modelled from the spec: the constructor of [Matrix4] (cuon-matrix is not
    in the sources). [new Matrix4(opt_src)] makes a new object, a copy of
    [opt_src] when that is an object and the identity otherwise; the spec
    has each push compose into a new matrix object. *)
Definition copy_of (h : list Mat) (opt_src : value) : Mat :=
  match opt_src with ref l => deref h l | undefined => identity end.

Definition Matrix4_new (opt_src : value) : M loc := fun st =>
  let h := heap st in (length h, set_heap (h ++ [copy_of h opt_src]) st).

(** Modelled from the spec: the methods of [Matrix4] that the program calls
    (cuon-matrix is not in the sources). Each writes the receiver in place
    and returns it, so that calls chain. *)
Definition Matrix4_update (f : Mat -> Mat) (l : loc) : M loc := fun st =>
  (l, set_heap (<[l := f (deref (heap st) l)]> (heap st)) st).

(** Modelled from the spec: [setTranslate] overwrites the receiver with a
    translation. *)
Definition Matrix4_setTranslate (x y z : Q) : loc -> M loc :=
  Matrix4_update (fun _ => translation x y z).

(** Modelled from the spec: [setScale] overwrites the receiver with a
    scaling. *)
Definition Matrix4_setScale (x y z : Q) : loc -> M loc :=
  Matrix4_update (fun _ => scaling x y z).

(** Modelled from the spec: [rotate] composes the receiver, on the right,
    with a rotation; the spec reads [setTranslate(0,0,0).rotate(15, ...)] as
    the translation composed with the rotation. *)
Definition Matrix4_rotate (angle : Z) (x y z : Q) : loc -> M loc :=
  Matrix4_update (fun m => mul m (rotation angle x y z)).

(** Modelled from the spec: [translate] composes the receiver, on the right,
    with a translation. *)
Definition Matrix4_translate (x y z : Q) : loc -> M loc :=
  Matrix4_update (fun m => mul m (translation x y z)).

(** Modelled from the spec: [scale] composes the receiver, on the right,
    with a scaling. *)
Definition Matrix4_scale (x y z : Q) : loc -> M loc :=
  Matrix4_update (fun m => mul m (scaling x y z)).

(** Modelled from the spec: [multiply] composes the receiver, on the right,
    with another matrix, read before the receiver is written. *)
Definition Matrix4_multiply (other : loc) (l : loc) : M loc := fun st =>
  Matrix4_update (fun m => mul m (deref (heap st) other)) l st.

(** ** Top level of the script (lines 57-147) *)

Definition initial_joint : Joint :=
  {| turbine := 0; base := 0; generator := 0; rotor := 0; blade := 0;
     shoulder := 45; arm := 45; hand := 0 |}.

Definition boot (shader : string -> Z) : State :=
  {| heap := []; joint := initial_joint; rotDir := false; rotSpeed := 1;
     rotAnim := true; lightingShader := shader; console := []; calls := [];
     gl := [] |}.

(** The matrix declarations; the result lists the addresses the variables
    get, in the order of [turbineMatrix] ... [modelMatrix]. *)
Definition declarations : M (list loc) :=
  j <- (fun st => (joint st, st));;
  m0 <- (m <- Matrix4_new undefined;; m <- Matrix4_setTranslate 0 0 0 m;;
         Matrix4_rotate (turbine j) 0 1 0 m);;
  m1 <- (m <- Matrix4_new undefined;; m <- Matrix4_setTranslate 0 (-10) 0 m;;
         Matrix4_rotate (base j) 0 1 0 m);;
  m2 <- (m <- Matrix4_new undefined;; m <- Matrix4_setTranslate 0 8 0 m;;
         Matrix4_rotate (generator j) 0 1 0 m);;
  m3 <- (m <- Matrix4_new undefined;; m <- Matrix4_setTranslate 0 0 3 m;;
         Matrix4_rotate (rotor j) 0 1 5 m);;
  m4 <- (m <- Matrix4_new undefined;; m <- Matrix4_setTranslate 0 0 0 m;;
         Matrix4_rotate (blade j) 0 1 0 m);;
  m5 <- (m <- Matrix4_new undefined;; Matrix4_setScale 2 20 2 m);;
  m6 <- (m <- Matrix4_new undefined;; Matrix4_setScale 5 1 5 m);;
  m7 <- (m <- Matrix4_new undefined;; Matrix4_setScale 3 3 5 m);;
  m8 <- (m <- Matrix4_new undefined;; Matrix4_setScale 1.2 1.2 1 m);;
  m9 <- (m <- Matrix4_new undefined;; Matrix4_setScale 20 0.8 0.8 m);;
  m10 <- Matrix4_new undefined;;
  ret [m0; m1; m2; m3; m4; m5; m6; m7; m8; m9; m10].

Definition initial (shader : string -> Z) : State :=
  (declarations (boot shader)).2.

(** ** changeRotAnim, changeRotSpeed, scaleMoinho (lines 73-122) *)

Definition changeRotAnim : M unit := fun st =>
  (tt, set_rotAnim (negb (rotAnim st)) st).

Definition changeRotSpeed (n : Z) : M unit := fun st =>
  if (rotSpeed st + n <? 1)%Z
  then (tt, set_rotSpeed 1 st)
  else (tt, set_rotSpeed (rotSpeed st + n) st).

Definition scaleMoinho (factor : Q) : M unit :=
  Matrix4_scale factor factor factor turbineMatrixLocal;;
  Matrix4_scale factor factor factor baseMatrixLocal;;
  Matrix4_scale factor factor factor generatorMatrixLocal;;
  Matrix4_scale factor factor factor rotorMatrixLocal;;
  Matrix4_scale factor factor factor bladeMatrixLocal;;
  ret tt.

(** ** The Stack methods as draw calls them *)

Definition Stack_push (m : value) (s : Stack.stack) : M Stack.stack :=
  fun st => (Stack.push m s, add_call (CallPush m) st).

Definition Stack_top (s : Stack.stack) : M value := fun st =>
  let r := Stack.top s in (r.1, add_console r.2 (add_call (CallTop r.1) st)).

Definition Stack_pop (s : Stack.stack) : M Stack.stack := fun st =>
  let r := Stack.pop s in
  (r.1.2, add_console r.2 (add_call (CallPop r.1.1) st)).

Definition Stack_isEmpty (s : Stack.stack) : M bool := fun st =>
  (Stack.isEmpty s, add_call (CallIsEmpty (Stack.isEmpty s)) st).

(** ** renderCube (lines 407-470) *)

Definition renderCube (matrixStack : Stack.stack) (matrixLocal : loc)
  : M unit :=
  (fun st => (tt, add_gl (UseProgram true) st));;
  shader <- (fun st => (lightingShader st, st));;
  if (shader "a_Position" <? 0)%Z
  then log [LStr "Failed to get the storage location of a_Position"]
  else if (shader "a_Normal" <? 0)%Z
  then log [LStr "Failed to get the storage location of a_Normal"]
  else if (shader "a_Color" <? 0)%Z
  then log [LStr "Failed to get the storage location of a_Color"]
  else
    top <- Stack_top matrixStack;;
    current <- (m <- Matrix4_new top;; Matrix4_multiply matrixLocal m);;
    current <- (m <- Matrix4_new (ref modelMatrix);;
                Matrix4_multiply current m);;
    (fun st => (tt, add_gl (UniformModel (deref (heap st) current)) st));;
    (fun st => (tt, add_gl (DrawArrays 36) st));;
    (fun st => (tt, add_gl (UseProgram false) st)).

(** ** draw (lines 476-509) *)

(** The statement [s.push(new Matrix4(s.top()).multiply(jointMatrix))] of
    lines 486, 491, 495 and 499. *)
Definition push_composed (jointMatrix : loc) (s : Stack.stack)
  : M Stack.stack :=
  top <- Stack_top s;;
  m <- (m <- Matrix4_new top;; Matrix4_multiply jointMatrix m);;
  Stack_push (ref m) s.

(** Lines 482-504: the walk over the five parts, on the stack [s]; the
    result is the stack as the walk leaves it. *)
Definition traverse (s : Stack.stack) : M Stack.stack :=
  s <- Stack_push (ref turbineMatrix) s;;
  renderCube s turbineMatrixLocal;;
  (* base relative to turbine *)
  s <- push_composed baseMatrix s;;
  renderCube s baseMatrixLocal;;
  s <- Stack_pop s;;
  (* generator relative to turbine *)
  s <- push_composed generatorMatrix s;;
  renderCube s generatorMatrixLocal;;
  (* rotor relative to generator *)
  s <- push_composed rotorMatrix s;;
  renderCube s rotorMatrixLocal;;
  (* blade relative to rotor *)
  s <- push_composed bladeMatrix s;;
  renderCube s bladeMatrixLocal;;
  s <- Stack_pop s;;
  s <- Stack_pop s;;
  s <- Stack_pop s;;
  s <- Stack_pop s;;
  ret s.

(** Lines 506-508: the check that ends the pass. *)
Definition check_balance (s : Stack.stack) : M unit :=
  empty <- Stack_isEmpty s;;
  if negb empty
  then log [LStr "Warning: pops do not match pushes"]
  else ret tt.

Definition draw : M unit :=
  (fun st => (tt, add_gl Clear st));;
  s <- traverse Stack.new;;
  check_balance s.

(** ** rotate and the animation loop (lines 511-525, 633-639) *)

Definition rotate : M unit := fun st =>
  if rotAnim st then
    (let j := joint st in
     let r := if rotDir st then (rotor j + rotSpeed st)%Z
              else (rotor j - rotSpeed st)%Z in
     (fun st => (tt, set_joint
        {| turbine := turbine j; base := base j; generator := generator j;
           rotor := r; blade := blade j; shoulder := shoulder j;
           arm := arm j; hand := hand j |} st));;
     currentNoseRot <- (m <- Matrix4_new undefined;;
                        m <- Matrix4_setTranslate 0 0 0 m;;
                        m <- Matrix4_rotate r 0 0 1 m;;
                        Matrix4_translate 0 0 0 m);;
     m <- Matrix4_setTranslate 0 0 3 rotorMatrix;;
     Matrix4_multiply currentNoseRot m;;
     ret tt) st
  else (tt, st).

Definition animate : M unit := rotate;; draw.

(** ** handleKeyPress (lines 344-398) *)

Definition add_turbine (d : Z) : M Z := fun st =>
  let j := joint st in
  let a := (turbine j + d)%Z in
  (a, set_joint
        {| turbine := a; base := base j; generator := generator j;
           rotor := rotor j; blade := blade j; shoulder := shoulder j;
           arm := arm j; hand := hand j |} st).

Definition add_generator (d : Z) : M Z := fun st =>
  let j := joint st in
  let a := (generator j + d)%Z in
  (a, set_joint
        {| turbine := turbine j; base := base j; generator := a;
           rotor := rotor j; blade := blade j; shoulder := shoulder j;
           arm := arm j; hand := hand j |} st).

(** The body of the [switch]: [None] for the [default] case, which returns
    before [draw]. *)
Definition key_action (ch : string) : option (M unit) :=
  if String.eqb ch "t" then
    Some (a <- add_turbine 15;;
          m <- Matrix4_setTranslate 0 0 0 turbineMatrix;;
          Matrix4_rotate a 0 1 0 m;; ret tt)
  else if String.eqb ch "T" then
    Some (a <- add_turbine (-15);;
          m <- Matrix4_setTranslate 0 0 0 turbineMatrix;;
          Matrix4_rotate a 0 1 0 m;; ret tt)
  else if String.eqb ch "g" then
    Some (a <- add_generator 15;;
          m <- Matrix4_setTranslate 0 8 0 generatorMatrix;;
          Matrix4_rotate a 0 1 0 m;; ret tt)
  else if String.eqb ch "G" then
    Some (a <- add_generator (-15);;
          m <- Matrix4_setTranslate 0 8 0 generatorMatrix;;
          Matrix4_rotate a 0 1 0 m;; ret tt)
  else if String.eqb ch "r" then Some (fun st => (tt, set_rotDir false st))
  else if String.eqb ch "R" then Some (fun st => (tt, set_rotDir true st))
  else if String.eqb ch "b" then Some (changeRotSpeed (-1))
  else if String.eqb ch "B" then Some (changeRotSpeed 1)
  else if String.eqb ch "o" then
    Some (fun st => (tt, set_rotDir false (set_rotSpeed 1 st)))
  else if String.eqb ch " " then Some changeRotAnim
  else if String.eqb ch "ArrowUp" then Some (scaleMoinho 1.1)
  else if String.eqb ch "ArrowDown" then Some (scaleMoinho 0.9)
  else None.

Definition handleKeyPress (ch : string) : M unit :=
  log [LStr ch];;
  match key_action ch with
  | Some action => action;; draw
  | None => ret tt
  end.

(** ** What the page can do to the state *)

Inductive input := KeyDown (ch : string) | AnimationFrame.

Definition step (i : input) (st : State) : State :=
  match i with
  | KeyDown ch => (handleKeyPress ch st).2
  | AnimationFrame => (animate st).2
  end.

Definition run (inputs : list input) (st : State) : State :=
  fold_left (fun st i => step i st) inputs st.

Inductive reachable : State -> Prop :=
| reach_initial shader : reachable (initial shader)
| reach_step i st : reachable st -> reachable (step i st).

(** ** Vocabulary of the statements *)

(** [st] with [e] allocated after its objects and [c], [g], [o] appended to
    its records of calls, GPU calls and console lines. *)
Definition extend (e : list Mat) (c : list call) (g : list glcall)
  (o : list logline) (st : State) : State :=
  {| heap := heap st ++ e; joint := joint st; rotDir := rotDir st;
     rotSpeed := rotSpeed st; rotAnim := rotAnim st;
     lightingShader := lightingShader st; console := console st ++ o;
     calls := calls st ++ c; gl := gl st ++ g |}.

Definition is_push (c : call) : bool :=
  match c with CallPush _ => true | _ => false end.

Definition is_pop (c : call) : bool :=
  match c with CallPop _ => true | _ => false end.

Definition pushes (c : list call) : nat := length (filter is_push c).

Definition pops (c : list call) : nat := length (filter is_pop c).

(** The values pushed, in order. *)
Definition pushed (c : list call) : list value :=
  omap (fun x => match x with CallPush m => Some m | _ => None end) c.

(** The matrices uploaded as the [model] uniform, in order. *)
Definition uniforms (g : list glcall) : list Mat :=
  omap (fun x => match x with UniformModel m => Some m | _ => None end) g.

Definition all_attributes_found (shader : string -> Z) : bool :=
  negb (shader "a_Position" <? 0)%Z && negb (shader "a_Normal" <? 0)%Z
  && negb (shader "a_Color" <? 0)%Z.

(** The call [renderCube] makes on the stack: one [top()], once it is past
    the attribute checks. *)
Definition rendered (found : bool) (v : value) : list call :=
  if found then [CallTop v] else [].

Definition mismatch_warning : logline :=
  [LStr "Warning: pops do not match pushes"].

(** [st'] is [st] after some allocations, calls and output, [np] of the
    calls being pushes and [nq] pops, and none of the output the warning of
    the end of the pass. Nothing [st] holds is written. *)
Definition effect (np nq : nat) (st st' : State) : Prop :=
  exists e c g o,
    st' = extend e c g o st
    /\ pushes c = np /\ pops c = nq /\ (mismatch_warning ∉ o).

(** The calls a render pass started in [st] makes on its stack, and the
    console lines it prints. *)
Definition pass_calls (st : State) : list call :=
  drop (length (calls st)) (calls (draw st).2).

Definition pass_console (st : State) : list logline :=
  drop (length (console st)) (console (draw st).2).

(** The matrices a render pass started in [st] uploads, in order. *)
Definition pass_uniforms (st : State) : list Mat :=
  uniforms (drop (length (gl st)) (gl (draw st).2)).

(** Every matrix a pass pushes is an object made during the pass. *)
Definition pushes_only_new_matrices (st : State) : Prop :=
  forall l : loc, CallPush (ref l) ∈ pass_calls st -> length (heap st) <= l.

(** The matrices of the joints and those of the shapes of the parts. *)
Definition joint_matrices : list loc :=
  [turbineMatrix; baseMatrix; generatorMatrix; rotorMatrix; bladeMatrix].

Definition shape_matrices : list loc :=
  [turbineMatrixLocal; baseMatrixLocal; generatorMatrixLocal;
   rotorMatrixLocal; bladeMatrixLocal].

(** Sign of the per-tick step of the rotor: [rotDir] true counts up. *)
Definition direction (rotDir : bool) : Z := if rotDir then 1 else (-1).

(** The value [rotate] rebuilds [rotorMatrix] with, for a rotor angle. *)
Definition rotor_transform (angle : Z) : Mat :=
  mul (translation 0 0 3)
      (mul (mul (translation 0 0 0) (rotation angle 0 0 1))
           (translation 0 0 0)).

(** Every global matrix variable has its object. *)
Definition allocated (st : State) : Prop := 11 <= length (heap st).

End Program.

Arguments State Mat : clear implicits.
Arguments glcall Mat : clear implicits.
Arguments M Mat A : clear implicits.

(** ** A symbolic reading of the interface *)

(** A matrix as the word of the non-trivial elementary transforms whose
    product it is. Two equal words denote equal products in any reading of
    the interface that meets the laws above and has an associative product;
    the laws hold here by construction. *)
Inductive factor :=
| Translation (x y z : Q)
| Rotation (angle : Z) (x y z : Q)
| Scaling (x y z : Q).

Definition null3 (x y z : Q) : bool :=
  Qeq_bool x 0 && Qeq_bool y 0 && Qeq_bool z 0.

#[export] Instance word_Matrix4 : Matrix4 (list factor) := {|
  identity := [];
  mul := app;
  translation x y z := if null3 x y z then [] else [Translation x y z];
  rotation a x y z := if (a =? 0)%Z then [] else [Rotation a x y z];
  scaling x y z := [Scaling x y z]
|}.

(** A shader in which every attribute is found. *)
Definition shader_ok (name : string) : Z :=
  if String.eqb name "a_Position" then 0
  else if String.eqb name "a_Normal" then 1
  else if String.eqb name "a_Color" then 2
  else (-1).

(** A shader without the [a_Normal] attribute. *)
Definition shader_no_normal (name : string) : Z :=
  if String.eqb name "a_Position" then 0
  else if String.eqb name "a_Color" then 1
  else (-1).

(** ** The reading in real matrices *)

(** The interface read in exact arithmetic: 4x4 real matrices, with the
    formulas of the usual homogeneous transforms. A matrix is its four
    rows. *)
Definition row : Type := R * R * R * R.

Record matrix := { row1 : row; row2 : row; row3 : row; row4 : row }.

Definition x1 (u : row) : R := u.1.1.1.
Definition x2 (u : row) : R := u.1.1.2.
Definition x3 (u : row) : R := u.1.2.
Definition x4 (u : row) : R := u.2.

Definition column (x : row -> R) (m : matrix) : row :=
  (x (row1 m), x (row2 m), x (row3 m), x (row4 m)).

Definition dot (u v : row) : R :=
  (x1 u * x1 v + x2 u * x2 v + x3 u * x3 v + x4 u * x4 v)%R.

Definition row_times (u : row) (m : matrix) : row :=
  (dot u (column x1 m), dot u (column x2 m), dot u (column x3 m),
   dot u (column x4 m)).

Definition matrix_mul (m n : matrix) : matrix :=
  {| row1 := row_times (row1 m) n; row2 := row_times (row2 m) n;
     row3 := row_times (row3 m) n; row4 := row_times (row4 m) n |}.

Definition matrix_identity : matrix :=
  {| row1 := (1, 0, 0, 0); row2 := (0, 1, 0, 0);
     row3 := (0, 0, 1, 0); row4 := (0, 0, 0, 1) |}%R.

Definition matrix_translation (x y z : Q) : matrix :=
  {| row1 := (1, 0, 0, Q2R x); row2 := (0, 1, 0, Q2R y);
     row3 := (0, 0, 1, Q2R z); row4 := (0, 0, 0, 1) |}%R.

Definition matrix_scaling (x y z : Q) : matrix :=
  {| row1 := (Q2R x, 0, 0, 0); row2 := (0, Q2R y, 0, 0);
     row3 := (0, 0, Q2R z, 0); row4 := (0, 0, 0, 1) |}%R.

(** Rotation by [angle] degrees about the axis [(x, y, z)], normalised. *)
Definition matrix_rotation (angle : Z) (x y z : Q) : matrix :=
  let a := (PI * IZR angle / 180)%R in
  let s := sin a in
  let c := cos a in
  let len := sqrt (Q2R x * Q2R x + Q2R y * Q2R y + Q2R z * Q2R z) in
  let x := (Q2R x / len)%R in
  let y := (Q2R y / len)%R in
  let z := (Q2R z / len)%R in
  let nc := (1 - c)%R in
  {| row1 := (x * x * nc + c, x * y * nc - z * s, z * x * nc + y * s, 0);
     row2 := (x * y * nc + z * s, y * y * nc + c, y * z * nc - x * s, 0);
     row3 := (z * x * nc - y * s, y * z * nc + x * s, z * z * nc + c, 0);
     row4 := (0, 0, 0, 1) |}%R.

#[export] Instance real_Matrix4 : Matrix4 matrix := {|
  identity := matrix_identity;
  mul := matrix_mul;
  translation := matrix_translation;
  rotation := matrix_rotation;
  scaling := matrix_scaling
|}.

(** ** Example states *)

(** The page as loaded, read symbolically, with a complete shader. *)
Definition example_initial : State (list factor) := initial shader_ok.

(** After the keys B, B and R: speed 3, counting up. *)
Definition example_fast : State (list factor) :=
  run [KeyDown "B"; KeyDown "B"; KeyDown "R"] example_initial.

(** After one animation frame. *)
Definition example_ticked : State (list factor) :=
  step AnimationFrame example_initial.

(** A stack holding one matrix. *)
Definition example_stack : Stack.stack :=
  Stack.push (ref turbineMatrix) Stack.new.

(** ** Sequences of stack calls *)

(** [push] of each of [ms] in turn. *)
Definition push_all (ms : list value) (s : Stack.stack) : Stack.stack :=
  fold_left (fun s m => Stack.push m s) ms s.

(** [n] calls of [pop]: what they return, in order, and the stack left. *)
Fixpoint pop_n (n : nat) (s : Stack.stack) : list value * Stack.stack :=
  match n with
  | O => ([], s)
  | S n' =>
      let r := Stack.pop s in
      let rest := pop_n n' r.1.2 in
      (r.1.1 :: rest.1, rest.2)
  end.

(** Two stacks of the same depth holding the same elements. *)
Definition same_content (s s' : Stack.stack) : Prop :=
  Stack.t s' = Stack.t s
  /\ forall i : Z, (i < Stack.t s)%Z ->
       Stack.get (Stack.elements s') i = Stack.get (Stack.elements s) i.

(** ** The stack discipline of a pass, for the statements *)

Definition value_eqb (a b : value) : bool :=
  match a, b with
  | undefined, undefined => true
  | ref l, ref l' => Nat.eqb l l'
  | _, _ => false
  end.

(** The recorded calls [c], read against a last-in-first-out store that
    holds [held] (the top first): [Some] of what the store holds after them
    when every call answered as that store answers, that is, [top] and
    [pop] returned the element on top, [pop] removed it and [isEmpty] told
    whether the store held nothing; [None] as soon as a result differs, or a
    [top] or a [pop] is made on the store when it holds nothing. *)
Fixpoint replay (held : list value) (c : list call) : option (list value) :=
  match c with
  | [] => Some held
  | CallPush m :: c' => replay (m :: held) c'
  | CallTop r :: c' =>
      match held with
      | x :: _ => if value_eqb r x then replay held c' else None
      | [] => None
      end
  | CallPop r :: c' =>
      match held with
      | x :: held' => if value_eqb r x then replay held' c' else None
      | [] => None
      end
  | CallIsEmpty r :: c' =>
      if Bool.eqb r (match held with [] => true | _ :: _ => false end)
      then replay held c'
      else None
  end.

(** The code's stack [s] holds exactly [held], the top first: its pointer
    is their number and slot [i] is the [i]-th pushed. *)
Definition holds (held : list value) (s : Stack.stack) : Prop :=
  Stack.t s = Z.of_nat (length held)
  /\ forall (i : nat) (x : value),
       rev held !! i = Some x ->
       Stack.get (Stack.elements s) (Z.of_nat i) = x.

Definition underflow_warning : logline := [LStr "Warning: stack underflow"].

(** The method calls [ops] made in turn on the stack [s]. *)
Definition exec_all (ops : list Stack.op) (s : Stack.stack) : Stack.stack :=
  fold_left (fun s o => Stack.exec o s) ops s.

(** How many pushes of [ops], made on an empty store, no pop has matched
    when they end; a pop made when nothing is held matches nothing. *)
Definition unmatched (ops : list Stack.op) : nat :=
  fold_left
    (fun d o =>
       match o with
       | Stack.Push _ => S d
       | Stack.Pop => Nat.pred d
       | Stack.Top | Stack.IsEmpty => d
       end)
    ops 0.

(** [j] with its rotor angle replaced, as [rotate] writes it. *)
Definition with_rotor (r : Z) (j : Joint) : Joint :=
  {| turbine := turbine j; base := base j; generator := generator j;
     rotor := r; blade := blade j; shoulder := shoulder j; arm := arm j;
     hand := hand j |}.

(** ** The keys and the shader, for the statements *)

(** The strings [handleKeyPress] has a [case] for. *)
Definition bound_keys : list string :=
  ["t"; "T"; "g"; "G"; "r"; "R"; "b"; "B"; "o"; " "; "ArrowUp"; "ArrowDown"].

(** The first attribute [renderCube] fails to find, in the order of its
    checks. *)
Definition first_missing (shader : string -> Z) : option string :=
  if (shader "a_Position" <? 0)%Z then Some "a_Position"
  else if (shader "a_Normal" <? 0)%Z then Some "a_Normal"
  else if (shader "a_Color" <? 0)%Z then Some "a_Color"
  else None.

Definition failure_line (name : string) : logline :=
  [LStr ("Failed to get the storage location of " ++ name)].

Section PassVocabulary.

Context {Mat : Type} `{Matrix4 Mat}.

(** [st'] is [st] after some allocations, calls and output; the calls on
    the stack are those of a last-in-first-out store that held [held] and
    holds [held'] after them, and none of the output is the warning of an
    underflow. *)
Definition follows (held held' : list value) (st st' : State Mat) : Prop :=
  exists e c g o,
    st' = extend e c g o st
    /\ replay held c = Some held' /\ (underflow_warning ∉ o).

(** The stack the check at the end of a pass started in [st] is given. *)
Definition pass_stack (st : State Mat) : Stack.stack :=
  (traverse Stack.new (add_gl Clear st)).1.

(** The calls on the GL context recorded during a render pass started in
    [st]. *)
Definition pass_gl (st : State Mat) : list (glcall Mat) :=
  drop (length (gl st)) (gl (draw st).2).

(** How many times a list of GPU calls clears the framebuffer. *)
Definition is_clear (c : glcall Mat) : bool :=
  match c with Clear => true | _ => false end.

Definition clears (g : list (glcall Mat)) : nat :=
  length (filter is_clear g).

(** One part drawn: the program bound, its world transform uploaded, the
    36 vertices drawn, the program unbound. *)
Definition drawn (world : Mat) : list (glcall Mat) :=
  [UseProgram true; UniformModel world; DrawArrays 36; UseProgram false].

(** What the keys and the animation keep of the joints: the turbine's and
    the generator's matrices are built from their angles, which move by
    steps of 15; the base, the blade and the model matrix are as the script
    declared them; the other angles are as declared. *)
Definition joints_kept (st : State Mat) : Prop :=
  deref (heap st) turbineMatrix
  = mul (translation 0 0 0) (rotation (turbine (joint st)) 0 1 0)
  /\ deref (heap st) generatorMatrix
     = mul (translation 0 8 0) (rotation (generator (joint st)) 0 1 0)
  /\ deref (heap st) baseMatrix
     = mul (translation 0 (-10) 0) (rotation 0 0 1 0)
  /\ deref (heap st) bladeMatrix
     = mul (translation 0 0 0) (rotation 0 0 1 0)
  /\ deref (heap st) modelMatrix = identity
  /\ base (joint st) = 0%Z /\ blade (joint st) = 0%Z
  /\ shoulder (joint st) = 45%Z /\ arm (joint st) = 45%Z
  /\ hand (joint st) = 0%Z
  /\ (15 | turbine (joint st))%Z /\ (15 | generator (joint st))%Z.

End PassVocabulary.

(** ** The cube model (lines 220-305) *)

(** What an array element read gives: a number, or [undefined] (which a
    [Float32Array] then stores as NaN). The numbers of the tables are
    halves and units, exact in single precision. *)
Definition jsnum : Type := option Q.

Definition rawVertices : list Q :=
  [ -0.5; -0.5; 0.5;
    0.5; -0.5; 0.5;
    0.5; 0.5; 0.5;
    -0.5; 0.5; 0.5;
    -0.5; -0.5; -0.5;
    0.5; -0.5; -0.5;
    0.5; 0.5; -0.5;
    -0.5; 0.5; -0.5 ]%Q.

Definition rawColors : list Q :=
  [ 1; 0; 0; 1;
    0; 1; 0; 1;
    0; 0; 1; 1;
    1; 1; 0; 1;
    1; 0; 1; 1;
    0; 1; 1; 1 ]%Q.

Definition rawNormals : list Q :=
  [ 0; 0; 1;
    1; 0; 0;
    0; 0; -1;
    -1; 0; 0;
    0; 1; 0;
    0; -1; 0 ]%Q.

Definition indices : list nat :=
  [ 0; 1; 2; 0; 2; 3;
    1; 5; 6; 1; 6; 2;
    5; 4; 7; 5; 7; 6;
    4; 0; 3; 4; 3; 7;
    3; 2; 6; 3; 6; 7;
    4; 5; 1; 4; 1; 0 ].

(** One turn of the loop over the 36 vertices (lines 267-286), over any
    tables: three pushes for the position, four for the colour, three for
    the normal. An index the table does not have reads [undefined]. *)
Definition cube_step (rawV rawC rawN : list Q) (idx : list nat)
  (acc : list jsnum * list jsnum * list jsnum) (i : nat)
  : list jsnum * list jsnum * list jsnum :=
  let face := i / 6 in
  let index := idx !! i in
  (acc.1.1 ++ map (fun j => index ≫= fun k => rawV !! (3 * k + j)) [0; 1; 2],
   acc.1.2 ++ map (fun j => rawC !! (4 * face + j)) [0; 1; 2; 3],
   acc.2 ++ map (fun j => rawN !! (3 * face + j)) [0; 1; 2]).

Definition cube_loop (rawV rawC rawN : list Q) (idx : list nat) (n : nat)
  : list jsnum * list jsnum * list jsnum :=
  fold_left (cube_step rawV rawC rawN idx) (seq 0 n) ([], [], []).

Record cube_data := {
  numVertices : nat;
  vertices : list jsnum;
  colors : list jsnum;
  normals : list jsnum
}.

Definition make_cube (rawV rawC rawN : list Q) (idx : list nat) : cube_data :=
  let r := cube_loop rawV rawC rawN idx 36 in
  {| numVertices := 36; vertices := r.1.1; colors := r.1.2; normals := r.2 |}.

Definition cube : cube_data :=
  make_cube rawVertices rawColors rawNormals indices.

(** The attribute of vertex [i] as [gl.vertexAttribPointer(_, size,
    gl.FLOAT, false, 0, 0)] reads it from a buffer: [size] numbers, tightly
    packed. *)
Definition attribute (size : nat) (data : list jsnum) (i : nat) : list jsnum :=
  take size (drop (size * i) data).

Definition point : Type := Q * Q * Q.

Definition point_of (a : list jsnum) : option point :=
  match a with
  | [Some x; Some y; Some z] => Some (x, y, z)
  | _ => None
  end.

Definition vertex_at (c : cube_data) (i : nat) : option point :=
  point_of (attribute 3 (vertices c) i).

Definition normal_at (c : cube_data) (i : nat) : option point :=
  point_of (attribute 3 (normals c) i).

Definition minus (p q : point) : point :=
  (p.1.1 - q.1.1, p.1.2 - q.1.2, p.2 - q.2)%Q.

Definition cross (p q : point) : point :=
  (p.1.2 * q.2 - p.2 * q.1.2,
   p.2 * q.1.1 - p.1.1 * q.2,
   p.1.1 * q.1.2 - p.1.2 * q.1.1)%Q.

Definition inner (p q : point) : Q :=
  (p.1.1 * q.1.1 + p.1.2 * q.1.2 + p.2 * q.2)%Q.

Definition same_point (p q : point) : Prop :=
  (p.1.1 == q.1.1 /\ p.1.2 == q.1.2 /\ p.2 == q.2)%Q.

(** The state after the key [t], and the initial state of a page whose
    shader lacks [a_Normal]. *)
Definition example_turned : State (list factor) :=
  step (KeyDown "t") example_initial.

Definition example_broken : State (list factor) := initial shader_no_normal.

(** * Properties *)

(** ** The stack on its own *)

Lemma stack_reachable_depth (s : Stack.stack) :
  Stack.reachable s -> (0 <= Stack.t s)%Z.
Proof.
  induction 1 as [|o s _ IH]; [done|].
  destruct o; cbn; try done.
  - lia.
  - unfold Stack.pop. destruct (Z.leb_spec (Stack.t s) 0); cbn; lia.
Qed.

Lemma stack_top_push (m : value) (s : Stack.stack) :
  (0 <= Stack.t s)%Z -> Stack.top (Stack.push m s) = (m, []).
Proof.
  intros Ht. unfold Stack.top, Stack.push, Stack.get. cbn.
  destruct (Z.leb_spec (Stack.t s + 1) 0); [lia|].
  replace (Stack.t s + 1 - 1)%Z with (Stack.t s) by lia.
  by rewrite lookup_insert_eq.
Qed.

Lemma stack_pop_push (m : value) (s : Stack.stack) :
  (0 <= Stack.t s)%Z ->
  Stack.pop (Stack.push m s)
  = (m, {| Stack.elements :=
             <[Stack.t s := undefined]> (<[Stack.t s := m]> (Stack.elements s));
           Stack.t := Stack.t s |}, []).
Proof.
  intros Ht. unfold Stack.pop, Stack.push, Stack.get. cbn.
  destruct (Z.leb_spec (Stack.t s + 1) 0); [lia|].
  replace (Stack.t s + 1 - 1)%Z with (Stack.t s) by lia.
  by rewrite lookup_insert_eq.
Qed.

(** Slots at and above the stack pointer are never read by [top]. *)
Lemma stack_top_above (s : Stack.stack) (v w : value) :
  Stack.top {| Stack.elements :=
                 <[Stack.t s := v]> (<[Stack.t s := w]> (Stack.elements s));
               Stack.t := Stack.t s |}
  = Stack.top s.
Proof.
  unfold Stack.top, Stack.get. cbn.
  destruct (Z.leb_spec (Stack.t s) 0); [done|].
  by rewrite !lookup_insert_ne by lia.
Qed.

Lemma stack_top_pop_push (m : value) (s : Stack.stack) :
  (0 <= Stack.t s)%Z ->
  Stack.top (Stack.pop (Stack.push m s)).1.2 = Stack.top s.
Proof.
  intros Ht. rewrite stack_pop_push by done. cbn. apply stack_top_above.
Qed.

Lemma stack_balanced_depth (ops : list Stack.op) :
  forall (d : nat) (s : Stack.stack),
    (Z.of_nat d <= Stack.t s)%Z ->
    Stack.balanced d ops = true ->
    Stack.t (fold_left (fun s o => Stack.exec o s) ops s)
    = (Stack.t s - Z.of_nat d)%Z.
Proof.
  induction ops as [|o ops IH]; intros d s Hd Hb; cbn in *.
  - apply Nat.eqb_eq in Hb. lia.
  - destruct o; cbn.
    + rewrite (IH (S d)); cbn; [lia | lia | done].
    + by apply IH.
    + destruct d as [|d]; [done|].
      unfold Stack.pop. destruct (Z.leb_spec (Stack.t s) 0); [lia|]. cbn.
      rewrite (IH d); cbn; [lia | lia | done].
    + by apply IH.
Qed.

Section Properties.

Context {Mat : Type} `{Matrix4 Mat}.

Notation "x <- c ;; k" := (bind c (fun x => k))
  (at level 100, c at next level, right associativity).
Notation "c ;; k" := (bind c (fun _ => k))
  (at level 100, right associativity).

(** ** Heap cells *)

Lemma deref_app_l (h e : list Mat) (l : loc) :
  l < length h -> deref (h ++ e) l = deref h l.
Proof. intros Hl. unfold deref. by rewrite lookup_app_l. Qed.

Lemma deref_app_r (h e : list Mat) (k : nat) :
  deref (h ++ e) (length h + k) = deref e k.
Proof.
  unfold deref. rewrite lookup_app_r by lia.
  by replace (length h + k - length h) with k by lia.
Qed.

Lemma deref_app_r0 (h e : list Mat) : deref (h ++ e) (length h) = deref e 0.
Proof. rewrite <- (deref_app_r h e 0). by rewrite Nat.add_0_r. Qed.

Lemma deref_insert_eq (h : list Mat) (l : loc) (v : Mat) :
  l < length h -> deref (<[l := v]> h) l = v.
Proof. intros Hl. unfold deref. by rewrite list_lookup_insert_eq. Qed.

Lemma deref_insert_ne (h : list Mat) (l l' : loc) (v : Mat) :
  l <> l' -> deref (<[l := v]> h) l' = deref h l'.
Proof. intros Hl. unfold deref. by rewrite list_lookup_insert_ne. Qed.

Lemma insert_last (h : list Mat) (x y : Mat) :
  <[length h := y]> (h ++ [x]) = h ++ [y].
Proof.
  rewrite insert_app_r_alt by lia. by rewrite Nat.sub_diag.
Qed.

(** ** Running the monad *)

Lemma bind_run {A B : Type} (c : M Mat A) (k : A -> M Mat B)
  (st st' : State Mat) (a : A) :
  c st = (a, st') -> bind c k st = k a st'.
Proof. intros E. unfold bind. by rewrite E. Qed.

Lemma extend_nil (st : State Mat) : extend [] [] [] [] st = st.
Proof. destruct st. unfold extend. cbn. by rewrite !app_nil_r. Qed.

Lemma extend_extend e1 c1 g1 o1 e2 c2 g2 o2 (st : State Mat) :
  extend e2 c2 g2 o2 (extend e1 c1 g1 o1 st)
  = extend (e1 ++ e2) (c1 ++ c2) (g1 ++ g2) (o1 ++ o2) st.
Proof. unfold extend. cbn. by rewrite !app_assoc. Qed.

Lemma Stack_push_run (m : value) (s : Stack.stack) (st : State Mat) :
  Stack_push m s st = (Stack.push m s, extend [] [CallPush m] [] [] st).
Proof.
  unfold Stack_push, extend, add_call. by rewrite !app_nil_r.
Qed.

Lemma Stack_top_run (s : Stack.stack) (st : State Mat) :
  Stack_top s st
  = ((Stack.top s).1,
     extend [] [CallTop (Stack.top s).1] [] (Stack.top s).2 st).
Proof.
  unfold Stack_top, extend, add_call, add_console. cbn. by rewrite !app_nil_r.
Qed.

Lemma Stack_pop_run (s : Stack.stack) (st : State Mat) :
  Stack_pop s st
  = ((Stack.pop s).1.2,
     extend [] [CallPop (Stack.pop s).1.1] [] (Stack.pop s).2 st).
Proof.
  unfold Stack_pop, extend, add_call, add_console. cbn. by rewrite !app_nil_r.
Qed.

Lemma Stack_isEmpty_run (s : Stack.stack) (st : State Mat) :
  Stack_isEmpty s st
  = (Stack.isEmpty s, extend [] [CallIsEmpty (Stack.isEmpty s)] [] [] st).
Proof.
  unfold Stack_isEmpty, extend, add_call. by rewrite !app_nil_r.
Qed.

Lemma log_run (l : logline) (st : State Mat) :
  log l st = (tt, extend [] [] [] [l] st).
Proof. unfold log, extend, add_console. by rewrite !app_nil_r. Qed.

(** [new Matrix4(v).multiply(other)] allocates one object and writes nothing
    else, whatever [other] is. *)
Lemma new_multiply_run (v : value) (other : loc) (st : State Mat) :
  (m <- Matrix4_new v;; Matrix4_multiply other m) st
  = (length (heap st),
     extend [mul (copy_of (heap st) v)
                 (deref (heap st ++ [copy_of (heap st) v]) other)] [] [] [] st).
Proof.
  unfold bind, Matrix4_new, Matrix4_multiply, Matrix4_update, extend, set_heap.
  cbn. rewrite insert_last, deref_app_r0, !app_nil_r. done.
Qed.


Lemma push_composed_run (jointMatrix : loc) (s : Stack.stack) (st : State Mat) :
  push_composed jointMatrix s st
  = (Stack.push (ref (length (heap st))) s,
     extend [mul (copy_of (heap st) (Stack.top s).1)
                 (deref (heap st ++ [copy_of (heap st) (Stack.top s).1])
                        jointMatrix)]
            [CallTop (Stack.top s).1; CallPush (ref (length (heap st)))]
            [] (Stack.top s).2 st).
Proof.
  unfold push_composed.
  erewrite bind_run by apply Stack_top_run.
  erewrite bind_run by apply new_multiply_run.
  rewrite Stack_push_run, !extend_extend. cbn.
  by rewrite !app_nil_r.
Qed.

(** A call on the GL context, and an early return of [renderCube] after
    its first statement. *)
Lemma add_gl_run (c : glcall Mat) (st : State Mat) :
  (tt, add_gl c st) = (tt, extend [] [] [c] [] st).
Proof. unfold add_gl, extend. by rewrite !app_nil_r. Qed.

Lemma log_bound_run (l : logline) (st : State Mat) :
  log l (add_gl (UseProgram true) st)
  = (tt, extend [] [] [UseProgram true] [l] st).
Proof. unfold log, add_console, add_gl, extend. cbn. by rewrite !app_nil_r. Qed.

(** [renderCube] when an attribute is missing: the program is bound, one
    console line is printed, and nothing else. *)
Lemma renderCube_run_failed (s : Stack.stack) (local : loc) (st : State Mat) :
  all_attributes_found (lightingShader st) = false ->
  exists name : string,
    renderCube s local st
    = (tt, extend [] [] [UseProgram true]
             [[LStr ("Failed to get the storage location of " ++ name)]] st).
Proof.
  unfold all_attributes_found, renderCube, bind. intros Hs.
  cbn [lightingShader add_gl].
  destruct (lightingShader st "a_Position" <? 0)%Z;
    [exists "a_Position"; apply log_bound_run|].
  destruct (lightingShader st "a_Normal" <? 0)%Z;
    [exists "a_Normal"; apply log_bound_run|].
  destruct (lightingShader st "a_Color" <? 0)%Z;
    [exists "a_Color"; apply log_bound_run|].
  done.
Qed.

(** [renderCube] when the shader has its attributes: two objects are
    allocated, [top * local] and [modelMatrix * (top * local)], and the
    second is uploaded, between the binding and the unbinding of the
    program. *)
Lemma renderCube_run_found (s : Stack.stack) (local : loc) (st : State Mat) :
  all_attributes_found (lightingShader st) = true ->
  local < length (heap st) -> modelMatrix < length (heap st) ->
  let world :=
    mul (copy_of (heap st) (Stack.top s).1) (deref (heap st) local) in
  renderCube s local st
  = (tt, extend [world; mul (deref (heap st) modelMatrix) world]
                [CallTop (Stack.top s).1]
                [UseProgram true;
                 UniformModel (mul (deref (heap st) modelMatrix) world);
                 DrawArrays 36; UseProgram false]
                (Stack.top s).2 st).
Proof.
  intros Hs Hl Hm. cbv zeta. unfold all_attributes_found in Hs.
  unfold renderCube.
  erewrite bind_run by apply add_gl_run.
  unfold bind at 1. cbn [lightingShader extend].
  destruct (lightingShader st "a_Position" <? 0)%Z; [done|].
  destruct (lightingShader st "a_Normal" <? 0)%Z; [done|].
  destruct (lightingShader st "a_Color" <? 0)%Z; [done|].
  erewrite bind_run by apply Stack_top_run.
  erewrite bind_run by apply new_multiply_run.
  erewrite bind_run by apply new_multiply_run.
  erewrite bind_run by apply add_gl_run.
  erewrite bind_run by apply add_gl_run.
  rewrite add_gl_run, !extend_extend.
  cbn [heap extend app length copy_of].
  rewrite !app_nil_r, <- !app_assoc, !length_app. cbn [app length].
  rewrite !(deref_app_l _ _ local), !(deref_app_l _ _ modelMatrix) by done.
  rewrite (deref_app_r _ _ 1), deref_app_r0. done.
Qed.


(** ** What a pass can change *)

Lemma pushes_app (c1 c2 : list call) :
  pushes (c1 ++ c2) = pushes c1 + pushes c2.
Proof. unfold pushes. by rewrite filter_app, length_app. Qed.

Lemma pops_app (c1 c2 : list call) : pops (c1 ++ c2) = pops c1 + pops c2.
Proof. unfold pops. by rewrite filter_app, length_app. Qed.

Lemma top_no_mismatch (s : Stack.stack) : mismatch_warning ∉ (Stack.top s).2.
Proof.
  unfold Stack.top. destruct (Stack.t s <=? 0)%Z; cbn; [|apply not_elem_of_nil].
  intros Hin. apply elem_of_cons in Hin as [?|Hin]; [done|].
  apply elem_of_cons in Hin as [?|Hin]; [done|].
  by apply not_elem_of_nil in Hin.
Qed.

Lemma pop_no_mismatch (s : Stack.stack) : mismatch_warning ∉ (Stack.pop s).2.
Proof.
  unfold Stack.pop. destruct (Stack.t s <=? 0)%Z; cbn; [|apply not_elem_of_nil].
  intros Hin. apply elem_of_cons in Hin as [?|Hin]; [done|].
  by apply not_elem_of_nil in Hin.
Qed.

Lemma effect_trans (n1 q1 n2 q2 : nat) (st1 st2 st3 : State Mat) :
  effect n1 q1 st1 st2 -> effect n2 q2 st2 st3 ->
  effect (n1 + n2) (q1 + q2) st1 st3.
Proof.
  intros (e1 & c1 & g1 & o1 & -> & <- & <- & Hw1)
         (e2 & c2 & g2 & o2 & -> & <- & <- & Hw2).
  exists (e1 ++ e2), (c1 ++ c2), (g1 ++ g2), (o1 ++ o2).
  rewrite extend_extend, pushes_app, pops_app, not_elem_of_app. done.
Qed.

Lemma Stack_push_effect (m : value) (s : Stack.stack) (st : State Mat) :
  effect 1 0 st (Stack_push m s st).2.
Proof.
  rewrite Stack_push_run. exists [], [CallPush m], [], [].
  repeat split; try done. apply not_elem_of_nil.
Qed.

Lemma Stack_pop_effect (s : Stack.stack) (st : State Mat) :
  effect 0 1 st (Stack_pop s st).2.
Proof.
  rewrite Stack_pop_run. eexists [], [CallPop _], [], _.
  repeat split; try done. apply pop_no_mismatch.
Qed.

Lemma push_composed_effect (j : loc) (s : Stack.stack) (st : State Mat) :
  effect 1 0 st (push_composed j s st).2.
Proof.
  rewrite push_composed_run. eexists [_], [CallTop _; CallPush _], [], _.
  repeat split; try done. apply top_no_mismatch.
Qed.

(** [renderCube], with or without its attributes, allocates and reports but
    neither pushes nor pops. *)
Lemma renderCube_effect (s : Stack.stack) (local : loc) (st : State Mat) :
  effect 0 0 st (renderCube s local st).2.
Proof.
  destruct (all_attributes_found (lightingShader st)) eqn:Hs.
  - unfold all_attributes_found in Hs. unfold renderCube.
    erewrite bind_run by apply add_gl_run.
    unfold bind at 1. cbn [lightingShader extend].
    destruct (lightingShader st "a_Position" <? 0)%Z; [done|].
    destruct (lightingShader st "a_Normal" <? 0)%Z; [done|].
    destruct (lightingShader st "a_Color" <? 0)%Z; [done|].
    erewrite bind_run by apply Stack_top_run.
    erewrite bind_run by apply new_multiply_run.
    erewrite bind_run by apply new_multiply_run.
    erewrite bind_run by apply add_gl_run.
    erewrite bind_run by apply add_gl_run.
    rewrite add_gl_run, !extend_extend.
    eexists (_ :: _ :: nil), [CallTop _], [_; _; _; _], (_ ++ []).
    split; [done|split; [done|split; [done|]]].
    rewrite app_nil_r. apply top_no_mismatch.
  - destruct (renderCube_run_failed s local st Hs) as [name ->].
    eexists [], [], [_], [_]. split; [done|]. split; [done|split; [done|]].
    intros Hin. apply list_elem_of_singleton in Hin. done.
Qed.

(** Sequencing, for a statement whose state change is known. *)
Lemma bind_step {A B : Type} (c : M Mat A) (k : A -> M Mat B) (st : State Mat) :
  bind c k st = k (c st).1 (c st).2.
Proof. unfold bind. by destruct (c st). Qed.

Lemma Stack_push_result (m : value) (s : Stack.stack) (st : State Mat) :
  (Stack_push m s st).1 = Stack.push m s.
Proof. done. Qed.

Lemma Stack_pop_result (s : Stack.stack) (st : State Mat) :
  (Stack_pop s st).1 = (Stack.pop s).1.2.
Proof. done. Qed.

Lemma push_composed_result (j : loc) (s : Stack.stack) (st : State Mat) :
  (push_composed j s st).1 = Stack.push (ref (length (heap st))) s.
Proof. by rewrite push_composed_run. Qed.

(** Runs the statements of a straight-line block one by one, naming the
    state after each and recording what it changed. *)
Ltac walk :=
  repeat match goal with
  | |- context [bind ?c ?k ?st] =>
      rewrite (bind_step c k st);
      let st' := fresh "st" in
      let E := fresh "E" in
      first
        [ pose proof (Stack_push_effect _ _ st : effect _ _ st (c st).2) as E
        | pose proof (Stack_pop_effect _ st : effect _ _ st (c st).2) as E
        | pose proof (push_composed_effect _ _ st : effect _ _ st (c st).2) as E
        | pose proof (renderCube_effect _ _ st : effect _ _ st (c st).2) as E ];
      set (st' := (c st).2) in *; clearbody st'
  end.

Ltac chain :=
  repeat match goal with
  | H1 : effect _ _ ?x ?y, H2 : effect _ _ ?y ?z |- _ =>
      let H3 := fresh "E" in
      pose proof (effect_trans _ _ _ _ _ _ _ H1 H2) as H3; clear H1 H2;
      cbn [Nat.add] in H3
  end.

(** The walk, whatever the shader and the heap: five pushes, five pops, an
    empty stack at the end, old objects untouched. *)
Lemma traverse_effect (st : State Mat) :
  effect 5 5 st (traverse Stack.new st).2
  /\ Stack.isEmpty (traverse Stack.new st).1 = true.
Proof.
  unfold traverse. walk. unfold ret. cbn [fst snd]. split.
  - chain. assumption.
  - rewrite !Stack_pop_result, !push_composed_result, !Stack_push_result.
    reflexivity.
Qed.

Lemma check_balance_run (s : Stack.stack) (st : State Mat) :
  check_balance s st
  = (tt, extend [] [CallIsEmpty (Stack.isEmpty s)] []
           (if Stack.isEmpty s then [] else [mismatch_warning]) st).
Proof.
  unfold check_balance.
  erewrite bind_run by apply Stack_isEmpty_run.
  destruct (Stack.isEmpty s); cbn.
  - done.
  - by rewrite log_run, extend_extend.
Qed.

Lemma draw_run (st : State Mat) :
  exists e c g o,
    draw st = (tt, extend e (c ++ [CallIsEmpty true]) g o st)
    /\ pushes c = 5 /\ pops c = 5 /\ (mismatch_warning ∉ o).
Proof.
  unfold draw. rewrite !bind_step. cbn [fst snd].
  destruct (traverse_effect (add_gl Clear st)) as [E Hs].
  rewrite check_balance_run, Hs.
  destruct E as (e & c & g & o & -> & Hu & Ho & Hw).
  exists e, c, (Clear :: g), o. split; [|done].
  unfold extend, add_gl. cbn.
  by rewrite !app_nil_r, <- !app_assoc.
Qed.

Lemma draw_effect (st : State Mat) : effect 5 5 st (draw st).2.
Proof.
  destruct (draw_run st) as (e & c & g & o & -> & Hu & Ho & Hw).
  exists e, (c ++ [CallIsEmpty true]), g, o.
  rewrite pushes_app, pops_app, Hu, Ho. done.
Qed.

(** What an [effect] leaves alone. *)
Lemma effect_frame (n q : nat) (st st' : State Mat) :
  effect n q st st' ->
  joint st' = joint st /\ rotDir st' = rotDir st /\ rotSpeed st' = rotSpeed st
  /\ rotAnim st' = rotAnim st /\ lightingShader st' = lightingShader st
  /\ length (heap st) <= length (heap st')
  /\ forall l, l < length (heap st) -> deref (heap st') l = deref (heap st) l.
Proof.
  intros (e & c & g & o & -> & _). cbn. repeat split.
  - rewrite length_app. lia.
  - intros l Hl. by apply deref_app_l.
Qed.

(** ** The walk in full, when the shader has its attributes *)

Lemma Stack_push_ext (m : value) (s : Stack.stack) E C G O (st : State Mat) :
  Stack_push m s (extend E C G O st)
  = (Stack.push m s, extend E (C ++ [CallPush m]) G O st).
Proof. by rewrite Stack_push_run, extend_extend, !app_nil_r. Qed.

Lemma Stack_pop_ext (s s' : Stack.stack) (v : value) E C G O (st : State Mat) :
  Stack.pop s = (v, s', []) ->
  Stack_pop s (extend E C G O st) = (s', extend E (C ++ [CallPop v]) G O st).
Proof.
  intros Hp. by rewrite Stack_pop_run, Hp, extend_extend, !app_nil_r.
Qed.

Lemma push_composed_ext (j l : loc) (s : Stack.stack) E C G O (st : State Mat) :
  j < length (heap st) -> Stack.top s = (ref l, []) ->
  push_composed j s (extend E C G O st)
  = (Stack.push (ref (length (heap st) + length E)) s,
     extend (E ++ [mul (deref (heap st ++ E) l) (deref (heap st) j)])
            (C ++ [CallTop (ref l);
                   CallPush (ref (length (heap st) + length E))])
            G O st).
Proof.
  intros Hj Ht. rewrite push_composed_run, Ht, extend_extend. cbn.
  rewrite !app_nil_r, length_app, <- app_assoc.
  by rewrite !(deref_app_l _ _ j) by done.
Qed.

Lemma renderCube_ext (l local : loc) (s : Stack.stack) E C G O
  (st : State Mat) :
  all_attributes_found (lightingShader st) = true ->
  local < length (heap st) -> modelMatrix < length (heap st) ->
  Stack.top s = (ref l, []) ->
  let world := mul (deref (heap st ++ E) l) (deref (heap st) local) in
  renderCube s local (extend E C G O st)
  = (tt, extend (E ++ [world; mul (deref (heap st) modelMatrix) world])
                (C ++ [CallTop (ref l)])
                (G ++ [UseProgram true;
                       UniformModel (mul (deref (heap st) modelMatrix) world);
                       DrawArrays 36; UseProgram false])
                O st).
Proof.
  intros Hs Hl Hm Ht. cbv zeta.
  rewrite renderCube_run_found; cbn [heap extend lightingShader];
    [|done|rewrite length_app; lia|rewrite length_app; lia].
  rewrite Ht, extend_extend. cbn.
  by rewrite !app_nil_r, !(deref_app_l _ _ local),
    !(deref_app_l _ _ modelMatrix) by done.
Qed.

Lemma deref_cons_0 (x : Mat) (e : list Mat) : deref (x :: e) 0 = x.
Proof. done. Qed.

Lemma deref_cons_S (x : Mat) (e : list Mat) (k : nat) :
  deref (x :: e) (S k) = deref e k.
Proof. done. Qed.

(** One statement of the walk, from a state in [extend] form; [Hg] bounds
    the addresses of the global matrices. *)
Ltac tidy :=
  cbn [app length];
  rewrite ?app_nil_r, ?deref_app_r, ?deref_cons_S, ?deref_cons_0;
  rewrite ?(deref_app_l _ _ turbineMatrix) by (unfold turbineMatrix; lia).

Ltac known Hg := solve [done | apply Hg; vm_compute; lia].

Ltac run_render Hg :=
  erewrite bind_run by (apply renderCube_ext; known Hg); tidy.

Ltac run_compose Hg :=
  erewrite bind_run by (apply push_composed_ext; known Hg); tidy.

Ltac run_pop := erewrite bind_run by (apply Stack_pop_ext; reflexivity).

Lemma traverse_found (st : State Mat) :
  allocated st -> all_attributes_found (lightingShader st) = true ->
  let n := length (heap st) in
  let model := deref (heap st) modelMatrix in
  let turbine := deref (heap st) turbineMatrix in
  let base := mul turbine (deref (heap st) baseMatrix) in
  let generator := mul turbine (deref (heap st) generatorMatrix) in
  let rotor := mul generator (deref (heap st) rotorMatrix) in
  let blade := mul rotor (deref (heap st) bladeMatrix) in
  let turbine_w := mul turbine (deref (heap st) turbineMatrixLocal) in
  let base_w := mul base (deref (heap st) baseMatrixLocal) in
  let generator_w := mul generator (deref (heap st) generatorMatrixLocal) in
  let rotor_w := mul rotor (deref (heap st) rotorMatrixLocal) in
  let blade_w := mul blade (deref (heap st) bladeMatrixLocal) in
  (traverse Stack.new st).2
  = extend
      [turbine_w; mul model turbine_w;
       base; base_w; mul model base_w;
       generator; generator_w; mul model generator_w;
       rotor; rotor_w; mul model rotor_w;
       blade; blade_w; mul model blade_w]
      [CallPush (ref turbineMatrix); CallTop (ref turbineMatrix);
       CallTop (ref turbineMatrix); CallPush (ref (n + 2));
       CallTop (ref (n + 2)); CallPop (ref (n + 2));
       CallTop (ref turbineMatrix); CallPush (ref (n + 5));
       CallTop (ref (n + 5));
       CallTop (ref (n + 5)); CallPush (ref (n + 8));
       CallTop (ref (n + 8));
       CallTop (ref (n + 8)); CallPush (ref (n + 11));
       CallTop (ref (n + 11));
       CallPop (ref (n + 11)); CallPop (ref (n + 8)); CallPop (ref (n + 5));
       CallPop (ref turbineMatrix)]
      [UseProgram true; UniformModel (mul model turbine_w); DrawArrays 36;
       UseProgram false;
       UseProgram true; UniformModel (mul model base_w); DrawArrays 36;
       UseProgram false;
       UseProgram true; UniformModel (mul model generator_w); DrawArrays 36;
       UseProgram false;
       UseProgram true; UniformModel (mul model rotor_w); DrawArrays 36;
       UseProgram false;
       UseProgram true; UniformModel (mul model blade_w); DrawArrays 36;
       UseProgram false]
      [] st.
Proof.
  unfold allocated. intros Ha Hs. cbv zeta.
  assert (Hg : forall l, l < 11 -> l < length (heap st)) by (intros; lia).
  rewrite <- (extend_nil st) at 1. unfold traverse.
  erewrite bind_run by apply Stack_push_ext.
  run_render Hg.
  run_compose Hg.
  run_render Hg.
  run_pop.
  run_compose Hg.
  run_render Hg.
  run_compose Hg.
  run_render Hg.
  run_compose Hg.
  run_render Hg.
  run_pop.
  run_pop.
  run_pop.
  run_pop.
  cbn [app ret snd]. reflexivity.
Qed.


(** ** Writes to the global matrices *)

Lemma update_run (f : Mat -> Mat) (l : loc) (st : State Mat) :
  Matrix4_update f l st
  = (l, set_heap (<[l := f (deref (heap st) l)]> (heap st)) st).
Proof. done. Qed.

(** ** rotate *)

Lemma rotate_paused (st : State Mat) :
  rotAnim st = false -> rotate st = (tt, st).
Proof. intros Hp. unfold rotate. by rewrite Hp. Qed.

Lemma set_heap_set_heap (h h' : list Mat) (st : State Mat) :
  set_heap h (set_heap h' st) = set_heap h st.
Proof. done. Qed.

Lemma new_run (v : value) (st : State Mat) :
  Matrix4_new v st
  = (length (heap st), set_heap (heap st ++ [copy_of (heap st) v]) st).
Proof. done. Qed.

(** A method call on the object allocated last. *)
Lemma update_last (f : Mat -> Mat) (h : list Mat) (x : Mat) (st : State Mat) :
  Matrix4_update f (length h) (set_heap (h ++ [x]) st)
  = (length h, set_heap (h ++ [f x]) st).
Proof.
  rewrite update_run. cbn [heap set_heap].
  by rewrite insert_last, deref_app_r0, set_heap_set_heap.
Qed.

(** The matrix [currentNoseRot] of [rotate]. *)
Lemma nose_run (r : Z) (st : State Mat) :
  (m <- Matrix4_new undefined;; m <- Matrix4_setTranslate 0 0 0 m;;
   m <- Matrix4_rotate r 0 0 1 m;; Matrix4_translate 0 0 0 m) st
  = (length (heap st),
     set_heap (heap st ++ [mul (mul (translation 0 0 0) (rotation r 0 0 1))
                               (translation 0 0 0)]) st).
Proof.
  erewrite bind_run by apply new_run.
  unfold Matrix4_setTranslate, Matrix4_rotate, Matrix4_translate.
  erewrite bind_run by apply update_last.
  erewrite bind_run by apply update_last.
  by rewrite update_last.
Qed.

Lemma rotate_running (st : State Mat) :
  rotAnim st = true ->
  let r := (rotor (joint st) + rotSpeed st * direction (rotDir st))%Z in
  let st' := (rotate st).2 in
  rotor (joint st') = r
  /\ turbine (joint st') = turbine (joint st)
  /\ base (joint st') = base (joint st)
  /\ generator (joint st') = generator (joint st)
  /\ blade (joint st') = blade (joint st)
  /\ rotDir st' = rotDir st /\ rotSpeed st' = rotSpeed st
  /\ rotAnim st' = rotAnim st /\ lightingShader st' = lightingShader st
  /\ (rotorMatrix < length (heap st) ->
      heap st'
      = <[rotorMatrix := rotor_transform r]> (heap st)
        ++ [mul (mul (translation 0 0 0) (rotation r 0 0 1))
                (translation 0 0 0)]).
Proof.
  intros Hr. cbv zeta. unfold rotate. rewrite Hr.
  assert (Er : (if rotDir st then (rotor (joint st) + rotSpeed st)%Z
                else (rotor (joint st) - rotSpeed st)%Z)
               = (rotor (joint st) + rotSpeed st * direction (rotDir st))%Z).
  { unfold direction. destruct (rotDir st); lia. }
  rewrite Er.
  set (r := (rotor (joint st) + rotSpeed st * direction (rotDir st))%Z).
  erewrite bind_run by reflexivity.
  erewrite bind_run by apply nose_run.
  unfold Matrix4_setTranslate. erewrite bind_run by apply update_run.
  unfold Matrix4_multiply. erewrite bind_run by apply update_run.
  unfold ret. cbn [snd heap set_heap set_joint joint rotor turbine base
    generator blade rotDir rotSpeed rotAnim lightingShader].
  repeat split; [done|]. intros Hl.
  assert (Hl' : rotorMatrix
                < length (heap st ++
                   [mul (mul (translation 0 0 0) (rotation r 0 0 1))
                        (translation 0 0 0)])).
  { rewrite length_app. lia. }
  rewrite deref_insert_eq by done.
  rewrite deref_insert_ne by lia.
  rewrite deref_app_r0, deref_cons_0, list_insert_insert_eq.
  by rewrite insert_app_l.
Qed.

(** ** The keys *)

Lemma handleKeyPress_bound (ch : string) (action : M Mat unit)
  (st : State Mat) :
  key_action ch = Some action ->
  (handleKeyPress ch st).2
  = (draw (action (add_console [[LStr ch]] st)).2).2.
Proof.
  intros Hk. unfold handleKeyPress. rewrite Hk, !bind_step. done.
Qed.

Lemma handleKeyPress_unbound (ch : string) (st : State Mat) :
  key_action ch = None ->
  (handleKeyPress ch st).2 = add_console [[LStr ch]] st.
Proof.
  intros Hk. unfold handleKeyPress. rewrite Hk, !bind_step. done.
Qed.

(** [joint.turbine += d; turbineMatrix.setTranslate(0,0,0).rotate(...)] *)
Lemma turn_turbine_run (d : Z) (st : State Mat) :
  (a <- add_turbine d;;
   m <- Matrix4_setTranslate 0 0 0 turbineMatrix;;
   Matrix4_rotate a 0 1 0 m;; ret tt) st
  = (tt,
     set_heap
       (<[turbineMatrix :=
            mul (deref (<[turbineMatrix := translation 0 0 0]> (heap st))
                       turbineMatrix)
                (rotation (turbine (joint st) + d) 0 1 0)]>
          (<[turbineMatrix := translation 0 0 0]> (heap st)))
       (set_joint
          {| turbine := turbine (joint st) + d; base := base (joint st);
             generator := generator (joint st); rotor := rotor (joint st);
             blade := blade (joint st); shoulder := shoulder (joint st);
             arm := arm (joint st); hand := hand (joint st) |} st)).
Proof.
  erewrite bind_run by reflexivity.
  unfold Matrix4_setTranslate, Matrix4_rotate.
  erewrite bind_run by apply update_run.
  erewrite bind_run by apply update_run.
  done.
Qed.

Lemma turn_generator_run (d : Z) (st : State Mat) :
  (a <- add_generator d;;
   m <- Matrix4_setTranslate 0 8 0 generatorMatrix;;
   Matrix4_rotate a 0 1 0 m;; ret tt) st
  = (tt,
     set_heap
       (<[generatorMatrix :=
            mul (deref (<[generatorMatrix := translation 0 8 0]> (heap st))
                       generatorMatrix)
                (rotation (generator (joint st) + d) 0 1 0)]>
          (<[generatorMatrix := translation 0 8 0]> (heap st)))
       (set_joint
          {| turbine := turbine (joint st); base := base (joint st);
             generator := generator (joint st) + d; rotor := rotor (joint st);
             blade := blade (joint st); shoulder := shoulder (joint st);
             arm := arm (joint st); hand := hand (joint st) |} st)).
Proof.
  erewrite bind_run by reflexivity.
  unfold Matrix4_setTranslate, Matrix4_rotate.
  erewrite bind_run by apply update_run.
  erewrite bind_run by apply update_run.
  done.
Qed.

Lemma scaleMoinho_run (f : Q) (st : State Mat) :
  let sc (l : loc) (h : list Mat) :=
    <[l := mul (deref h l) (scaling f f f)]> h in
  scaleMoinho f st
  = (tt, set_heap
           (sc bladeMatrixLocal (sc rotorMatrixLocal (sc generatorMatrixLocal
              (sc baseMatrixLocal (sc turbineMatrixLocal (heap st)))))) st).
Proof.
  cbv zeta. unfold scaleMoinho, Matrix4_scale.
  do 5 (erewrite bind_run by apply update_run).
  done.
Qed.

(** ** The initial state *)

Lemma initial_addresses (shader : string -> Z) :
  (declarations (boot (Mat := Mat) shader)).1
  = [turbineMatrix; baseMatrix; generatorMatrix; rotorMatrix; bladeMatrix;
     turbineMatrixLocal; baseMatrixLocal; generatorMatrixLocal;
     rotorMatrixLocal; bladeMatrixLocal; modelMatrix].
Proof. reflexivity. Qed.

Lemma initial_heap (shader : string -> Z) :
  heap (initial shader)
  = [mul (translation 0 0 0) (rotation 0 0 1 0);
     mul (translation 0 (-10) 0) (rotation 0 0 1 0);
     mul (translation 0 8 0) (rotation 0 0 1 0);
     mul (translation 0 0 3) (rotation 0 0 1 5);
     mul (translation 0 0 0) (rotation 0 0 1 0);
     scaling 2 20 2; scaling 5 1 5; scaling 3 3 5; scaling 1.2 1.2 1;
     scaling 20 0.8 0.8; identity].
Proof. reflexivity. Qed.

(** ** What every key leaves alone *)

Lemma key_action_frame (ch : string) (action : M Mat unit) (st : State Mat) :
  key_action ch = Some action ->
  allocated st ->
  let st' := (action st).2 in
  length (heap st') = length (heap st)
  /\ rotor (joint st') = rotor (joint st)
  /\ deref (heap st') rotorMatrix = deref (heap st) rotorMatrix
  /\ lightingShader st' = lightingShader st
  /\ ((1 <= rotSpeed st)%Z -> (1 <= rotSpeed st')%Z).
Proof.
  unfold allocated, key_action. intros Hk Ha. cbv zeta.
  repeat match type of Hk with
         | (if ?b then _ else _) = _ => destruct b
         end;
    try discriminate; injection Hk as <-.
  1,2: rewrite turn_turbine_run.
  3,4: rewrite turn_generator_run.
  11,12: rewrite scaleMoinho_run.
  all: cbn [snd heap set_heap set_joint set_rotDir set_rotSpeed joint rotor
            rotSpeed lightingShader].
  all: rewrite ?length_insert.
  all: rewrite ?deref_insert_ne by (vm_compute; lia).
  all: try (repeat split; (done || lia)).
  all: unfold changeRotSpeed, changeRotAnim; cbn.
  all: try (destruct (Z.ltb_spec (rotSpeed st + -1) 1); cbn;
            repeat split; (done || lia)).
  all: try (destruct (Z.ltb_spec (rotSpeed st + 1) 1); cbn;
            repeat split; (done || lia)).
Qed.

(** ** Invariants of the reachable states *)

Lemma animate_run (st : State Mat) : (animate st).2 = (draw (rotate st).2).2.
Proof. unfold animate. by rewrite bind_step. Qed.

Lemma draw_frame (st : State Mat) :
  joint (draw st).2 = joint st /\ rotDir (draw st).2 = rotDir st
  /\ rotSpeed (draw st).2 = rotSpeed st /\ rotAnim (draw st).2 = rotAnim st
  /\ lightingShader (draw st).2 = lightingShader st
  /\ length (heap st) <= length (heap (draw st).2)
  /\ forall l, l < length (heap st) ->
       deref (heap (draw st).2) l = deref (heap st) l.
Proof. exact (effect_frame _ _ _ _ (draw_effect st)). Qed.

Lemma reachable_allocated (st : State Mat) :
  reachable st -> allocated st /\ (1 <= rotSpeed st)%Z.
Proof.
  induction 1 as [shader|i st _ [Ha Hv]].
  - split; [|done]. unfold allocated. by rewrite initial_heap.
  - destruct (draw_frame (rotate st).2) as (_ & _ & Dv & _ & _ & Dl & _).
    destruct i as [ch|]; cbn [step].
    + destruct (key_action ch) as [action|] eqn:Hk.
      * rewrite (handleKeyPress_bound _ _ _ Hk).
        destruct (key_action_frame ch action (add_console [[LStr ch]] st) Hk Ha)
          as (Kl & _ & _ & _ & Kv).
        destruct (draw_frame (action (add_console [[LStr ch]] st)).2)
          as (_ & _ & Dv' & _ & _ & Dl' & _).
        unfold allocated in *. rewrite Dv'. split; [|by apply Kv].
        rewrite Kl in Dl'. cbn [heap add_console] in Dl'. lia.
      * by rewrite (handleKeyPress_unbound _ _ Hk).
    + rewrite animate_run, Dv. unfold allocated in *.
      destruct (rotAnim st) eqn:Hr.
      * destruct (rotate_running st Hr)
          as (_ & _ & _ & _ & _ & _ & Rv & _ & _ & Rh).
        rewrite Rv. split; [|done].
        rewrite Rh in Dl by (unfold rotorMatrix; lia).
        rewrite length_app, length_insert in Dl. lia.
      * rewrite rotate_paused in Dl |- * by done. cbn [snd] in *.
        split; [lia|done].
Qed.

Section Contract.

Context {laws : Matrix4Laws Mat}.

Lemma rotor_transform_zero : rotor_transform 0 = translation 0 0 3.
Proof.
  unfold rotor_transform.
  rewrite rotation_zero, translation_zero, !mul_identity_r; [done|].
  intros (_ & _ & Hz). done.
Qed.

(** [rotorMatrix] always holds the transform of the current rotor angle. *)
Lemma reachable_rotor (st : State Mat) :
  reachable st ->
  deref (heap st) rotorMatrix = rotor_transform (rotor (joint st)).
Proof.
  induction 1 as [shader|i st Hreach IH].
  - rewrite initial_heap. cbn. rewrite rotor_transform_zero.
    rewrite rotation_zero, mul_identity_r; [done|].
    intros (_ & Hy & _). done.
  - destruct (reachable_allocated st Hreach) as [Ha _].
    destruct i as [ch|]; cbn [step].
    + destruct (key_action ch) as [action|] eqn:Hk.
      * rewrite (handleKeyPress_bound _ _ _ Hk).
        destruct (key_action_frame ch action (add_console [[LStr ch]] st) Hk Ha)
          as (Kl & Kr & Km & _).
        destruct (draw_frame (action (add_console [[LStr ch]] st)).2)
          as (Dj & _ & _ & _ & _ & _ & Dm).
        rewrite Dj, Kr, Dm, Km; [done|].
        rewrite Kl. unfold allocated, rotorMatrix in *.
        cbn [heap add_console]. lia.
      * by rewrite (handleKeyPress_unbound _ _ Hk).
    + rewrite animate_run.
      destruct (draw_frame (rotate st).2) as (Dj & _ & _ & _ & _ & _ & Dm).
      rewrite Dj. unfold allocated in Ha.
      destruct (rotAnim st) eqn:Hr.
      * destruct (rotate_running st Hr)
          as (Rr & _ & _ & _ & _ & _ & _ & _ & _ & Rh).
        specialize (Rh ltac:(unfold rotorMatrix; lia)).
        rewrite Dm by (rewrite Rh, length_app, length_insert;
                       unfold rotorMatrix; lia).
        rewrite Rh, Rr, deref_app_l
          by (rewrite length_insert; unfold rotorMatrix; lia).
        apply deref_insert_eq. unfold rotorMatrix. lia.
      * rewrite rotate_paused in Dm |- * by done. cbn [snd] in *.
        rewrite Dm by (unfold rotorMatrix; lia). done.
Qed.

End Contract.

(** ** The render pass *)

Lemma draw_found (st : State Mat) :
  allocated st -> all_attributes_found (lightingShader st) = true ->
  let n := length (heap st) in
  let model := deref (heap st) modelMatrix in
  let turbine_f := deref (heap st) turbineMatrix in
  let base_f := mul turbine_f (deref (heap st) baseMatrix) in
  let generator_f := mul turbine_f (deref (heap st) generatorMatrix) in
  let rotor_f := mul generator_f (deref (heap st) rotorMatrix) in
  let blade_f := mul rotor_f (deref (heap st) bladeMatrix) in
  let turbine_w := mul turbine_f (deref (heap st) turbineMatrixLocal) in
  let base_w := mul base_f (deref (heap st) baseMatrixLocal) in
  let generator_w := mul generator_f (deref (heap st) generatorMatrixLocal) in
  let rotor_w := mul rotor_f (deref (heap st) rotorMatrixLocal) in
  let blade_w := mul blade_f (deref (heap st) bladeMatrixLocal) in
  (draw st).2
  = extend
      [turbine_w; mul model turbine_w;
       base_f; base_w; mul model base_w;
       generator_f; generator_w; mul model generator_w;
       rotor_f; rotor_w; mul model rotor_w;
       blade_f; blade_w; mul model blade_w]
      [CallPush (ref turbineMatrix); CallTop (ref turbineMatrix);
       CallTop (ref turbineMatrix); CallPush (ref (n + 2));
       CallTop (ref (n + 2)); CallPop (ref (n + 2));
       CallTop (ref turbineMatrix); CallPush (ref (n + 5));
       CallTop (ref (n + 5));
       CallTop (ref (n + 5)); CallPush (ref (n + 8));
       CallTop (ref (n + 8));
       CallTop (ref (n + 8)); CallPush (ref (n + 11));
       CallTop (ref (n + 11));
       CallPop (ref (n + 11)); CallPop (ref (n + 8)); CallPop (ref (n + 5));
       CallPop (ref turbineMatrix); CallIsEmpty true]
      [Clear;
       UseProgram true; UniformModel (mul model turbine_w); DrawArrays 36;
       UseProgram false;
       UseProgram true; UniformModel (mul model base_w); DrawArrays 36;
       UseProgram false;
       UseProgram true; UniformModel (mul model generator_w); DrawArrays 36;
       UseProgram false;
       UseProgram true; UniformModel (mul model rotor_w); DrawArrays 36;
       UseProgram false;
       UseProgram true; UniformModel (mul model blade_w); DrawArrays 36;
       UseProgram false]
      [] st.
Proof.
  intros Ha Hs. cbv zeta. unfold draw. rewrite !bind_step. cbn [fst snd].
  destruct (traverse_effect (add_gl Clear st)) as [_ He].
  rewrite check_balance_run, He. cbn [snd].
  rewrite (traverse_found (add_gl Clear st) Ha Hs), extend_extend.
  unfold extend, add_gl. cbn. by rewrite <- !app_assoc.
Qed.

Lemma renderCube_failed_ext (local : loc) (s : Stack.stack) E C G O
  (st : State Mat) :
  all_attributes_found (lightingShader st) = false ->
  exists name : string,
    renderCube s local (extend E C G O st)
    = (tt, extend E C (G ++ [UseProgram true])
             (O ++ [[LStr ("Failed to get the storage location of " ++ name)]])
             st).
Proof.
  intros Hs.
  destruct (renderCube_run_failed s local (extend E C G O st) Hs) as [name ->].
  exists name. by rewrite extend_extend, !app_nil_r.
Qed.

(** The pass when the shader lacks an attribute: the program is bound for
    each part and nothing is drawn, and the four composed matrices are the
    only objects made. *)
Lemma draw_not_found (st : State Mat) :
  allocated st -> all_attributes_found (lightingShader st) = false ->
  let n := length (heap st) in
  let turbine_f := deref (heap st) turbineMatrix in
  let base_f := mul turbine_f (deref (heap st) baseMatrix) in
  let generator_f := mul turbine_f (deref (heap st) generatorMatrix) in
  let rotor_f := mul generator_f (deref (heap st) rotorMatrix) in
  let blade_f := mul rotor_f (deref (heap st) bladeMatrix) in
  exists o,
    (draw st).2
    = extend
        [base_f; generator_f; rotor_f; blade_f]
        [CallPush (ref turbineMatrix);
         CallTop (ref turbineMatrix); CallPush (ref n);
         CallPop (ref n);
         CallTop (ref turbineMatrix); CallPush (ref (n + 1));
         CallTop (ref (n + 1)); CallPush (ref (n + 2));
         CallTop (ref (n + 2)); CallPush (ref (n + 3));
         CallPop (ref (n + 3)); CallPop (ref (n + 2)); CallPop (ref (n + 1));
         CallPop (ref turbineMatrix); CallIsEmpty true]
        (Clear :: repeat (UseProgram true) 5) o st.
Proof.
  unfold allocated. intros Ha Hs. cbv zeta.
  assert (Hg : forall l, l < 11 -> l < length (heap st)) by (intros; lia).
  unfold draw. rewrite !bind_step. cbn [fst snd].
  destruct (traverse_effect (add_gl Clear st)) as [_ He].
  rewrite check_balance_run, He. cbn [snd]. clear He.
  assert (E0 : add_gl Clear st = extend [] [] [Clear] [] st).
  { unfold add_gl, extend. by rewrite !app_nil_r. }
  rewrite E0. unfold traverse.
  erewrite bind_run by apply Stack_push_ext.
  edestruct renderCube_failed_ext as [name1 E1]; [exact Hs|].
  erewrite bind_run by apply E1. clear E1.
  run_compose Hg.
  edestruct renderCube_failed_ext as [name2 E2]; [exact Hs|].
  erewrite bind_run by apply E2. clear E2.
  run_pop.
  run_compose Hg.
  edestruct renderCube_failed_ext as [name3 E3]; [exact Hs|].
  erewrite bind_run by apply E3. clear E3.
  run_compose Hg.
  edestruct renderCube_failed_ext as [name4 E4]; [exact Hs|].
  erewrite bind_run by apply E4. clear E4.
  run_compose Hg.
  edestruct renderCube_failed_ext as [name5 E5]; [exact Hs|].
  erewrite bind_run by apply E5. clear E5.
  run_pop.
  run_pop.
  run_pop.
  run_pop.
  unfold ret. cbn [snd]. rewrite extend_extend. cbn [app].
  rewrite Nat.add_0_r.
  eexists. reflexivity.
Qed.

Lemma pass_calls_extend e c g o (st : State Mat) :
  (draw st).2 = extend e c g o st -> pass_calls st = c.
Proof.
  intros E. unfold pass_calls. rewrite E. cbn. apply drop_app_length.
Qed.

Lemma pass_console_extend e c g o (st : State Mat) :
  (draw st).2 = extend e c g o st -> pass_console st = o.
Proof.
  intros E. unfold pass_console. rewrite E. cbn. apply drop_app_length.
Qed.

Lemma pass_uniforms_extend e c g o (st : State Mat) :
  (draw st).2 = extend e c g o st -> pass_uniforms st = uniforms g.
Proof.
  intros E. unfold pass_uniforms. rewrite E. cbn. by rewrite drop_app_length.
Qed.

(** C1 (as amended). In a render pass started in a reachable state: the
    root part, the turbine, is pushed as the [turbineMatrix] object itself,
    on the empty stack, without a call of [top] and without a copy; each of
    the other four parts (base, generator, rotor, blade) pushes a new object
    holding the top of the stack times its joint matrix; each part is handed
    to [renderCube] right after its push and before its children, and popped
    after them; no object that existed before the pass is written. When the
    shader has its attributes, [renderCube] reads the top of the stack and
    the world transforms uploaded, in the order turbine, base, generator,
    rotor, blade, are [modelMatrix * (chain * local)], the chain being
    [turbineMatrix], [turbineMatrix * baseMatrix],
    [turbineMatrix * generatorMatrix],
    [(turbineMatrix * generatorMatrix) * rotorMatrix] and
    [((turbineMatrix * generatorMatrix) * rotorMatrix) * bladeMatrix];
    when it lacks one, [renderCube] returns before it uploads anything. *)
Theorem render_pass_composition (st : State Mat) :
  reachable st ->
  let h := heap st in
  let h' := heap (draw st).2 in
  let n := length h in
  let found := all_attributes_found (lightingShader st) in
  let k := if found then 2 else 0 in
  let base_a := n + k in
  let generator_a := base_a + 1 + k in
  let rotor_a := generator_a + 1 + k in
  let blade_a := rotor_a + 1 + k in
  let model := deref h modelMatrix in
  let turbine_f := deref h turbineMatrix in
  let base_f := mul turbine_f (deref h baseMatrix) in
  let generator_f := mul turbine_f (deref h generatorMatrix) in
  let rotor_f := mul generator_f (deref h rotorMatrix) in
  let blade_f := mul rotor_f (deref h bladeMatrix) in
  pass_calls st
  = [CallPush (ref turbineMatrix)] ++ rendered found (ref turbineMatrix)
    ++ [CallTop (ref turbineMatrix); CallPush (ref base_a)]
    ++ rendered found (ref base_a)
    ++ [CallPop (ref base_a);
        CallTop (ref turbineMatrix); CallPush (ref generator_a)]
    ++ rendered found (ref generator_a)
    ++ [CallTop (ref generator_a); CallPush (ref rotor_a)]
    ++ rendered found (ref rotor_a)
    ++ [CallTop (ref rotor_a); CallPush (ref blade_a)]
    ++ rendered found (ref blade_a)
    ++ [CallPop (ref blade_a); CallPop (ref rotor_a);
        CallPop (ref generator_a); CallPop (ref turbineMatrix);
        CallIsEmpty true]
  /\ pushed (pass_calls st)
     = [ref turbineMatrix; ref base_a; ref generator_a; ref rotor_a;
        ref blade_a]
  /\ turbineMatrix < n
  /\ deref h' base_a = base_f
  /\ deref h' generator_a = generator_f
  /\ deref h' rotor_a = rotor_f
  /\ deref h' blade_a = blade_f
  /\ (forall l : loc, l < n -> deref h' l = deref h l)
  /\ pass_uniforms st
     = if found
       then [mul model (mul turbine_f (deref h turbineMatrixLocal));
             mul model (mul base_f (deref h baseMatrixLocal));
             mul model (mul generator_f (deref h generatorMatrixLocal));
             mul model (mul rotor_f (deref h rotorMatrixLocal));
             mul model (mul blade_f (deref h bladeMatrixLocal))]
       else [].
Proof.
  intros Hr. cbv zeta.
  destruct (reachable_allocated st Hr) as [Ha _].
  assert (Ht : turbineMatrix < length (heap st))
    by (unfold allocated, turbineMatrix in *; lia).
  destruct (all_attributes_found (lightingShader st)) eqn:Hs.
  - pose proof (draw_found st Ha Hs) as E. cbv zeta in E.
    rewrite (pass_calls_extend _ _ _ _ _ E), (pass_uniforms_extend _ _ _ _ _ E).
    rewrite E. cbn [heap extend rendered app].
    replace (length (heap st) + 2 + 1 + 2) with (length (heap st) + 5) by lia.
    replace (length (heap st) + 5 + 1 + 2) with (length (heap st) + 8) by lia.
    replace (length (heap st) + 8 + 1 + 2) with (length (heap st) + 11) by lia.
    repeat split; try done.
    + by rewrite (deref_app_r _ _ 2).
    + by rewrite (deref_app_r _ _ 5).
    + by rewrite (deref_app_r _ _ 8).
    + by rewrite (deref_app_r _ _ 11).
    + intros l Hl. by apply deref_app_l.
  - destruct (draw_not_found st Ha Hs) as [o E]. cbv zeta in E.
    rewrite (pass_calls_extend _ _ _ _ _ E), (pass_uniforms_extend _ _ _ _ _ E).
    rewrite E. cbn [heap extend rendered app].
    replace (length (heap st) + 0) with (length (heap st)) by lia.
    replace (length (heap st) + 1 + 0) with (length (heap st) + 1) by lia.
    replace (length (heap st) + 1 + 1 + 0) with (length (heap st) + 2) by lia.
    replace (length (heap st) + 2 + 1 + 0) with (length (heap st) + 3) by lia.
    repeat split; try done.
    + by rewrite deref_app_r0.
    + by rewrite (deref_app_r _ _ 1).
    + by rewrite (deref_app_r _ _ 2).
    + by rewrite (deref_app_r _ _ 3).
    + intros l Hl. by apply deref_app_l.
Qed.

(** ** The stack of a pass against a last-in-first-out store *)

Lemma value_eqb_refl (v : value) : value_eqb v v = true.
Proof. destruct v; cbn; [done|apply Nat.eqb_refl]. Qed.

Lemma replay_app (c1 c2 : list call) (held : list value) :
  replay held (c1 ++ c2) = replay held c1 ≫= fun held' => replay held' c2.
Proof.
  revert held. induction c1 as [|a c1 IH]; intros held; [done|].
  destruct a as [m|r|r|r]; cbn.
  - apply IH.
  - destruct held as [|x held]; [done|].
    destruct (value_eqb r x); [apply IH|done].
  - destruct held as [|x held]; [done|].
    destruct (value_eqb r x); [apply IH|done].
  - destruct (Bool.eqb r _); [apply IH|done].
Qed.

Lemma holds_new : holds [] Stack.new.
Proof. split; [done|]. intros i x Hi. done. Qed.

Lemma holds_push (m : value) (held : list value) (s : Stack.stack) :
  holds held s -> holds (m :: held) (Stack.push m s).
Proof.
  intros [Ht Hg]. split; [cbn [Stack.push Stack.t length]; lia|].
  intros i x Hi. cbn [rev] in Hi. unfold Stack.push, Stack.get. cbn.
  rewrite Ht. apply lookup_app_Some in Hi as [Hi|[Hl Hi]].
  - pose proof (lookup_lt_Some _ _ _ Hi) as Hlt. rewrite length_rev in Hlt.
    rewrite lookup_insert_ne by lia. by apply Hg.
  - rewrite length_rev in Hl, Hi.
    apply list_lookup_singleton_Some in Hi as [Hi <-].
    replace (Z.of_nat i) with (Z.of_nat (length held)) by lia.
    by rewrite lookup_insert_eq.
Qed.

Lemma holds_top_slot (x : value) (held : list value) (s : Stack.stack) :
  holds (x :: held) s ->
  (Stack.t s <=? 0)%Z = false
  /\ Stack.get (Stack.elements s) (Stack.t s - 1) = x.
Proof.
  intros [Ht Hg]. cbn [length] in Ht. split; [lia|].
  replace (Stack.t s - 1)%Z with (Z.of_nat (length held)) by lia.
  apply Hg. cbn [rev]. rewrite lookup_app_r by (rewrite length_rev; lia).
  by rewrite length_rev, Nat.sub_diag.
Qed.

Lemma holds_top (x : value) (held : list value) (s : Stack.stack) :
  holds (x :: held) s -> Stack.top s = (x, []).
Proof.
  intros Hh. destruct (holds_top_slot x held s Hh) as [Hz Hx].
  unfold Stack.top. by rewrite Hz, Hx.
Qed.

Lemma holds_pop (x : value) (held : list value) (s : Stack.stack) :
  holds (x :: held) s ->
  (Stack.pop s).1.1 = x /\ (Stack.pop s).2 = []
  /\ holds held (Stack.pop s).1.2.
Proof.
  intros Hh. destruct (holds_top_slot x held s Hh) as [Hz Hx].
  destruct Hh as [Ht Hg]. cbn [length] in Ht.
  unfold Stack.pop. rewrite Hz. cbn [fst snd]. split; [done|]. split; [done|].
  split; [cbn [Stack.t]; lia|].
  intros i y Hi. cbn [Stack.elements]. unfold Stack.get.
  pose proof (lookup_lt_Some _ _ _ Hi) as Hlt. rewrite length_rev in Hlt.
  rewrite lookup_insert_ne by lia. apply Hg. cbn [rev].
  by apply lookup_app_l_Some.
Qed.

Lemma holds_isEmpty (held : list value) (s : Stack.stack) :
  holds held s ->
  Stack.isEmpty s = match held with [] => true | _ :: _ => false end.
Proof.
  intros [Ht _]. unfold Stack.isEmpty.
  destruct held; cbn [length] in Ht; lia.
Qed.

Lemma follows_refl (held : list value) (st : State Mat) :
  follows held held st st.
Proof.
  exists [], [], [], []. rewrite extend_nil. split; [done|]. split; [done|].
  apply not_elem_of_nil.
Qed.

Lemma follows_trans (h1 h2 h3 : list value) (st1 st2 st3 : State Mat) :
  follows h1 h2 st1 st2 -> follows h2 h3 st2 st3 -> follows h1 h3 st1 st3.
Proof.
  intros (e1 & c1 & g1 & o1 & -> & R1 & Hw1)
         (e2 & c2 & g2 & o2 & -> & R2 & Hw2).
  exists (e1 ++ e2), (c1 ++ c2), (g1 ++ g2), (o1 ++ o2).
  rewrite extend_extend, replay_app, R1, not_elem_of_app. done.
Qed.

(** Sequencing: a statement that keeps to the store, then the rest. *)
Lemma follows_bind {A B : Type} (c : M Mat A) (k : A -> M Mat B)
  (P : A -> Prop) (Q : B -> Prop) (h1 h2 h3 : list value) (st : State Mat) :
  follows h1 h2 st (c st).2 /\ P (c st).1 ->
  (forall (a : A) (st' : State Mat),
     P a -> follows h2 h3 st' (k a st').2 /\ Q (k a st').1) ->
  follows h1 h3 st (bind c k st).2 /\ Q (bind c k st).1.
Proof.
  intros [F1 Hp] Hk. rewrite bind_step.
  destruct (Hk (c st).1 (c st).2 Hp) as [F2 Hq].
  split; [exact (follows_trans _ _ _ _ _ _ F1 F2)|exact Hq].
Qed.

Lemma follows_seq {A B : Type} (c : M Mat A) (k : A -> M Mat B)
  (Q : B -> Prop) (h1 h2 h3 : list value) (st : State Mat) :
  follows h1 h2 st (c st).2 ->
  (forall (a : A) (st' : State Mat),
     follows h2 h3 st' (k a st').2 /\ Q (k a st').1) ->
  follows h1 h3 st (bind c k st).2 /\ Q (bind c k st).1.
Proof.
  intros F1 Hk.
  apply (follows_bind c k (fun _ => True) Q h1 h2 h3); [done|].
  intros a st' _. apply Hk.
Qed.

Lemma Stack_push_follows (m : value) (held : list value) (s : Stack.stack)
  (st : State Mat) :
  holds held s ->
  follows held (m :: held) st (Stack_push m s st).2
  /\ holds (m :: held) (Stack_push m s st).1.
Proof.
  intros Hh. rewrite Stack_push_run. cbn [fst snd]. split.
  - exists [], [CallPush m], [], []. split; [done|]. split; [done|].
    apply not_elem_of_nil.
  - by apply holds_push.
Qed.

Lemma Stack_top_follows (x : value) (held : list value) (s : Stack.stack)
  (st : State Mat) :
  holds (x :: held) s ->
  Stack_top s st = (x, extend [] [CallTop x] [] [] st).
Proof. intros Hh. by rewrite Stack_top_run, (holds_top x held s Hh). Qed.

Lemma push_composed_follows (j : loc) (x : value) (held : list value)
  (s : Stack.stack) (st : State Mat) :
  holds (x :: held) s ->
  follows (x :: held) (ref (length (heap st)) :: x :: held) st
    (push_composed j s st).2
  /\ holds (ref (length (heap st)) :: x :: held) (push_composed j s st).1.
Proof.
  intros Hh. rewrite push_composed_run, (holds_top x held s Hh).
  cbn [fst snd]. split.
  - eexists [_], [CallTop x; CallPush _], [], []. split; [done|].
    split; [|apply not_elem_of_nil].
    cbn. by rewrite value_eqb_refl.
  - by apply holds_push.
Qed.

Lemma Stack_pop_follows (x : value) (held : list value) (s : Stack.stack)
  (st : State Mat) :
  holds (x :: held) s ->
  follows (x :: held) held st (Stack_pop s st).2
  /\ holds held (Stack_pop s st).1.
Proof.
  intros Hh. destruct (holds_pop x held s Hh) as (Hx & Ho & Hs).
  rewrite Stack_pop_run, Hx, Ho. cbn [fst snd]. split; [|done].
  exists [], [CallPop x], [], []. split; [done|].
  split; [|apply not_elem_of_nil].
  cbn. by rewrite value_eqb_refl.
Qed.

(** [renderCube] reads the top of the stack at most, with or without its
    attributes. *)
Lemma renderCube_follows (local : loc) (x : value) (held : list value)
  (s : Stack.stack) (st : State Mat) :
  holds (x :: held) s ->
  follows (x :: held) (x :: held) st (renderCube s local st).2.
Proof.
  intros Hh.
  destruct (all_attributes_found (lightingShader st)) eqn:Hs.
  - unfold all_attributes_found in Hs. unfold renderCube.
    erewrite bind_run by apply add_gl_run.
    unfold bind at 1. cbn [lightingShader extend].
    destruct (lightingShader st "a_Position" <? 0)%Z; [done|].
    destruct (lightingShader st "a_Normal" <? 0)%Z; [done|].
    destruct (lightingShader st "a_Color" <? 0)%Z; [done|].
    erewrite bind_run by apply (Stack_top_follows x held s _ Hh).
    erewrite bind_run by apply new_multiply_run.
    erewrite bind_run by apply new_multiply_run.
    erewrite bind_run by apply add_gl_run.
    erewrite bind_run by apply add_gl_run.
    rewrite add_gl_run, !extend_extend.
    eexists (_ :: _ :: nil), [CallTop x], [_; _; _; _], [].
    split; [done|]. split; [|apply not_elem_of_nil].
    cbn. by rewrite value_eqb_refl.
  - destruct (renderCube_run_failed s local st Hs) as [name ->].
    eexists [], [], [_], [_]. split; [done|]. split; [done|].
    intros Hin. apply list_elem_of_singleton in Hin. done.
Qed.

(** The walk keeps to a last-in-first-out store from its first push to its
    last pop, whatever the shader and the heap, and leaves nothing on it. *)
Lemma traverse_follows (s : Stack.stack) (st : State Mat) :
  holds [] s ->
  follows [] [] st (traverse s st).2 /\ holds [] (traverse s st).1.
Proof.
  intros Hh. unfold traverse.
  eapply follows_bind; [by apply Stack_push_follows|]. clear s Hh.
  intros s st1 Hh.
  eapply follows_seq; [by eapply renderCube_follows|]. intros _ st2.
  eapply follows_bind; [by apply push_composed_follows|]. clear s Hh.
  intros s st3 Hh.
  eapply follows_seq; [by eapply renderCube_follows|]. intros _ st4.
  eapply follows_bind; [by apply Stack_pop_follows|]. clear s Hh.
  intros s st5 Hh.
  eapply follows_bind; [by apply push_composed_follows|]. clear s Hh.
  intros s st6 Hh.
  eapply follows_seq; [by eapply renderCube_follows|]. intros _ st7.
  eapply follows_bind; [by apply push_composed_follows|]. clear s Hh.
  intros s st8 Hh.
  eapply follows_seq; [by eapply renderCube_follows|]. intros _ st9.
  eapply follows_bind; [by apply push_composed_follows|]. clear s Hh.
  intros s st10 Hh.
  eapply follows_seq; [by eapply renderCube_follows|]. intros _ st11.
  eapply follows_bind; [by apply Stack_pop_follows|]. clear s Hh.
  intros s st12 Hh.
  eapply follows_bind; [by apply Stack_pop_follows|]. clear s Hh.
  intros s st13 Hh.
  eapply follows_bind; [by apply Stack_pop_follows|]. clear s Hh.
  intros s st14 Hh.
  eapply follows_bind; [by apply Stack_pop_follows|]. clear s Hh.
  intros s st15 Hh.
  unfold ret. cbn [fst snd]. split; [apply follows_refl|done].
Qed.

(** The whole pass: the walk and the check that ends it. *)
Lemma draw_follows (st : State Mat) :
  follows [] [] st (draw st).2 /\ holds [] (pass_stack st).
Proof.
  unfold pass_stack.
  destruct (traverse_follows Stack.new (add_gl Clear st) holds_new) as [F Hh].
  split; [|done].
  unfold draw. rewrite !bind_step. cbn [fst snd].
  rewrite check_balance_run, (holds_isEmpty [] _ Hh).
  destruct F as (e & c & g & o & -> & R & Hw).
  exists e, (c ++ [CallIsEmpty true]), (Clear :: g), o.
  split; [|split; [by rewrite replay_app, R|done]].
  unfold extend, add_gl. cbn. by rewrite !app_nil_r, <- !app_assoc.
Qed.

Lemma exec_all_depth (ops : list Stack.op) :
  forall (s : Stack.stack) (d : nat),
    Stack.t s = Z.of_nat d ->
    Stack.t (exec_all ops s)
    = Z.of_nat
        (fold_left
           (fun d o =>
              match o with
              | Stack.Push _ => S d
              | Stack.Pop => Nat.pred d
              | Stack.Top | Stack.IsEmpty => d
              end) ops d).
Proof.
  induction ops as [|o ops IH]; intros s d Hd; [done|].
  cbn [exec_all fold_left]. apply IH. destruct o; cbn; try done.
  - lia.
  - unfold Stack.pop. destruct (Z.leb_spec (Stack.t s) 0); cbn; lia.
Qed.

Lemma push_all_t (ms : list value) (s : Stack.stack) :
  Stack.t (push_all ms s) = (Stack.t s + Z.of_nat (length ms))%Z.
Proof.
  revert s. induction ms as [|m ms IH]; intros s; cbn; [lia|].
  unfold push_all in IH. rewrite IH. cbn. lia.
Qed.

(** The first call of the walk is the push of the root. *)
Lemma traverse_first_call (st : State Mat) :
  exists e c g o,
    (traverse Stack.new st).2
    = extend e (CallPush (ref turbineMatrix) :: c) g o st.
Proof.
  unfold traverse.
  rewrite (bind_step (Stack_push (ref turbineMatrix) Stack.new)).
  rewrite Stack_push_run. cbn [fst snd].
  walk. unfold ret. cbn [snd]. chain.
  match goal with
  | E : effect _ _ _ _ |- _ => destruct E as (e & c & g & o & -> & _)
  end.
  rewrite extend_extend. by exists ([] ++ e), c, ([] ++ g), ([] ++ o).
Qed.

Lemma draw_first_call (st : State Mat) :
  head (pass_calls st) = Some (CallPush (ref turbineMatrix)).
Proof.
  destruct (traverse_first_call (add_gl Clear st)) as (e & c & g & o & E).
  assert (E' : (draw st).2
               = extend e (CallPush (ref turbineMatrix) :: c
                           ++ [CallIsEmpty (Stack.isEmpty (pass_stack st))])
                   (Clear :: g)
                   (o ++ (if Stack.isEmpty (pass_stack st)
                          then [] else [mismatch_warning])) st).
  { unfold draw, pass_stack. rewrite !bind_step. cbn [fst snd].
    rewrite check_balance_run, E. unfold extend, add_gl. cbn.
    by rewrite !app_nil_r, <- !app_assoc. }
  by rewrite (pass_calls_extend _ _ _ _ _ E').
Qed.

(** C2. A render pass, from any state. The stack is new when the walk
    starts, its pointer [t] at 0, and the pass is the walk on that stack
    followed by the check of the stack the walk leaves; the first call on
    the stack is the push of the root. The walk makes
    exactly five pushes and five pops, a push and a pop for each of the five
    parts. The calls of the pass are those of a last-in-first-out store that
    holds nothing at the start and nothing at the end: no [top] and no [pop]
    is made on an empty stack (no underflow warning is printed), each
    returns the matrix that is on top, and the [isEmpty] that ends the pass
    answers [true]. The stack the check is given has its pointer back at 0,
    and the check prints no warning. The check detects a stack that is not
    empty: after any sequence of method calls on a new stack the pointer [t]
    is the number of pushes left unmatched, and the check prints the warning
    exactly when that number is not zero; so it prints it had the walk left
    any matrix on its stack. *)
Theorem render_pass_balanced (st : State Mat) :
  Stack.t Stack.new = 0%Z
  /\ Stack.isEmpty Stack.new = true
  /\ draw st
     = check_balance (pass_stack st) (traverse Stack.new (add_gl Clear st)).2
  /\ head (pass_calls st) = Some (CallPush (ref turbineMatrix))
  /\ pushes (pass_calls st) = 5
  /\ pops (pass_calls st) = 5
  /\ replay [] (pass_calls st) = Some []
  /\ (underflow_warning ∉ pass_console st)
  /\ Stack.t (pass_stack st) = 0%Z
  /\ Stack.isEmpty (pass_stack st) = true
  /\ last (pass_calls st) = Some (CallIsEmpty true)
  /\ (mismatch_warning ∉ pass_console st)
  /\ (forall (ops : list Stack.op) (st' : State Mat),
        Stack.t (exec_all ops Stack.new) = Z.of_nat (unmatched ops)
        /\ check_balance (exec_all ops Stack.new) st'
           = (tt, extend [] [CallIsEmpty (Nat.eqb (unmatched ops) 0)] []
                    (if Nat.eqb (unmatched ops) 0
                     then [] else [mismatch_warning]) st'))
  /\ (forall (ms : list value) (st' : State Mat),
        ms <> [] ->
        console (check_balance (push_all ms (pass_stack st)) st').2
        = console st' ++ [mismatch_warning]).
Proof.
  destruct (draw_run st) as (e & c & g & o & E & Hu & Ho & Hw).
  apply (f_equal snd) in E. cbn [snd] in E.
  destruct (draw_follows st) as [(e' & c' & g' & o' & E' & R & Hf) [Ht _]].
  cbn [length] in Ht.
  split; [done|]. split; [done|].
  split; [unfold draw, pass_stack; by rewrite !bind_step|].
  split; [apply draw_first_call|].
  split; [by rewrite (pass_calls_extend _ _ _ _ _ E), pushes_app, Hu|].
  split; [by rewrite (pass_calls_extend _ _ _ _ _ E), pops_app, Ho|].
  split; [by rewrite (pass_calls_extend _ _ _ _ _ E')|].
  split; [by rewrite (pass_console_extend _ _ _ _ _ E')|].
  split; [exact Ht|].
  split; [unfold Stack.isEmpty; by rewrite Ht|].
  split; [by rewrite (pass_calls_extend _ _ _ _ _ E), last_snoc|].
  split; [by rewrite (pass_console_extend _ _ _ _ _ E)|].
  split.
  - intros ops st'.
    pose proof (exec_all_depth ops Stack.new 0 eq_refl) as Hd.
    fold (unmatched ops) in Hd. split; [exact Hd|].
    rewrite check_balance_run. unfold Stack.isEmpty. rewrite Hd.
    by destruct (unmatched ops).
  - intros ms st' Hms. rewrite check_balance_run. unfold Stack.isEmpty.
    rewrite push_all_t, Ht. cbn [console extend].
    destruct ms as [|m ms]; [done|]. cbn [length].
    by destruct (Z.leb_spec (0 + Z.of_nat (S (length ms))) 0); [lia|].
Qed.

(** ** The stack discipline *)

(** C3. The stack is a LIFO. On any stack a [Stack] object can hold: after
    [push(m)], [top()] returns [m] and writes nothing; [pop()] then returns
    [m], brings the depth back and makes [top()] answer what it answered
    before the push; [isEmpty()] is true exactly at depth zero, in
    particular after any balanced sequence of calls on a fresh stack. The
    composing push of [draw] allocates a new object for the product and
    leaves the object that was on top as it was. *)
Theorem stack_lifo (s : Stack.stack) (m : value) :
  Stack.reachable s ->
  let s1 := Stack.push m s in
  Stack.top s1 = (m, [])
  /\ Stack.exec Stack.Top s1 = s1
  /\ Stack.t s1 = (Stack.t s + 1)%Z
  /\ (Stack.pop s1).1.1 = m
  /\ (Stack.pop s1).2 = []
  /\ Stack.t (Stack.pop s1).1.2 = Stack.t s
  /\ Stack.top (Stack.pop s1).1.2 = Stack.top s
  /\ (Stack.isEmpty s = true <-> Stack.t s = 0%Z)
  /\ (forall ops : list Stack.op,
        Stack.balanced 0 ops = true ->
        Stack.isEmpty (fold_left (fun s o => Stack.exec o s) ops Stack.new)
        = true)
  /\ (forall (jointMatrix l : loc) (st : State Mat),
        (Stack.top s).1 = ref l -> l < length (heap st) ->
        let r := push_composed jointMatrix s st in
        (Stack.top r.1).1 = ref (length (heap st))
        /\ length (heap st) <> l
        /\ deref (heap r.2) l = deref (heap st) l
        /\ Stack.top (Stack.pop r.1).1.2 = Stack.top s).
Proof.
  intros Hr. pose proof (stack_reachable_depth s Hr) as Ht. cbv zeta.
  rewrite stack_top_push, stack_top_pop_push, stack_pop_push by done.
  repeat split; try done.
  - unfold Stack.isEmpty. intros Hz. apply Z.leb_le in Hz. lia.
  - unfold Stack.isEmpty. intros ->. done.
  - intros ops Hb. unfold Stack.isEmpty.
    rewrite (stack_balanced_depth ops 0 Stack.new); done.
  - rewrite push_composed_result. by rewrite stack_top_push.
  - lia.
  - rewrite push_composed_run. cbn [snd heap extend]. by apply deref_app_l.
  - rewrite push_composed_result. by apply stack_top_pop_push.
Qed.

(** C4. On an empty stack [top()] and [pop()] do not fail: each prints the
    underflow warning, returns [undefined] and leaves the stack pointer and
    the stored elements as they were; inside a render pass nothing but the
    console and the record of calls changes. *)
Theorem stack_underflow (s : Stack.stack) (st : State Mat) :
  Stack.isEmpty s = true ->
  Stack.top s
  = (undefined,
     [[LStr "top = "; LNum (Stack.t s)]; [LStr "Warning: stack underflow"]])
  /\ Stack.pop s = (undefined, s, [[LStr "Warning: stack underflow"]])
  /\ Stack.exec Stack.Top s = s
  /\ Stack.exec Stack.Pop s = s
  /\ Stack_top s st
     = (undefined,
        extend [] [CallTop undefined] []
          [[LStr "top = "; LNum (Stack.t s)]; [LStr "Warning: stack underflow"]]
          st)
  /\ Stack_pop s st
     = (s, extend [] [CallPop undefined] []
             [[LStr "Warning: stack underflow"]] st).
Proof.
  unfold Stack.isEmpty. intros He.
  assert (Etop : Stack.top s
                 = (undefined,
                    [[LStr "top = "; LNum (Stack.t s)];
                     [LStr "Warning: stack underflow"]])).
  { unfold Stack.top. by rewrite He. }
  assert (Epop : Stack.pop s
                 = (undefined, s, [[LStr "Warning: stack underflow"]])).
  { unfold Stack.pop. by rewrite He. }
  rewrite Stack_top_run, Stack_pop_run, Etop, Epop. cbn [Stack.exec].
  by rewrite Epop.
Qed.

(** ** The animation *)

(** A tick while the animation runs. *)
Lemma tick_running (st : State Mat) :
  rotAnim st = true ->
  let st' := step AnimationFrame st in
  rotor (joint st')
  = (rotor (joint st) + rotSpeed st * direction (rotDir st))%Z
  /\ rotDir st' = rotDir st /\ rotSpeed st' = rotSpeed st
  /\ rotAnim st' = true.
Proof.
  intros Hr. cbv zeta. cbn [step]. rewrite animate_run.
  destruct (draw_frame (rotate st).2) as (-> & -> & -> & -> & _).
  destruct (rotate_running st Hr)
    as (-> & _ & _ & _ & _ & -> & -> & -> & _).
  done.
Qed.

(** A tick while it is paused. *)
Lemma tick_paused (st : State Mat) :
  rotAnim st = false ->
  let st' := step AnimationFrame st in
  joint st' = joint st /\ rotDir st' = rotDir st
  /\ rotSpeed st' = rotSpeed st /\ rotAnim st' = false
  /\ length (heap st) <= length (heap st')
  /\ forall l, l < length (heap st) -> deref (heap st') l = deref (heap st) l.
Proof.
  intros Hp. cbv zeta. cbn [step]. rewrite animate_run, rotate_paused by done.
  cbn [snd].
  destruct (draw_frame st) as (-> & -> & -> & -> & _ & Hl & Hm).
  done.
Qed.

Lemma ticks_paused (n : nat) (st : State Mat) :
  rotAnim st = false ->
  let st' := run (repeat AnimationFrame n) st in
  joint st' = joint st /\ rotDir st' = rotDir st
  /\ rotSpeed st' = rotSpeed st /\ rotAnim st' = false
  /\ length (heap st) <= length (heap st')
  /\ forall l, l < length (heap st) -> deref (heap st') l = deref (heap st) l.
Proof.
  revert st. induction n as [|n IH]; intros st Hp; cbv zeta.
  - cbn. done.
  - cbn [repeat run fold_left].
    destruct (tick_paused st Hp) as (Tj & Td & Tv & Ta & Tl & Tm).
    destruct (IH (step AnimationFrame st) Ta) as (Ij & Id & Iv & Ia & Il & Im).
    unfold run in *. rewrite Ij, Id, Iv, Ia, Tj, Td, Tv.
    repeat split; [lia|].
    intros l Hl. rewrite Im by lia. by apply Tm.
Qed.

(** The keys that do not touch the matrices. *)
Lemma key_flag (ch : string) (f : State Mat -> State Mat) (st : State Mat) :
  key_action ch = Some (fun st => (tt, f st)) ->
  (forall st, heap (f st) = heap st /\ joint (f st) = joint st) ->
  let st' := step (KeyDown ch) st in
  joint st' = joint st
  /\ rotDir st' = rotDir (f (add_console [[LStr ch]] st))
  /\ rotSpeed st' = rotSpeed (f (add_console [[LStr ch]] st))
  /\ rotAnim st' = rotAnim (f (add_console [[LStr ch]] st))
  /\ length (heap st) <= length (heap st')
  /\ forall l, l < length (heap st) -> deref (heap st') l = deref (heap st) l.
Proof.
  intros Hk Hf. cbv zeta. cbn [step].
  rewrite (handleKeyPress_bound _ _ _ Hk). cbn [snd].
  destruct (draw_frame (f (add_console [[LStr ch]] st)))
    as (-> & -> & -> & -> & _ & Hl & Hm).
  destruct (Hf (add_console [[LStr ch]] st)) as [Eh Ej].
  rewrite Eh in Hl, Hm. rewrite Ej. cbn [heap joint add_console] in *.
  repeat split; done.
Qed.

Lemma key_r (st : State Mat) :
  let st' := step (KeyDown "r") st in
  joint st' = joint st /\ rotDir st' = false /\ rotSpeed st' = rotSpeed st
  /\ rotAnim st' = rotAnim st.
Proof.
  destruct (key_flag "r" (set_rotDir false) st) as (? & ? & ? & ? & _); done.
Qed.

Lemma key_R (st : State Mat) :
  let st' := step (KeyDown "R") st in
  joint st' = joint st /\ rotDir st' = true /\ rotSpeed st' = rotSpeed st
  /\ rotAnim st' = rotAnim st.
Proof.
  destruct (key_flag "R" (set_rotDir true) st) as (? & ? & ? & ? & _); done.
Qed.

Lemma key_space (st : State Mat) :
  let st' := step (KeyDown " ") st in
  joint st' = joint st /\ rotDir st' = rotDir st /\ rotSpeed st' = rotSpeed st
  /\ rotAnim st' = negb (rotAnim st)
  /\ length (heap st) <= length (heap st')
  /\ forall l, l < length (heap st) -> deref (heap st') l = deref (heap st) l.
Proof.
  exact (key_flag " " (fun st => set_rotAnim (negb (rotAnim st)) st) st
           eq_refl (fun _ => conj eq_refl eq_refl)).
Qed.

(** C6. While the animation runs, a tick adds [rotSpeed * direction] to
    [joint.rotor], the direction being +1 or -1 as [rotDir] says; the keys
    [R] and [r] set [rotDir] and touch neither the speed nor the angle, so
    reversing the direction flips the sign of the step of the next tick:
    at speed 3, a tick that added 3 is followed, after [r], by one that
    takes 3 away. *)
Theorem tick_step_signed (st : State Mat) :
  rotAnim st = true ->
  let tick := step AnimationFrame in
  let d (st : State Mat) := (rotor (joint (tick st)) - rotor (joint st))%Z in
  d st = (rotSpeed st * direction (rotDir st))%Z
  /\ (direction (rotDir st) = 1%Z \/ direction (rotDir st) = (-1)%Z)
  /\ direction true = 1%Z /\ direction false = (-1)%Z
  /\ d (step (KeyDown "R") st) = rotSpeed st
  /\ d (step (KeyDown "r") st) = (- rotSpeed st)%Z
  /\ d (step (KeyDown "r") st) = (- d (step (KeyDown "R") st))%Z
  /\ (rotSpeed st = 3%Z -> rotDir st = true ->
      d st = 3%Z /\ d (step (KeyDown "r") (tick st)) = (-3)%Z).
Proof.
  intros Hr. cbv zeta.
  destruct (tick_running st Hr) as (Tr & Td & Tv & Ta).
  destruct (key_r st) as (rj & rd & rv & ra).
  destruct (key_R st) as (Rj & Rd & Rv & Ra).
  destruct (tick_running (step (KeyDown "r") st)) as (-> & _);
    [by rewrite ra|].
  destruct (tick_running (step (KeyDown "R") st)) as (-> & _);
    [by rewrite Ra|].
  rewrite Tr, rd, rv, Rd, Rv.
  assert (Hlast : rotSpeed st = 3%Z -> rotDir st = true ->
                  (rotor (joint (step AnimationFrame
                     (step (KeyDown "r") (step AnimationFrame st))))
                   - rotor (joint (step (KeyDown "r")
                                     (step AnimationFrame st))))%Z
                  = (-3)%Z).
  { intros Hv Hd.
    destruct (key_r (step AnimationFrame st)) as (tj & td & tv & ta).
    destruct (tick_running (step (KeyDown "r") (step AnimationFrame st)))
      as (-> & _); [by rewrite ta|].
    rewrite td, tv, Tv, Hv. cbn. lia. }
  unfold direction in *.
  repeat split; try (destruct (rotDir st); lia); lia.
Qed.

(** C7. Once the space key has paused the animation, any number of ticks
    leaves every joint angle and every object there was, the rotor's angle
    and [rotorMatrix] among them, as they were; after the space key resumes
    it, one tick adds [rotSpeed * direction] to the rotor's angle. *)
Theorem pause_freezes_rotor (st : State Mat) (n : nat) :
  reachable st -> rotAnim st = true ->
  let paused := step (KeyDown " ") st in
  let idle := run (repeat AnimationFrame n) paused in
  let resumed := step (KeyDown " ") idle in
  rotAnim paused = false
  /\ rotAnim idle = false
  /\ joint idle = joint st
  /\ rotor (joint idle) = rotor (joint st)
  /\ deref (heap idle) rotorMatrix = deref (heap st) rotorMatrix
  /\ (forall l, l < length (heap st) -> deref (heap idle) l = deref (heap st) l)
  /\ rotAnim resumed = true
  /\ rotor (joint (step AnimationFrame resumed))
     = (rotor (joint idle) + rotSpeed st * direction (rotDir st))%Z.
Proof.
  intros Hreach Hr. cbv zeta.
  destruct (reachable_allocated st Hreach) as [Ha _]. unfold allocated in Ha.
  destruct (key_space st) as (Pj & Pd & Pv & Pa & Pl & Pm).
  rewrite Hr in Pa. cbn [negb] in Pa.
  destruct (ticks_paused n (step (KeyDown " ") st) Pa)
    as (Ij & Id & Iv & Ia & Il & Im).
  destruct (key_space (run (repeat AnimationFrame n) (step (KeyDown " ") st)))
    as (Rj & Rd & Rv & Ra & _).
  rewrite Ia in Ra. cbn [negb] in Ra.
  destruct (tick_running _ Ra) as (-> & _).
  assert (Hm : forall l, l < length (heap st) ->
                 deref (heap (run (repeat AnimationFrame n)
                                (step (KeyDown " ") st))) l
                 = deref (heap st) l).
  { intros l Hl. rewrite Im by lia. by apply Pm. }
  rewrite Rj, Rd, Rv, Ij, Id, Iv, Pj, Pd, Pv.
  repeat split; try done.
  apply Hm. unfold rotorMatrix. lia.
Qed.

(** C8. From a speed of at least 1, [changeRotSpeed(n)] sets the speed to
    [rotSpeed + n] when that is at least 1 and to 1 otherwise, so the speed
    stays at least 1 (from speed 1, [changeRotSpeed(-5)] leaves 1); it prints
    nothing and writes nothing else. The speed is at least 1 in every
    reachable state. *)
Theorem speed_floor (st : State Mat) (n : Z) :
  (1 <= rotSpeed st)%Z ->
  let st' := (changeRotSpeed n st).2 in
  ((1 <= rotSpeed st + n)%Z -> rotSpeed st' = (rotSpeed st + n)%Z)
  /\ ((rotSpeed st + n < 1)%Z -> rotSpeed st' = 1%Z)
  /\ (1 <= rotSpeed st')%Z
  /\ (rotSpeed st = 1%Z -> rotSpeed (changeRotSpeed (-5) st).2 = 1%Z)
  /\ console st' = console st
  /\ heap st' = heap st /\ joint st' = joint st
  /\ rotDir st' = rotDir st /\ rotAnim st' = rotAnim st
  /\ (forall st0 : State Mat, reachable st0 -> (1 <= rotSpeed st0)%Z).
Proof.
  intros Hv. cbv zeta. unfold changeRotSpeed.
  destruct (Z.ltb_spec (rotSpeed st + n) 1);
    destruct (Z.ltb_spec (rotSpeed st + -5) 1); cbn;
    repeat split; try lia; try done.
  all: intros st0 Hreach; by apply reachable_allocated.
Qed.

(** ** Keys that write matrices *)

Ltac address_lia :=
  cbv delta [turbineMatrix baseMatrix generatorMatrix rotorMatrix bladeMatrix
             turbineMatrixLocal baseMatrixLocal generatorMatrixLocal
             rotorMatrixLocal bladeMatrixLocal modelMatrix] in *;
  lia.

Ltac heap_cells :=
  cbv delta [turbineMatrix baseMatrix generatorMatrix rotorMatrix bladeMatrix
             turbineMatrixLocal baseMatrixLocal generatorMatrixLocal
             rotorMatrixLocal bladeMatrixLocal modelMatrix] in *;
  repeat first
    [ rewrite deref_insert_eq by (rewrite ?length_insert; lia)
    | rewrite deref_insert_ne by lia ].

Lemma key_t_run (st : State Mat) :
  allocated st ->
  let st' := step (KeyDown "t") st in
  joint st'
  = {| turbine := turbine (joint st) + 15; base := base (joint st);
       generator := generator (joint st); rotor := rotor (joint st);
       blade := blade (joint st); shoulder := shoulder (joint st);
       arm := arm (joint st); hand := hand (joint st) |}
  /\ deref (heap st') turbineMatrix
     = mul (translation 0 0 0) (rotation (turbine (joint st) + 15) 0 1 0)
  /\ (forall l, l < length (heap st) -> l <> turbineMatrix ->
        deref (heap st') l = deref (heap st) l)
  /\ rotDir st' = rotDir st /\ rotSpeed st' = rotSpeed st
  /\ rotAnim st' = rotAnim st.
Proof.
  unfold allocated. intros Ha. cbv zeta. cbn [step].
  erewrite handleKeyPress_bound by reflexivity.
  rewrite turn_turbine_run. cbn [snd].
  match goal with |- context [draw ?s] =>
    destruct (draw_frame s) as (-> & -> & -> & -> & _ & _ & Hm) end.
  cbn [heap set_heap set_joint add_console joint rotDir rotSpeed rotAnim] in *.
  rewrite !length_insert in Hm.
  repeat split.
  - rewrite Hm by (unfold turbineMatrix; lia). by heap_cells.
  - intros l Hl Hne. rewrite Hm by done. unfold turbineMatrix in *.
    by rewrite !deref_insert_ne by lia.
Qed.

(** C9. From the initial joint angles (all zero but [shoulder] and [arm] at
    45), the key [t] makes [joint.turbine] 15 and rebuilds [turbineMatrix] as
    the translation by (0,0,0) times the rotation by 15 degrees about the y
    axis; the other angles, the other joint matrices and every other object
    stay as they were. *)
Theorem key_t_turns_turbine (st : State Mat) :
  reachable st -> joint st = initial_joint ->
  let st' := step (KeyDown "t") st in
  joint st'
  = {| turbine := 15; base := 0; generator := 0; rotor := 0; blade := 0;
       shoulder := 45; arm := 45; hand := 0 |}
  /\ deref (heap st') turbineMatrix
     = mul (translation 0 0 0) (rotation 15 0 1 0)
  /\ deref (heap st') baseMatrix = deref (heap st) baseMatrix
  /\ deref (heap st') generatorMatrix = deref (heap st) generatorMatrix
  /\ deref (heap st') rotorMatrix = deref (heap st) rotorMatrix
  /\ deref (heap st') bladeMatrix = deref (heap st) bladeMatrix
  /\ (forall l, l < length (heap st) -> l <> turbineMatrix ->
        deref (heap st') l = deref (heap st) l).
Proof.
  intros Hreach Hj. cbv zeta.
  destruct (reachable_allocated st Hreach) as [Ha _].
  destruct (key_t_run st Ha) as (Ej & Em & Ef & _).
  rewrite Ej, Em, Hj. unfold allocated in Ha.
  repeat split; try done; apply Ef;
    unfold baseMatrix, generatorMatrix, rotorMatrix, bladeMatrix,
      turbineMatrix; lia.
Qed.

Lemma scaleMoinho_cells (f : Q) (st : State Mat) :
  allocated st ->
  let st' := (scaleMoinho f st).2 in
  (forall l, l ∈ shape_matrices ->
     deref (heap st') l = mul (deref (heap st) l) (scaling f f f))
  /\ (forall l, l ∉ shape_matrices -> deref (heap st') l = deref (heap st) l)
  /\ length (heap st') = length (heap st)
  /\ joint st' = joint st /\ rotDir st' = rotDir st
  /\ rotSpeed st' = rotSpeed st /\ rotAnim st' = rotAnim st
  /\ lightingShader st' = lightingShader st
  /\ console st' = console st.
Proof.
  unfold allocated. intros Ha. cbv zeta. rewrite scaleMoinho_run.
  cbn [snd heap set_heap joint rotDir rotSpeed rotAnim lightingShader console].
  repeat split.
  - intros l Hin. unfold shape_matrices in Hin.
    repeat (apply elem_of_cons in Hin as [->|Hin]; [by heap_cells|]).
    by apply elem_of_nil in Hin.
  - intros l Hout. unfold shape_matrices in Hout.
    rewrite !not_elem_of_cons in Hout.
    destruct Hout as (? & ? & ? & ? & ? & _).
    by heap_cells.
  - by rewrite !length_insert.
Qed.

Lemma key_arrow (ch : string) (f : Q) (st : State Mat) :
  key_action ch = Some (scaleMoinho f) ->
  allocated st ->
  let st' := step (KeyDown ch) st in
  (forall l, l ∈ shape_matrices ->
     deref (heap st') l = mul (deref (heap st) l) (scaling f f f))
  /\ (forall l, l < length (heap st) -> l ∉ shape_matrices ->
        deref (heap st') l = deref (heap st) l)
  /\ joint st' = joint st /\ rotDir st' = rotDir st
  /\ rotSpeed st' = rotSpeed st /\ rotAnim st' = rotAnim st.
Proof.
  intros Hk Ha. cbv zeta. cbn [step].
  rewrite (handleKeyPress_bound _ _ _ Hk).
  destruct (scaleMoinho_cells f (add_console [[LStr ch]] st) Ha)
    as (Sin & Sout & Sl & Sj & Sd & Sv & Sa & _).
  destruct (draw_frame (scaleMoinho f (add_console [[LStr ch]] st)).2)
    as (-> & -> & -> & -> & _ & _ & Hm).
  rewrite Sl in Hm. cbn [heap joint rotDir rotSpeed rotAnim add_console] in *.
  unfold allocated in Ha.
  repeat split; try done.
  - intros l Hin. rewrite Hm, Sin; [done|done|].
    unfold shape_matrices in Hin.
    repeat (apply elem_of_cons in Hin as [->|Hin]; [address_lia|]).
    by apply elem_of_nil in Hin.
  - intros l Hl Hout. by rewrite Hm, Sout.
Qed.

(** C10. [scaleMoinho(factor)] multiplies each of the five shape matrices on
    the right by the uniform scaling by [factor], so a second call compounds
    with the first, and it leaves the joint angles, the joint matrices, the
    speed, the direction and the running flag as they were; the keys ArrowUp
    and ArrowDown do so with the factors 1.1 and 0.9. *)
Theorem scaleMoinho_scales_shapes (st : State Mat) (f g : Q) :
  reachable st ->
  let st1 := (scaleMoinho f st).2 in
  let st2 := (scaleMoinho g st1).2 in
  let up := step (KeyDown "ArrowUp") st in
  let down := step (KeyDown "ArrowDown") st in
  (forall l, l ∈ shape_matrices ->
     deref (heap st1) l = mul (deref (heap st) l) (scaling f f f)
     /\ deref (heap st2) l
        = mul (mul (deref (heap st) l) (scaling f f f)) (scaling g g g)
     /\ deref (heap up) l = mul (deref (heap st) l) (scaling 1.1 1.1 1.1)
     /\ deref (heap down) l = mul (deref (heap st) l) (scaling 0.9 0.9 0.9))
  /\ (forall l, l ∈ joint_matrices ->
        deref (heap st1) l = deref (heap st) l
        /\ deref (heap st2) l = deref (heap st) l
        /\ deref (heap up) l = deref (heap st) l
        /\ deref (heap down) l = deref (heap st) l)
  /\ (joint st1 = joint st /\ rotSpeed st1 = rotSpeed st
      /\ rotDir st1 = rotDir st /\ rotAnim st1 = rotAnim st)
  /\ (joint st2 = joint st /\ rotSpeed st2 = rotSpeed st
      /\ rotDir st2 = rotDir st /\ rotAnim st2 = rotAnim st)
  /\ (joint up = joint st /\ rotSpeed up = rotSpeed st
      /\ rotDir up = rotDir st /\ rotAnim up = rotAnim st)
  /\ (joint down = joint st /\ rotSpeed down = rotSpeed st
      /\ rotDir down = rotDir st /\ rotAnim down = rotAnim st).
Proof.
  intros Hreach. cbv zeta.
  destruct (reachable_allocated st Hreach) as [Ha _].
  destruct (scaleMoinho_cells f st Ha)
    as (Fin & Fout & Fl & Fj & Fd & Fv & Fa & _).
  assert (Ha1 : allocated (scaleMoinho f st).2)
    by (unfold allocated in *; by rewrite Fl).
  destruct (scaleMoinho_cells g (scaleMoinho f st).2 Ha1)
    as (Gin & Gout & Gl & Gj & Gd & Gv & Ga & _).
  destruct (key_arrow "ArrowUp" 1.1 st eq_refl Ha)
    as (Uin & Uout & Uj & Ud & Uv & Ua).
  destruct (key_arrow "ArrowDown" 0.9 st eq_refl Ha)
    as (Din & Dout & Dj & Dd & Dv & Da).
  assert (Hjm : forall l, l ∈ joint_matrices ->
                  l < length (heap st) /\ l ∉ shape_matrices).
  { intros l Hin. unfold joint_matrices in Hin. unfold allocated in Ha.
    repeat (apply elem_of_cons in Hin as [->|Hin];
            [split; [address_lia|];
             unfold shape_matrices; rewrite !not_elem_of_cons;
             repeat split; try address_lia; apply not_elem_of_nil|]).
    by apply elem_of_nil in Hin. }
  rewrite Gj, Gd, Gv, Ga, Fj, Fd, Fv, Fa.
  repeat split; try done.
  - by apply Fin.
  - rewrite Gin, Fin; done.
  - by apply Uin.
  - by apply Din.
  - apply Fout. by apply Hjm.
  - rewrite Gout, Fout; try done; by apply Hjm.
  - apply Uout; by apply Hjm.
  - apply Dout; by apply Hjm.
Qed.

(** ** The rotor's matrix *)

Section RotorContract.

Context {laws : Matrix4Laws Mat}.

(** C5. In every reachable state [rotorMatrix] holds the matrix rebuilt from
    the translation by (0,0,3) and the rotation by [joint.rotor] degrees, a
    function of the angle alone: two reachable states with the same rotor
    angle have the same [rotorMatrix]. The matrix library is taken at its
    algebraic contract. *)
Theorem rotor_matrix_from_angle (st : State Mat) :
  reachable st ->
  deref (heap st) rotorMatrix = rotor_transform (rotor (joint st))
  /\ rotor_transform (rotor (joint st))
     = mul (translation 0 0 3) (rotation (rotor (joint st)) 0 0 1)
  /\ (forall st' : State Mat,
        reachable st' -> rotor (joint st') = rotor (joint st) ->
        deref (heap st') rotorMatrix = deref (heap st) rotorMatrix).
Proof.
  intros Hreach. repeat split.
  - by apply reachable_rotor.
  - unfold rotor_transform.
    by rewrite translation_zero, mul_identity_l, mul_identity_r.
  - intros st' Hreach' Hr.
    by rewrite !reachable_rotor, Hr.
Qed.

End RotorContract.

(** * Further properties of the page *)

(** ** The joints over every run *)

Lemma rotate_joint (st : State Mat) :
  rotAnim st = true ->
  joint (rotate st).2
  = {| turbine := turbine (joint st); base := base (joint st);
       generator := generator (joint st);
       rotor := rotor (joint st) + rotSpeed st * direction (rotDir st);
       blade := blade (joint st); shoulder := shoulder (joint st);
       arm := arm (joint st); hand := hand (joint st) |}.
Proof.
  intros Hr. unfold rotate. rewrite Hr.
  assert (Er : (if rotDir st then (rotor (joint st) + rotSpeed st)%Z
                else (rotor (joint st) - rotSpeed st)%Z)
               = (rotor (joint st) + rotSpeed st * direction (rotDir st))%Z).
  { unfold direction. destruct (rotDir st); lia. }
  rewrite Er.
  erewrite bind_run by reflexivity.
  erewrite bind_run by apply nose_run.
  unfold Matrix4_setTranslate. erewrite bind_run by apply update_run.
  unfold Matrix4_multiply. erewrite bind_run by apply update_run.
  reflexivity.
Qed.

Lemma key_action_keeps (ch : string) (action : M Mat unit) (st : State Mat) :
  key_action ch = Some action -> allocated st ->
  joints_kept st -> joints_kept (action st).2.
Proof.
  unfold allocated, key_action, joints_kept.
  intros Hk Ha (It & Ig & Ib & Il & Im & J1 & J2 & J3 & J4 & J5 & Dt & Dg).
  repeat match type of Hk with
         | (if ?b then _ else _) = _ => destruct b
         end;
    try discriminate; injection Hk as <-.
  1,2: rewrite turn_turbine_run.
  3,4: rewrite turn_generator_run.
  11,12: rewrite scaleMoinho_run.
  7,8: unfold changeRotSpeed;
       match goal with |- context [(?a <? ?b)%Z] => destruct (a <? b)%Z end.
  all: cbn [snd heap set_heap set_joint set_rotDir set_rotSpeed set_rotAnim
            changeRotAnim joint turbine base generator rotor blade shoulder
            arm hand].
  all: heap_cells.
  all: repeat split; try done.
  all: try (apply Z.divide_add_r; [done|]).
  all: try (by exists 1%Z).
  all: try (by exists (-1)%Z).
Qed.

Lemma step_keeps (i : input) (st : State Mat) :
  allocated st -> joints_kept st -> joints_kept (step i st).
Proof.
  intros Ha Hj.
  assert (Hd : forall s : State Mat,
             allocated s -> joints_kept s -> joints_kept (draw s).2).
  { intros s Hs.
    destruct (draw_frame s) as (Dj & _ & _ & _ & _ & _ & Dm).
    unfold joints_kept, allocated in *. rewrite Dj.
    rewrite !Dm by address_lia. done. }
  destruct i as [ch|]; cbn [step].
  - destruct (key_action ch) as [action|] eqn:Hk.
    + rewrite (handleKeyPress_bound _ _ _ Hk).
      destruct (key_action_frame ch action (add_console [[LStr ch]] st) Hk Ha)
        as (Kl & _).
      apply Hd; [unfold allocated in *; by rewrite Kl|].
      by apply (key_action_keeps ch).
    + by rewrite (handleKeyPress_unbound _ _ Hk).
  - rewrite animate_run. destruct (rotAnim st) eqn:Hr.
    + destruct (rotate_running st Hr)
        as (_ & _ & _ & _ & _ & _ & _ & _ & _ & Rh).
      unfold allocated in Ha.
      specialize (Rh ltac:(unfold rotorMatrix; lia)).
      apply Hd.
      * unfold allocated. rewrite Rh, length_app, length_insert. lia.
      * unfold joints_kept in *. rewrite (rotate_joint st Hr), Rh.
        cbn [turbine base generator blade shoulder arm hand].
        rewrite !deref_app_l by (rewrite length_insert; address_lia).
        by heap_cells.
    + rewrite rotate_paused by done. by apply Hd.
Qed.

Lemma reachable_joints (st : State Mat) : reachable st -> joints_kept st.
Proof.
  induction 1 as [shader|i st Hreach IH].
  - unfold joints_kept. rewrite initial_heap. cbn. repeat split.
    all: by exists 0%Z.
  - apply step_keeps; [by apply reachable_allocated|done].
Qed.

(** X1. In every reachable state [turbineMatrix] and [generatorMatrix] hold
    the matrix built from their joint angle (translation by (0,0,0), resp.
    (0,8,0), times the rotation by the angle about the y axis), and the two
    angles are multiples of 15. *)
Theorem joint_matrices_follow_angles (st : State Mat) :
  reachable st ->
  deref (heap st) turbineMatrix
  = mul (translation 0 0 0) (rotation (turbine (joint st)) 0 1 0)
  /\ deref (heap st) generatorMatrix
     = mul (translation 0 8 0) (rotation (generator (joint st)) 0 1 0)
  /\ (15 | turbine (joint st))%Z /\ (15 | generator (joint st))%Z.
Proof.
  intros Hr. destruct (reachable_joints st Hr) as (? & ? & _ & _ & _ & _ & _
    & _ & _ & _ & ? & ?). done.
Qed.

(** X2. No key and no frame ever writes [baseMatrix], [bladeMatrix] or
    [modelMatrix], nor the angles [base], [blade], [shoulder], [arm] and
    [hand]: in every reachable state they are as the script declared
    them. *)
Theorem fixed_parts_never_written (st : State Mat) (shader : string -> Z) :
  reachable st ->
  deref (heap st) baseMatrix = deref (heap (initial shader)) baseMatrix
  /\ deref (heap st) bladeMatrix = deref (heap (initial shader)) bladeMatrix
  /\ deref (heap st) modelMatrix = deref (heap (initial shader)) modelMatrix
  /\ base (joint st) = base initial_joint
  /\ blade (joint st) = blade initial_joint
  /\ shoulder (joint st) = shoulder initial_joint
  /\ arm (joint st) = arm initial_joint
  /\ hand (joint st) = hand initial_joint.
Proof.
  intros Hr.
  destruct (reachable_joints st Hr)
    as (_ & _ & Hb & Hl & Hm & J1 & J2 & J3 & J4 & J5 & _).
  rewrite initial_heap, Hb, Hl, Hm, J1, J2, J3, J4, J5. done.
Qed.

(** ** The keys *)

Lemma key_unbound (ch : string) :
  key_action (Mat := Mat) ch = None <-> ch ∉ bound_keys.
Proof.
  unfold key_action, bound_keys.
  repeat match goal with
  | |- context [String.eqb ch ?k] =>
      destruct (String.eqb_spec ch k) as [->|?];
      [split; [discriminate|];
       intros Hn; exfalso; apply Hn; rewrite !elem_of_cons; tauto|]
  end.
  split; [|done]. intros _. rewrite !not_elem_of_cons.
  repeat split; try done. apply not_elem_of_nil.
Qed.

(** The body of a [case] writes neither the console nor the GPU. *)
Lemma key_action_quiet (ch : string) (action : M Mat unit) (st : State Mat) :
  key_action ch = Some action ->
  gl (action st).2 = gl st /\ console (action st).2 = console st
  /\ calls (action st).2 = calls st.
Proof.
  unfold key_action. intros Hk.
  repeat match type of Hk with
         | (if ?b then _ else _) = _ => destruct b
         end;
    try discriminate; injection Hk as <-.
  1,2: rewrite turn_turbine_run.
  3,4: rewrite turn_generator_run.
  11,12: rewrite scaleMoinho_run.
  7,8: unfold changeRotSpeed;
       match goal with |- context [(?a <? ?b)%Z] => destruct (a <? b)%Z end.
  all: done.
Qed.

(** X3. A key without a [case] is only printed: no matrix, angle or flag
    changes and nothing is drawn. A key with a [case], pressed in a
    reachable state, is printed and followed by exactly one render pass
    (one clear of the framebuffer). The keys with a [case] are the twelve
    of [bound_keys]. *)
Theorem unbound_key_ignored (ch : string) (st : State Mat) :
  (ch ∉ bound_keys ->
   handleKeyPress ch st = (tt, add_console [[LStr ch]] st))
  /\ (ch ∈ bound_keys -> reachable st ->
      clears (drop (length (gl st)) (gl (step (KeyDown ch) st))) = 1
      /\ take (S (length (console st))) (console (step (KeyDown ch) st))
         = console st ++ [[LStr ch]]).
Proof.
  split.
  - intros Hn. apply key_unbound in Hn. unfold handleKeyPress.
    by rewrite Hn, bind_step.
  - intros Hin Hreach.
    destruct (key_action (Mat := Mat) ch) as [action|] eqn:Hk;
      [|by apply key_unbound in Hk].
    destruct (reachable_allocated st Hreach) as [Ha _].
    cbn [step]. rewrite (handleKeyPress_bound _ _ _ Hk).
    set (st1 := add_console [[LStr ch]] st).
    destruct (key_action_frame ch action st1 Hk Ha) as (Kl & _).
    destruct (key_action_quiet ch action st1 Hk) as (Kg & Kc & _).
    assert (Ha2 : allocated (action st1).2)
      by (unfold allocated in *; by rewrite Kl).
    assert (Hc : forall e c g o,
               (draw (action st1).2).2 = extend e c g o (action st1).2 ->
               clears (drop (length (gl st)) (gl (draw (action st1).2).2))
               = clears g
               /\ take (S (length (console st)))
                    (console (draw (action st1).2).2)
                  = console st ++ [[LStr ch]]).
    { intros e c g o E. rewrite E. cbn [gl console extend].
      rewrite Kg, Kc. cbn [gl console st1 add_console].
      rewrite drop_app_length. split; [done|].
      rewrite take_app_le by (rewrite length_app; cbn; lia).
      rewrite take_ge by (rewrite length_app; cbn; lia). done. }
    destruct (all_attributes_found (lightingShader (action st1).2)) eqn:Hs.
    + destruct (Hc _ _ _ _ (draw_found _ Ha2 Hs)) as [-> ->]. done.
    + destruct (draw_not_found _ Ha2 Hs) as [o E].
      destruct (Hc _ _ _ _ E) as [-> ->]. done.
Qed.

(** A key whose [case] turns the turbine by [d] degrees. *)
Lemma key_turbine (ch : string) (d : Z) (st : State Mat) :
  key_action ch
  = Some (a <- add_turbine d;;
          m <- Matrix4_setTranslate 0 0 0 turbineMatrix;;
          Matrix4_rotate a 0 1 0 m;; ret tt) ->
  allocated st ->
  let st' := step (KeyDown ch) st in
  joint st'
  = {| turbine := turbine (joint st) + d; base := base (joint st);
       generator := generator (joint st); rotor := rotor (joint st);
       blade := blade (joint st); shoulder := shoulder (joint st);
       arm := arm (joint st); hand := hand (joint st) |}
  /\ deref (heap st') turbineMatrix
     = mul (translation 0 0 0) (rotation (turbine (joint st) + d) 0 1 0)
  /\ (forall l, l < length (heap st) -> l <> turbineMatrix ->
        deref (heap st') l = deref (heap st) l)
  /\ rotDir st' = rotDir st /\ rotSpeed st' = rotSpeed st
  /\ rotAnim st' = rotAnim st /\ length (heap st) <= length (heap st').
Proof.
  unfold allocated. intros Hk Ha. cbv zeta. cbn [step].
  rewrite (handleKeyPress_bound _ _ _ Hk).
  rewrite turn_turbine_run. cbn [snd].
  match goal with |- context [draw ?s] =>
    destruct (draw_frame s) as (-> & -> & -> & -> & _ & Hl & Hm) end.
  cbn [heap set_heap set_joint add_console joint rotDir rotSpeed rotAnim] in *.
  rewrite !length_insert in Hm, Hl.
  repeat split; try done.
  - rewrite Hm by (unfold turbineMatrix; lia). by heap_cells.
  - intros l Hl' Hne. rewrite Hm by done. unfold turbineMatrix in *.
    by rewrite !deref_insert_ne by lia.
Qed.

(** A key whose [case] turns the generator by [d] degrees. *)
Lemma key_generator (ch : string) (d : Z) (st : State Mat) :
  key_action ch
  = Some (a <- add_generator d;;
          m <- Matrix4_setTranslate 0 8 0 generatorMatrix;;
          Matrix4_rotate a 0 1 0 m;; ret tt) ->
  allocated st ->
  let st' := step (KeyDown ch) st in
  joint st'
  = {| turbine := turbine (joint st); base := base (joint st);
       generator := generator (joint st) + d; rotor := rotor (joint st);
       blade := blade (joint st); shoulder := shoulder (joint st);
       arm := arm (joint st); hand := hand (joint st) |}
  /\ deref (heap st') generatorMatrix
     = mul (translation 0 8 0) (rotation (generator (joint st) + d) 0 1 0)
  /\ (forall l, l < length (heap st) -> l <> generatorMatrix ->
        deref (heap st') l = deref (heap st) l)
  /\ rotDir st' = rotDir st /\ rotSpeed st' = rotSpeed st
  /\ rotAnim st' = rotAnim st /\ length (heap st) <= length (heap st').
Proof.
  unfold allocated. intros Hk Ha. cbv zeta. cbn [step].
  rewrite (handleKeyPress_bound _ _ _ Hk).
  rewrite turn_generator_run. cbn [snd].
  match goal with |- context [draw ?s] =>
    destruct (draw_frame s) as (-> & -> & -> & -> & _ & Hl & Hm) end.
  cbn [heap set_heap set_joint add_console joint rotDir rotSpeed rotAnim] in *.
  rewrite !length_insert in Hm, Hl.
  repeat split; try done.
  - rewrite Hm by (unfold generatorMatrix; lia). by heap_cells.
  - intros l Hl' Hne. rewrite Hm by done. unfold generatorMatrix in *.
    by rewrite !deref_insert_ne by lia.
Qed.

Lemma joint_eta (j : Joint) :
  {| turbine := turbine j; base := base j; generator := generator j;
     rotor := rotor j; blade := blade j; shoulder := shoulder j;
     arm := arm j; hand := hand j |} = j.
Proof. by destruct j. Qed.

(** X4. The keys [t] and [T] undo each other, and so do [g] and [G]: pressed
    one after the other, in either order, in a reachable state, they leave
    every joint angle and every object that existed (the joint's own matrix
    included) exactly as before. *)
Theorem turn_keys_undo (st : State Mat) (first second : string) :
  reachable st ->
  (first, second) ∈ [("t", "T"); ("T", "t"); ("g", "G"); ("G", "g")] ->
  let st' := step (KeyDown second) (step (KeyDown first) st) in
  joint st' = joint st
  /\ rotDir st' = rotDir st /\ rotSpeed st' = rotSpeed st
  /\ rotAnim st' = rotAnim st
  /\ forall l, l < length (heap st) -> deref (heap st') l = deref (heap st) l.
Proof.
  intros Hreach Hin. cbv zeta.
  destruct (reachable_allocated st Hreach) as [Ha _].
  destruct (reachable_joints st Hreach) as (It & Ig & _).
  assert (Ha1 : forall i, allocated (step i st)).
  { intros i. apply reachable_allocated. by constructor. }
  repeat (apply elem_of_cons in Hin as [Hin|Hin];
          [injection Hin as -> ->|]); [| | | |by apply elem_of_nil in Hin].
  - destruct (key_turbine "t" 15 st eq_refl Ha)
      as (Aj & Am & Af & Ad & Av & Aa & Al).
    destruct (key_turbine "T" (-15) _ eq_refl (Ha1 (KeyDown "t")))
      as (Bj & Bm & Bf & Bd & Bv & Ba & Bl).
    rewrite Bj, Bd, Bv, Ba, Aj, Ad, Av, Aa.
    cbn [turbine base generator rotor blade shoulder arm hand].
    replace (turbine (joint st) + 15 + -15)%Z with (turbine (joint st)) by lia.
    rewrite joint_eta. repeat split; try done.
    intros l Hl. destruct (decide (l = turbineMatrix)) as [->|Hne].
    + rewrite Bm, Aj, It. cbn [turbine]. f_equal. f_equal. lia.
    + rewrite Bf, Af; try done. lia.
  - destruct (key_turbine "T" (-15) st eq_refl Ha)
      as (Aj & Am & Af & Ad & Av & Aa & Al).
    destruct (key_turbine "t" 15 _ eq_refl (Ha1 (KeyDown "T")))
      as (Bj & Bm & Bf & Bd & Bv & Ba & Bl).
    rewrite Bj, Bd, Bv, Ba, Aj, Ad, Av, Aa.
    cbn [turbine base generator rotor blade shoulder arm hand].
    replace (turbine (joint st) + -15 + 15)%Z with (turbine (joint st)) by lia.
    rewrite joint_eta. repeat split; try done.
    intros l Hl. destruct (decide (l = turbineMatrix)) as [->|Hne].
    + rewrite Bm, Aj, It. cbn [turbine]. f_equal. f_equal. lia.
    + rewrite Bf, Af; try done. lia.
  - destruct (key_generator "g" 15 st eq_refl Ha)
      as (Aj & Am & Af & Ad & Av & Aa & Al).
    destruct (key_generator "G" (-15) _ eq_refl (Ha1 (KeyDown "g")))
      as (Bj & Bm & Bf & Bd & Bv & Ba & Bl).
    rewrite Bj, Bd, Bv, Ba, Aj, Ad, Av, Aa.
    cbn [turbine base generator rotor blade shoulder arm hand].
    replace (generator (joint st) + 15 + -15)%Z
      with (generator (joint st)) by lia.
    rewrite joint_eta. repeat split; try done.
    intros l Hl. destruct (decide (l = generatorMatrix)) as [->|Hne].
    + rewrite Bm, Aj, Ig. cbn [generator]. f_equal. f_equal. lia.
    + rewrite Bf, Af; try done. lia.
  - destruct (key_generator "G" (-15) st eq_refl Ha)
      as (Aj & Am & Af & Ad & Av & Aa & Al).
    destruct (key_generator "g" 15 _ eq_refl (Ha1 (KeyDown "G")))
      as (Bj & Bm & Bf & Bd & Bv & Ba & Bl).
    rewrite Bj, Bd, Bv, Ba, Aj, Ad, Av, Aa.
    cbn [turbine base generator rotor blade shoulder arm hand].
    replace (generator (joint st) + -15 + 15)%Z
      with (generator (joint st)) by lia.
    rewrite joint_eta. repeat split; try done.
    intros l Hl. destruct (decide (l = generatorMatrix)) as [->|Hne].
    + rewrite Bm, Aj, Ig. cbn [generator]. f_equal. f_equal. lia.
    + rewrite Bf, Af; try done. lia.
Qed.

(** A key whose [case] is [changeRotSpeed(n)]. *)
Lemma key_speed (ch : string) (n : Z) (st : State Mat) :
  key_action ch = Some (changeRotSpeed n) ->
  let st' := step (KeyDown ch) st in
  rotSpeed st' = Z.max 1 (rotSpeed st + n)
  /\ joint st' = joint st /\ rotDir st' = rotDir st
  /\ rotAnim st' = rotAnim st.
Proof.
  intros Hk. cbv zeta. cbn [step]. rewrite (handleKeyPress_bound _ _ _ Hk).
  match goal with |- context [draw ?s] =>
    destruct (draw_frame s) as (-> & -> & -> & -> & _) end.
  unfold changeRotSpeed. cbn [rotSpeed add_console].
  destruct (Z.ltb_spec (rotSpeed st + n) 1); cbn; repeat split; lia.
Qed.

Lemma run_repeat_S (i : input) (n : nat) (st : State Mat) :
  run (repeat i (S n)) st = run (repeat i n) (step i st).
Proof. done. Qed.

Lemma presses_faster (n : nat) (st : State Mat) :
  (1 <= rotSpeed st)%Z ->
  rotSpeed (run (repeat (KeyDown "B") n) st) = (rotSpeed st + Z.of_nat n)%Z.
Proof.
  revert st. induction n as [|n IH]; intros st Hv.
  - cbn. lia.
  - rewrite run_repeat_S.
    destruct (key_speed "B" 1 st eq_refl) as (Hs & _).
    rewrite IH, Hs; lia.
Qed.

Lemma presses_slower (n : nat) (st : State Mat) :
  (1 <= rotSpeed st)%Z ->
  rotSpeed (run (repeat (KeyDown "b") n) st)
  = Z.max 1 (rotSpeed st - Z.of_nat n).
Proof.
  revert st. induction n as [|n IH]; intros st Hv.
  - cbn. lia.
  - rewrite run_repeat_S.
    destruct (key_speed "b" (-1) st eq_refl) as (Hs & _).
    rewrite IH, Hs; lia.
Qed.

(** X5. From a speed of at least 1 (every reachable one), [n] presses of
    [B] add [n] to the speed and [n] presses of [b] bring it to
    [max 1 (speed - n)]: the floor of 1 absorbs the presses in excess.
    So [b] undoes [B], while [B] undoes [b] only above the floor. *)
Theorem speed_keys_count (st : State Mat) (n : nat) :
  (1 <= rotSpeed st)%Z ->
  let faster := run (repeat (KeyDown "B") n) in
  let slower := run (repeat (KeyDown "b") n) in
  rotSpeed (faster st) = (rotSpeed st + Z.of_nat n)%Z
  /\ rotSpeed (slower st) = Z.max 1 (rotSpeed st - Z.of_nat n)
  /\ rotSpeed (slower (faster st)) = rotSpeed st
  /\ rotSpeed (faster (slower st))
     = Z.max (rotSpeed st) (Z.of_nat n + 1)
  /\ (rotSpeed st = 1%Z -> rotSpeed (slower st) = 1%Z).
Proof.
  intros Hv. cbv zeta.
  pose proof (presses_faster n st Hv) as F.
  pose proof (presses_slower n st Hv) as S.
  pose proof (presses_slower n (run (repeat (KeyDown "B") n) st)
                ltac:(rewrite F; lia)) as SF.
  pose proof (presses_faster n (run (repeat (KeyDown "b") n) st)
                ltac:(rewrite S; lia)) as FS.
  rewrite SF, FS, F, S. repeat split; lia.
Qed.

(** X6. The key [o] resets the animation whatever the state: the speed is
    1 and the direction is the initial one (counting down), the running
    flag and the angles are untouched; a running tick that follows takes 1
    from the rotor's angle. *)
Theorem key_o_resets (st : State Mat) :
  let st' := step (KeyDown "o") st in
  rotSpeed st' = 1%Z /\ rotDir st' = false
  /\ rotAnim st' = rotAnim st /\ joint st' = joint st
  /\ (forall l, l < length (heap st) -> deref (heap st') l = deref (heap st) l)
  /\ (rotAnim st = true ->
      rotor (joint (step AnimationFrame st')) = (rotor (joint st) - 1)%Z).
Proof.
  cbv zeta.
  destruct (key_flag "o" (fun st => set_rotDir false (set_rotSpeed 1 st)) st
              eq_refl (fun _ => conj eq_refl eq_refl))
    as (Hj & Hd & Hv & Ha & _ & Hm).
  cbn [rotDir rotSpeed rotAnim set_rotDir set_rotSpeed add_console]
    in Hd, Hv, Ha.
  repeat split; try done.
  intros Hr.
  destruct (tick_running (step (KeyDown "o") st)) as (-> & _);
    [by rewrite Ha|].
  rewrite Hj, Hd, Hv. cbn. lia.
Qed.

(** X7. The space key is a toggle and the direction keys are not: two
    presses of space give back the running flag, while a second press of
    [r] or of [R] changes nothing more than the first. None of them touches
    an angle, the speed, or an object that existed. *)
Theorem flag_keys (st : State Mat) :
  let twice (ch : string) := step (KeyDown ch) (step (KeyDown ch) st) in
  rotAnim (step (KeyDown " ") st) = negb (rotAnim st)
  /\ rotAnim (twice " ") = rotAnim st
  /\ rotDir (twice " ") = rotDir st
  /\ rotDir (twice "r") = rotDir (step (KeyDown "r") st)
  /\ rotDir (twice "r") = false
  /\ rotDir (twice "R") = rotDir (step (KeyDown "R") st)
  /\ rotDir (twice "R") = true
  /\ (forall ch, ch ∈ [" "; "r"; "R"] ->
        joint (twice ch) = joint st /\ rotSpeed (twice ch) = rotSpeed st
        /\ forall l, l < length (heap st) ->
             deref (heap (twice ch)) l = deref (heap st) l).
Proof.
  cbv zeta.
  destruct (key_space st) as (Sj & Sd & Sv & Sa & Sl & Sm).
  destruct (key_space (step (KeyDown " ") st))
    as (Tj & Td & Tv & Ta & Tl & Tm).
  destruct (key_flag "r" (set_rotDir false) st eq_refl
              (fun _ => conj eq_refl eq_refl))
    as (rj & rd & rv & ra & rl & rm).
  destruct (key_flag "r" (set_rotDir false) (step (KeyDown "r") st) eq_refl
              (fun _ => conj eq_refl eq_refl))
    as (rj' & rd' & rv' & ra' & rl' & rm').
  destruct (key_flag "R" (set_rotDir true) st eq_refl
              (fun _ => conj eq_refl eq_refl))
    as (Rj & Rd & Rv & Ra & Rl & Rm).
  destruct (key_flag "R" (set_rotDir true) (step (KeyDown "R") st) eq_refl
              (fun _ => conj eq_refl eq_refl))
    as (Rj' & Rd' & Rv' & Ra' & Rl' & Rm').
  cbn [rotDir rotSpeed rotAnim set_rotDir add_console] in *.
  rewrite Ta, Sa, Td, Sd, rd', rd, Rd', Rd, negb_involutive.
  do 7 (split; [done|]).
  intros ch Hin.
  repeat (apply elem_of_cons in Hin as [->|Hin]);
    [| | |by apply elem_of_nil in Hin].
  - rewrite Tj, Tv, Sj, Sv. repeat split; try done.
    intros l Hl. rewrite Tm, Sm; [done|done|lia].
  - rewrite rj', rv', rj, rv. repeat split; try done.
    intros l Hl. rewrite rm', rm; [done|done|lia].
  - rewrite Rj', Rv', Rj, Rv. repeat split; try done.
    intros l Hl. rewrite Rm', Rm; [done|done|lia].
Qed.

(** ** Runs of animation frames *)

Lemma tick_running_full (st : State Mat) :
  allocated st -> rotAnim st = true ->
  let r := (rotor (joint st) + rotSpeed st * direction (rotDir st))%Z in
  let st' := step AnimationFrame st in
  joint st' = with_rotor r (joint st)
  /\ rotDir st' = rotDir st /\ rotSpeed st' = rotSpeed st
  /\ rotAnim st' = true /\ allocated st'
  /\ length (heap st) <= length (heap st')
  /\ deref (heap st') rotorMatrix = rotor_transform r
  /\ (forall l, l < length (heap st) -> l <> rotorMatrix ->
        deref (heap st') l = deref (heap st) l).
Proof.
  unfold allocated. intros Ha Hr. cbv zeta. cbn [step]. rewrite animate_run.
  destruct (draw_frame (rotate st).2) as (-> & -> & -> & -> & _ & Dl & Dm).
  destruct (rotate_running st Hr)
    as (_ & _ & _ & _ & _ & -> & -> & -> & _ & Rh).
  specialize (Rh ltac:(unfold rotorMatrix; lia)).
  rewrite (rotate_joint st Hr). rewrite Rh in Dl, Dm.
  rewrite length_app, length_insert in Dl, Dm. cbn [length] in Dl, Dm.
  repeat split; try done; try lia.
  - rewrite Dm by (unfold rotorMatrix; lia).
    rewrite deref_app_l by (rewrite length_insert; unfold rotorMatrix; lia).
    apply deref_insert_eq. unfold rotorMatrix. lia.
  - intros l Hl Hne. rewrite Dm by lia.
    rewrite deref_app_l by (by rewrite length_insert).
    by apply deref_insert_ne.
Qed.

Lemma ticks_running (n : nat) (st : State Mat) :
  allocated st -> rotAnim st = true ->
  let r :=
    (rotor (joint st) + Z.of_nat n * (rotSpeed st * direction (rotDir st)))%Z in
  let st' := run (repeat AnimationFrame n) st in
  joint st' = with_rotor r (joint st)
  /\ rotDir st' = rotDir st /\ rotSpeed st' = rotSpeed st
  /\ rotAnim st' = true /\ allocated st'
  /\ length (heap st) <= length (heap st')
  /\ (0 < n -> deref (heap st') rotorMatrix = rotor_transform r)
  /\ (forall l, l < length (heap st) -> l <> rotorMatrix ->
        deref (heap st') l = deref (heap st) l).
Proof.
  revert st. induction n as [|n IH]; intros st Ha Hr; cbv zeta.
  - cbn [repeat run fold_left].
    replace (rotor (joint st) + Z.of_nat 0 * _)%Z with (rotor (joint st))
      by lia.
    unfold with_rotor. rewrite joint_eta.
    repeat split; try done; lia.
  - rewrite run_repeat_S.
    destruct (tick_running_full st Ha Hr)
      as (Tj & Td & Tv & Ta & Tal & Tl & Tm & Tf).
    destruct (IH (step AnimationFrame st) Tal Ta)
      as (Ij & Id & Iv & Ia & Ial & Il & Im & If).
    rewrite Ij, Id, Iv, Tj, Td, Tv. cbn [rotor with_rotor].
    replace (rotor (joint st) + rotSpeed st * direction (rotDir st)
             + Z.of_nat n * (rotSpeed st * direction (rotDir st)))%Z
      with (rotor (joint st)
            + Z.of_nat (S n) * (rotSpeed st * direction (rotDir st)))%Z
      in * by lia.
    repeat split; try done; try lia.
    + intros _. destruct n as [|n].
      * cbn [repeat run fold_left] in *. rewrite Tm. f_equal. lia.
      * rewrite Im by lia. rewrite Tj, Td, Tv. cbn [rotor with_rotor].
        f_equal. lia.
    + intros l Hl Hne. rewrite If, Tf; try done. lia.
Qed.

(** X8. While the animation runs, [n] frames add [n * rotSpeed * direction]
    to the rotor's angle, with no wrap-around; they leave the other angles,
    the flags and every other object that existed as they were, and after
    at least one frame [rotorMatrix] is the transform of the angle
    reached. *)
Theorem frames_add_up (st : State Mat) (n : nat) :
  reachable st -> rotAnim st = true ->
  let r :=
    (rotor (joint st) + Z.of_nat n * (rotSpeed st * direction (rotDir st)))%Z in
  let st' := run (repeat AnimationFrame n) st in
  rotor (joint st') = r
  /\ joint st' = with_rotor r (joint st)
  /\ rotDir st' = rotDir st /\ rotSpeed st' = rotSpeed st
  /\ rotAnim st' = true
  /\ (0 < n -> deref (heap st') rotorMatrix = rotor_transform r)
  /\ (forall l, l < length (heap st) -> l <> rotorMatrix ->
        deref (heap st') l = deref (heap st) l).
Proof.
  intros Hreach Hr. cbv zeta.
  destruct (reachable_allocated st Hreach) as [Ha _].
  destruct (ticks_running n st Ha Hr) as (Hj & Hd & Hv & Hra & _ & _ & Hm & Hf).
  rewrite Hj. done.
Qed.

Section Reversal.

Context {laws : Matrix4Laws Mat}.

(** X9. Reversing the direction retraces the animation: from a reachable
    state with the animation running, [n] frames after the key [R] and then
    [n] frames after the key [r] bring back every joint angle and every
    object that existed, [rotorMatrix] included (the matrix library taken at
    its contract). *)
Theorem reversal_retraces (st : State Mat) (n : nat) :
  reachable st -> rotAnim st = true ->
  let up := run (repeat AnimationFrame n) (step (KeyDown "R") st) in
  let down := run (repeat AnimationFrame n) (step (KeyDown "r") up) in
  rotor (joint up) = (rotor (joint st) + Z.of_nat n * rotSpeed st)%Z
  /\ joint down = joint st
  /\ rotSpeed down = rotSpeed st /\ rotAnim down = true
  /\ (forall l, l < length (heap st) ->
        deref (heap down) l = deref (heap st) l).
Proof.
  intros Hreach Hr. cbv zeta.
  assert (Hreach_runs : forall k s, reachable (Mat := Mat) s ->
            reachable (run (repeat AnimationFrame k) s)).
  { induction k as [|k IH]; intros s Hs; [done|].
    rewrite run_repeat_S. apply IH. by constructor. }
  pose proof (reach_step (KeyDown "R") st Hreach) as HreachR.
  pose proof (Hreach_runs n _ HreachR) as HreachU.
  pose proof (reach_step (KeyDown "r") _ HreachU) as Hreachr.
  pose proof (Hreach_runs n _ Hreachr) as HreachD.
  destruct (key_flag "R" (set_rotDir true) st eq_refl
              (fun _ => conj eq_refl eq_refl))
    as (Rj & Rd & Rv & Ra & Rl & Rm).
  cbn [rotDir rotSpeed rotAnim set_rotDir add_console] in Rd, Rv, Ra.
  destruct (ticks_running n (step (KeyDown "R") st))
    as (Uj & Ud & Uv & Ua & _ & Ul & _ & Uf);
    [by apply reachable_allocated|by rewrite Ra|].
  rewrite Rj, Rd, Rv in Uj. rewrite Rd in Ud. rewrite Rv in Uv.
  set (up := run (repeat AnimationFrame n) (step (KeyDown "R") st)) in *.
  destruct (key_flag "r" (set_rotDir false) up eq_refl
              (fun _ => conj eq_refl eq_refl))
    as (rj & rd & rv & ra & rl & rm).
  cbn [rotDir rotSpeed rotAnim set_rotDir add_console] in rd, rv, ra.
  destruct (ticks_running n (step (KeyDown "r") up))
    as (Dj & Dd & Dv & Da & _ & Dl & _ & Df);
    [by apply reachable_allocated|by rewrite ra|].
  rewrite rj, rd, rv, Uj, Uv in Dj. rewrite rv, Uv in Dv.
  set (down := run (repeat AnimationFrame n) (step (KeyDown "r") up)) in *.
  assert (Ej : joint down = joint st).
  { rewrite Dj. unfold with_rotor, direction.
    cbn [turbine base generator rotor blade shoulder arm hand].
    replace (rotor (joint st) + Z.of_nat n * (rotSpeed st * 1)
             + Z.of_nat n * (rotSpeed st * -1))%Z
      with (rotor (joint st)) by lia.
    apply joint_eta. }
  rewrite Uj, Ej, Dv. unfold with_rotor, direction. cbn [rotor].
  repeat split; try done; try lia.
  intros l Hl. destruct (decide (l = rotorMatrix)) as [->|Hne].
  - rewrite (reachable_rotor down HreachD), (reachable_rotor st Hreach).
    by rewrite Ej.
  - rewrite Df, rm, Uf, Rm; try done; lia.
Qed.

End Reversal.

(** ** renderCube and the pass, seen from the GPU *)

Lemma first_missing_found (shader : string -> Z) :
  first_missing shader = None <-> all_attributes_found shader = true.
Proof.
  unfold first_missing, all_attributes_found.
  destruct (shader "a_Position" <? 0)%Z; [done|].
  destruct (shader "a_Normal" <? 0)%Z; [done|].
  by destruct (shader "a_Color" <? 0)%Z.
Qed.

Lemma renderCube_named (s : Stack.stack) (local : loc) (name : string)
  (st : State Mat) :
  first_missing (lightingShader st) = Some name ->
  renderCube s local st
  = (tt, add_console [failure_line name] (add_gl (UseProgram true) st)).
Proof.
  unfold first_missing, renderCube, failure_line, log, bind. intros Hf.
  cbn [lightingShader add_gl].
  destruct (lightingShader st "a_Position" <? 0)%Z;
    [by injection Hf as <-|].
  destruct (lightingShader st "a_Normal" <? 0)%Z;
    [by injection Hf as <-|].
  destruct (lightingShader st "a_Color" <? 0)%Z;
    [by injection Hf as <-|].
  done.
Qed.

(** X10. When the shader lacks an attribute, [renderCube] binds the
    shader program, prints one line, naming the first attribute missing in
    the order [a_Position], [a_Normal], [a_Color], and returns with the
    program still bound: it does not read the stack, makes no matrix,
    uploads no model matrix, draws nothing and does not unbind the
    program. *)
Theorem renderCube_reports_first_missing (s : Stack.stack) (local : loc)
  (name : string) (st : State Mat) :
  first_missing (lightingShader st) = Some name ->
  renderCube s local st
  = (tt, add_console [failure_line name] (add_gl (UseProgram true) st))
  /\ gl (renderCube s local st).2 = gl st ++ [UseProgram true]
  /\ heap (renderCube s local st).2 = heap st
  /\ calls (renderCube s local st).2 = calls st
  /\ name ∈ ["a_Position"; "a_Normal"; "a_Color"]
  /\ ((lightingShader st "a_Position" < 0)%Z -> name = "a_Position")
  /\ all_attributes_found (lightingShader st) = false.
Proof.
  intros Hf. rewrite (renderCube_named s local name st Hf).
  do 4 (split; [done|]).
  destruct (all_attributes_found (lightingShader st)) eqn:Hs.
  { apply first_missing_found in Hs. congruence. }
  unfold first_missing in Hf.
  destruct (Z.ltb_spec (lightingShader st "a_Position") 0);
    [injection Hf as <-; repeat split; try done;
     rewrite !elem_of_cons; tauto|].
  destruct (lightingShader st "a_Normal" <? 0)%Z;
    [injection Hf as <-; repeat split; try lia;
     rewrite !elem_of_cons; tauto|].
  destruct (lightingShader st "a_Color" <? 0)%Z; [|done].
  injection Hf as <-. repeat split; try lia. rewrite !elem_of_cons; tauto.
Qed.

(** X11. [renderCube] on an empty stack does not fail: [top()] prints its
    underflow warning and returns [undefined], [new Matrix4(undefined)] is
    the identity, and the part is drawn with
    [modelMatrix * (identity * local)]. *)
Theorem renderCube_on_empty_stack (s : Stack.stack) (local : loc)
  (st : State Mat) :
  Stack.isEmpty s = true ->
  all_attributes_found (lightingShader st) = true ->
  local < length (heap st) -> modelMatrix < length (heap st) ->
  let world := mul identity (deref (heap st) local) in
  renderCube s local st
  = (tt, extend [world; mul (deref (heap st) modelMatrix) world]
           [CallTop undefined]
           (drawn (mul (deref (heap st) modelMatrix) world))
           [[LStr "top = "; LNum (Stack.t s)];
            [LStr "Warning: stack underflow"]] st).
Proof.
  intros He Hs Hl Hm. cbv zeta.
  rewrite renderCube_run_found by done.
  unfold Stack.isEmpty in He. unfold Stack.top. rewrite He. done.
Qed.

Lemma pass_gl_extend e c g o (st : State Mat) :
  (draw st).2 = extend e c g o st -> pass_gl st = g.
Proof.
  intros E. unfold pass_gl. rewrite E. cbn. apply drop_app_length.
Qed.

Lemma renderCube_named_ext (local : loc) (s : Stack.stack) (name : string)
  E C G O (st : State Mat) :
  first_missing (lightingShader st) = Some name ->
  renderCube s local (extend E C G O st)
  = (tt, extend E C (G ++ [UseProgram true]) (O ++ [failure_line name]) st).
Proof.
  intros Hf. rewrite (renderCube_named s local name) by done.
  unfold add_console, add_gl, extend. cbn. by rewrite <- !app_assoc.
Qed.

Lemma draw_named (st : State Mat) (name : string) :
  allocated st -> first_missing (lightingShader st) = Some name ->
  pass_gl st = Clear :: repeat (UseProgram true) 5
  /\ pass_console st = repeat (failure_line name) 5.
Proof.
  unfold allocated. intros Ha Hf.
  assert (Hg : forall l, l < 11 -> l < length (heap st)) by (intros; lia).
  assert (E : exists e c,
            (draw st).2
            = extend e c (Clear :: repeat (UseProgram true) 5)
                (repeat (failure_line name) 5) st).
  { unfold draw. rewrite !bind_step. cbn [fst snd].
    destruct (traverse_effect (add_gl Clear st)) as [_ He].
    rewrite check_balance_run, He. cbn [snd]. clear He.
    assert (E0 : add_gl Clear st = extend [] [] [Clear] [] st).
    { unfold add_gl, extend. by rewrite !app_nil_r. }
    rewrite E0. unfold traverse.
    erewrite bind_run by apply Stack_push_ext.
    erewrite bind_run by (by apply renderCube_named_ext).
    run_compose Hg.
    erewrite bind_run by (by apply renderCube_named_ext).
    run_pop.
    run_compose Hg.
    erewrite bind_run by (by apply renderCube_named_ext).
    run_compose Hg.
    erewrite bind_run by (by apply renderCube_named_ext).
    run_compose Hg.
    erewrite bind_run by (by apply renderCube_named_ext).
    run_pop. run_pop. run_pop. run_pop.
    unfold ret. cbn [snd]. rewrite extend_extend. cbn [app].
    do 2 eexists. reflexivity. }
  destruct E as (e & c & E).
  by rewrite (pass_gl_extend _ _ _ _ _ E), (pass_console_extend _ _ _ _ _ E).
Qed.

(** X12. What a render pass sends out, from a reachable state. With a
    complete shader: one clear of the framebuffer, then for each of the
    five parts, in the order turbine, base, generator, rotor, blade, the
    shader program bound, the part's world transform uploaded, one draw of
    the 36 vertices of the cube and the program unbound, and no console
    output. With an attribute missing: the clear, then the shader program
    bound five times, once per part and never unbound, no transform
    uploaded and nothing drawn, and five copies of the failure line, one
    per part. *)
Theorem pass_output (st : State Mat) :
  reachable st ->
  let h := heap st in
  let model := deref h modelMatrix in
  let turbine_f := deref h turbineMatrix in
  let generator_f := mul turbine_f (deref h generatorMatrix) in
  let rotor_f := mul generator_f (deref h rotorMatrix) in
  (first_missing (lightingShader st) = None ->
   pass_gl st
   = Clear
     :: drawn (mul model (mul turbine_f (deref h turbineMatrixLocal)))
     ++ drawn (mul model (mul (mul turbine_f (deref h baseMatrix))
                              (deref h baseMatrixLocal)))
     ++ drawn (mul model (mul generator_f (deref h generatorMatrixLocal)))
     ++ drawn (mul model (mul rotor_f (deref h rotorMatrixLocal)))
     ++ drawn (mul model (mul (mul rotor_f (deref h bladeMatrix))
                              (deref h bladeMatrixLocal)))
   /\ pass_console st = [])
  /\ (forall name : string,
        first_missing (lightingShader st) = Some name ->
        pass_gl st = Clear :: repeat (UseProgram true) 5
        /\ pass_console st = repeat (failure_line name) 5).
Proof.
  intros Hreach. cbv zeta.
  destruct (reachable_allocated st Hreach) as [Ha _]. split.
  - intros Hf. apply first_missing_found in Hf.
    pose proof (draw_found st Ha Hf) as E. cbv zeta in E.
    by rewrite (pass_gl_extend _ _ _ _ _ E), (pass_console_extend _ _ _ _ _ E).
  - intros name Hf. by apply draw_named.
Qed.

(** X13. Drawing changes nothing that is drawn: from a reachable state, a
    second render pass sends the GPU exactly what the first one sent, and
    prints what the first one printed. *)
Theorem draw_twice_same_picture (st : State Mat) :
  reachable st ->
  pass_gl (draw st).2 = pass_gl st
  /\ pass_console (draw st).2 = pass_console st
  /\ joint (draw st).2 = joint st.
Proof.
  intros Hreach.
  destruct (reachable_allocated st Hreach) as [Ha _].
  destruct (draw_frame st) as (Dj & _ & _ & _ & Ds & Dl & Dm).
  assert (Ha2 : allocated (draw st).2) by (unfold allocated in *; lia).
  split; [|split; [|done]].
  - destruct (first_missing (lightingShader st)) as [name|] eqn:Hf.
    + destruct (draw_named st name Ha Hf) as [-> _].
      destruct (draw_named (draw st).2 name Ha2) as [-> _];
        [by rewrite Ds|done].
    + apply first_missing_found in Hf.
      pose proof (draw_found st Ha Hf) as E. cbv zeta in E.
      rewrite (pass_gl_extend _ _ _ _ _ E).
      pose proof (draw_found (draw st).2 Ha2) as E2.
      rewrite Ds in E2. specialize (E2 Hf). cbv zeta in E2.
      rewrite (pass_gl_extend _ _ _ _ _ E2).
      unfold allocated in Ha. rewrite !Dm by address_lia. done.
  - destruct (first_missing (lightingShader st)) as [name|] eqn:Hf.
    + destruct (draw_named st name Ha Hf) as [_ ->].
      destruct (draw_named (draw st).2 name Ha2) as [_ ->];
        [by rewrite Ds|done].
    + apply first_missing_found in Hf.
      pose proof (draw_found st Ha Hf) as E. cbv zeta in E.
      rewrite (pass_console_extend _ _ _ _ _ E).
      pose proof (draw_found (draw st).2 Ha2) as E2.
      rewrite Ds in E2. specialize (E2 Hf). cbv zeta in E2.
      by rewrite (pass_console_extend _ _ _ _ _ E2).
Qed.

End Properties.

(** * The symbolic reading and the examples *)

#[export] Instance word_Matrix4Laws : Matrix4Laws (list factor).
Proof.
  split.
  - intros m. apply app_nil_r.
  - intros m. reflexivity.
  - reflexivity.
  - intros x y z _. reflexivity.
Qed.

(** The contract holds of real matrices. *)
Lemma matrix_eq (a b c d a' b' c' d' : row) :
  a = a' -> b = b' -> c = c' -> d = d' ->
  {| row1 := a; row2 := b; row3 := c; row4 := d |}
  = {| row1 := a'; row2 := b'; row3 := c'; row4 := d' |}.
Proof. by intros -> -> -> ->. Qed.

Lemma row_eq (a b c d a' b' c' d' : R) :
  a = a' -> b = b' -> c = c' -> d = d' -> (a, b, c, d) = (a', b', c', d').
Proof. by intros -> -> -> ->. Qed.

#[export] Instance real_Matrix4Laws : Matrix4Laws matrix.
Proof.
  split.
  - intros [[[[a1 a2] a3] a4] [[[b1 b2] b3] b4] [[[c1 c2] c3] c4]
            [[[d1 d2] d3] d4]].
    apply matrix_eq; apply row_eq; cbv; ring.
  - intros [[[[a1 a2] a3] a4] [[[b1 b2] b3] b4] [[[c1 c2] c3] c4]
            [[[d1 d2] d3] d4]].
    apply matrix_eq; apply row_eq; cbv; ring.
  - cbn. unfold matrix_translation, matrix_identity.
    replace (Q2R 0) with 0%R by (unfold Q2R; cbn; ring). done.
  - intros x y z _. cbn. unfold matrix_rotation, matrix_identity.
    replace (PI * IZR 0 / 180)%R with 0%R by (unfold Rdiv; ring).
    rewrite sin_0, cos_0.
    apply matrix_eq; apply row_eq; ring.
Qed.

(** So, in exact arithmetic, [rotorMatrix] is the transform of the rotor's
    angle in every reachable state. *)
Corollary rotor_matrix_real (st : State matrix) :
  reachable st ->
  deref (heap st) rotorMatrix = rotor_transform (rotor (joint st)).
Proof. apply reachable_rotor. Qed.

Lemma example_stack_reachable : Stack.reachable example_stack.
Proof.
  exact (Stack.reach_exec (Stack.Push (ref turbineMatrix)) Stack.new
           Stack.reach_new).
Defined.

(** ** The page as loaded *)

Example initial_pass :
  pass_calls example_initial
  = [CallPush (ref 0); CallTop (ref 0); CallTop (ref 0);
     CallPush (ref 13); CallTop (ref 13); CallPop (ref 13);
     CallTop (ref 0); CallPush (ref 16); CallTop (ref 16);
     CallTop (ref 16); CallPush (ref 19); CallTop (ref 19);
     CallTop (ref 19); CallPush (ref 22); CallTop (ref 22);
     CallPop (ref 22); CallPop (ref 19); CallPop (ref 16);
     CallPop (ref 0); CallIsEmpty true]
  /\ pass_console example_initial = [].
Proof. split; vm_compute; reflexivity. Qed.

(** The calls of that pass are those of a last-in-first-out store, and a
    walk that forgets a pop is reported. *)
Example initial_pass_replayed :
  replay [] (pass_calls example_initial) = Some []
  /\ Stack.t (pass_stack example_initial) = 0%Z
  /\ console
       (check_balance
          (exec_all [Stack.Push (ref turbineMatrix); Stack.Push (ref 13);
                     Stack.Pop] Stack.new)
          example_initial).2
     = [mismatch_warning].
Proof. repeat split; vm_compute; reflexivity. Qed.

(** With a shader that lacks [a_Normal] every [renderCube] gives up, and the
    stack is walked all the same. *)
Example pass_without_normals :
  let st := initial (Mat := list factor) shader_no_normal in
  pushed (pass_calls st) = [ref 0; ref 11; ref 12; ref 13; ref 14]
  /\ pass_uniforms st = []
  /\ pass_console st
     = repeat [LStr "Failed to get the storage location of a_Normal"] 5.
Proof. repeat split; vm_compute; reflexivity. Qed.

(** The first frame counts down: the page starts with [rotDir] false. *)
Example first_frame :
  rotor (joint example_ticked) = (-1)%Z
  /\ deref (heap example_ticked) rotorMatrix
     = [Translation 0 0 3; Rotation (-1) 0 0 1].
Proof. split; vm_compute; reflexivity. Qed.

Example fast_state :
  rotSpeed example_fast = 3%Z /\ rotDir example_fast = true
  /\ rotAnim example_fast = true.
Proof. repeat split. Qed.

(** C1, as first stated, fails on the page as loaded: the first matrix a
    pass pushes is [turbineMatrix] itself, an object older than the pass. *)
Lemma root_pushed_by_reference : ~ pushes_only_new_matrices example_initial.
Proof.
  intros Hnew. specialize (Hnew turbineMatrix).
  destruct initial_pass as [E _]. rewrite E in Hnew.
  assert (H11 : length (heap example_initial) = 11) by reflexivity.
  rewrite H11 in Hnew.
  assert (H0 : 11 <= turbineMatrix) by (apply Hnew; apply list_elem_of_here).
  unfold turbineMatrix in H0. lia.
Qed.

Lemma render_pass_composition_witness :
  reachable example_initial
  /\ pushed (pass_calls example_initial)
     = [ref turbineMatrix; ref 13; ref 16; ref 19; ref 22]
  /\ deref (heap (draw example_initial).2) 22
     = [Translation 0 8 0; Translation 0 0 3]
  /\ pass_uniforms example_initial
     = [[Scaling 2 20 2];
        [Translation 0 (-10) 0; Scaling 5 1 5];
        [Translation 0 8 0; Scaling 3 3 5];
        [Translation 0 8 0; Translation 0 0 3; Scaling 1.2 1.2 1];
        [Translation 0 8 0; Translation 0 0 3; Scaling 20 0.8 0.8]].
Proof.
  split; [exact (reach_initial shader_ok)|].
  destruct (render_pass_composition example_initial (reach_initial shader_ok))
    as (_ & Hp & _ & _ & _ & _ & Hb & _ & Hu).
  split; [exact Hp|]. split; [exact Hb|exact Hu].
Defined.

Lemma stack_lifo_witness :
  Stack.reachable example_stack
  /\ Stack.top (Stack.push (ref baseMatrix) example_stack)
     = (ref baseMatrix, [])
  /\ (Stack.pop (Stack.push (ref baseMatrix) example_stack)).1.1
     = ref baseMatrix
  /\ Stack.top (Stack.pop (Stack.push (ref baseMatrix) example_stack)).1.2
     = (ref turbineMatrix, []).
Proof.
  split; [exact example_stack_reachable|].
  destruct (stack_lifo (Mat := list factor) example_stack (ref baseMatrix)
              example_stack_reachable)
    as (Ht & _ & _ & Hp & _ & _ & Hr & _).
  split; [exact Ht|]. split; [exact Hp|]. rewrite Hr. reflexivity.
Defined.

Lemma stack_underflow_witness :
  Stack.isEmpty Stack.new = true
  /\ Stack.top Stack.new
     = (undefined, [[LStr "top = "; LNum 0]; [LStr "Warning: stack underflow"]])
  /\ Stack.pop Stack.new
     = (undefined, Stack.new, [[LStr "Warning: stack underflow"]]).
Proof.
  split; [reflexivity|].
  destruct (stack_underflow Stack.new example_initial eq_refl)
    as (Ht & Hp & _).
  split; [exact Ht|exact Hp].
Defined.

Lemma rotor_matrix_from_angle_witness :
  Matrix4Laws (list factor)
  /\ reachable example_ticked
  /\ rotor (joint example_ticked) = (-1)%Z
  /\ deref (heap example_ticked) rotorMatrix
     = [Translation 0 0 3; Rotation (-1) 0 0 1].
Proof.
  split; [exact word_Matrix4Laws|].
  split; [exact (reach_step AnimationFrame _ (reach_initial shader_ok))|].
  split; [reflexivity|].
  destruct (rotor_matrix_from_angle (laws := word_Matrix4Laws)
              example_ticked
              (reach_step AnimationFrame _ (reach_initial shader_ok)))
    as (Hm & _).
  rewrite Hm. reflexivity.
Defined.

Lemma tick_step_signed_witness :
  rotAnim example_fast = true
  /\ rotSpeed example_fast = 3%Z
  /\ rotDir example_fast = true
  /\ (rotor (joint (step AnimationFrame example_fast))
      - rotor (joint example_fast))%Z = 3%Z
  /\ (rotor (joint (step AnimationFrame
        (step (KeyDown "r") (step AnimationFrame example_fast))))
      - rotor (joint (step (KeyDown "r") (step AnimationFrame example_fast))))%Z
     = (-3)%Z.
Proof.
  split; [reflexivity|]. split; [reflexivity|]. split; [reflexivity|].
  destruct (tick_step_signed example_fast eq_refl)
    as (_ & _ & _ & _ & _ & _ & _ & Hex).
  exact (Hex eq_refl eq_refl).
Defined.

Lemma pause_freezes_rotor_witness :
  reachable example_initial
  /\ rotAnim example_initial = true
  /\ rotor (joint (run (repeat AnimationFrame 10)
                     (step (KeyDown " ") example_initial)))
     = rotor (joint example_initial)
  /\ deref (heap (run (repeat AnimationFrame 10)
                    (step (KeyDown " ") example_initial))) rotorMatrix
     = deref (heap example_initial) rotorMatrix
  /\ rotor (joint (step AnimationFrame (step (KeyDown " ")
              (run (repeat AnimationFrame 10)
                 (step (KeyDown " ") example_initial)))))
     = (-1)%Z.
Proof.
  split; [exact (reach_initial shader_ok)|]. split; [reflexivity|].
  destruct (pause_freezes_rotor example_initial 10
              (reach_initial shader_ok) eq_refl)
    as (_ & _ & _ & Hr & Hm & _ & _ & Ht).
  split; [exact Hr|]. split; [exact Hm|]. rewrite Ht, Hr. reflexivity.
Defined.

Lemma speed_floor_witness :
  (1 <= rotSpeed example_initial)%Z
  /\ rotSpeed (changeRotSpeed (-5) example_initial).2 = 1%Z
  /\ console (changeRotSpeed (-5) example_initial).2
     = console example_initial.
Proof.
  split; [reflexivity|idtac].
  destruct (speed_floor example_initial (-5) ltac:(reflexivity))
    as (_ & Hc & _ & _ & Ho & _).
  split; [apply Hc; reflexivity|exact Ho].
Defined.

Lemma key_t_turns_turbine_witness :
  reachable example_initial
  /\ joint example_initial = initial_joint
  /\ turbine (joint (step (KeyDown "t") example_initial)) = 15%Z
  /\ deref (heap (step (KeyDown "t") example_initial)) turbineMatrix
     = [Rotation 15 0 1 0]
  /\ deref (heap (step (KeyDown "t") example_initial)) generatorMatrix
     = [Translation 0 8 0].
Proof.
  split; [exact (reach_initial shader_ok)|]. split; [reflexivity|].
  destruct (key_t_turns_turbine example_initial
              (reach_initial shader_ok) eq_refl)
    as (Hj & Hm & _ & Hg & _).
  split; [by rewrite Hj|]. split; [exact Hm|exact Hg].
Defined.

Lemma scaleMoinho_scales_shapes_witness :
  reachable example_initial
  /\ deref (heap (scaleMoinho 0.9 (scaleMoinho 1.1 example_initial).2).2)
       bladeMatrixLocal
     = [Scaling 20 0.8 0.8; Scaling 1.1 1.1 1.1; Scaling 0.9 0.9 0.9]
  /\ deref (heap (step (KeyDown "ArrowUp") example_initial)) rotorMatrix
     = [Translation 0 0 3]
  /\ joint (step (KeyDown "ArrowDown") example_initial) = initial_joint.
Proof.
  split; [exact (reach_initial shader_ok)|].
  destruct (scaleMoinho_scales_shapes example_initial 1.1 0.9
              (reach_initial shader_ok))
    as (Hs & Hj & _ & _ & _ & (Hd & _)).
  destruct (Hs bladeMatrixLocal) as (_ & H2 & _).
  { unfold shape_matrices. rewrite !elem_of_cons. tauto. }
  destruct (Hj rotorMatrix) as (_ & _ & Hu & _).
  { unfold joint_matrices. rewrite !elem_of_cons. tauto. }
  split; [exact H2|]. split; [exact Hu|exact Hd].
Defined.

(** * Further properties of the stack *)

Lemma same_content_refl (s : Stack.stack) : same_content s s.
Proof. by split. Qed.

Lemma same_content_trans (s1 s2 s3 : Stack.stack) :
  same_content s1 s2 -> same_content s2 s3 -> same_content s1 s3.
Proof.
  intros [T1 G1] [T2 G2]. split; [congruence|].
  intros i Hi. rewrite G2, G1; [done|done|lia].
Qed.

Lemma same_content_pop (s s' : Stack.stack) :
  same_content s s' ->
  (Stack.pop s').1.1 = (Stack.pop s).1.1
  /\ same_content (Stack.pop s).1.2 (Stack.pop s').1.2.
Proof.
  intros [Ht Hg]. unfold Stack.pop. rewrite Ht.
  destruct (Z.leb_spec (Stack.t s) 0); cbn.
  - split; [done|]. by split.
  - split; [apply Hg; lia|]. split; [done|]. cbn. intros i Hi.
    unfold Stack.get in *. rewrite !lookup_insert_ne by lia. apply Hg. lia.
Qed.

Lemma same_content_pop_n (n : nat) (s s' : Stack.stack) :
  same_content s s' ->
  (pop_n n s').1 = (pop_n n s).1 /\ same_content (pop_n n s).2 (pop_n n s').2.
Proof.
  revert s s'. induction n as [|n IH]; intros s s' Hc; [done|].
  destruct (same_content_pop s s' Hc) as [Hv Hc'].
  destruct (IH _ _ Hc') as [Hvs Hcs]. cbn. by rewrite Hv, Hvs.
Qed.

Lemma same_content_pop_push (m : value) (s : Stack.stack) :
  (0 <= Stack.t s)%Z ->
  same_content s (Stack.pop (Stack.push m s)).1.2.
Proof.
  intros Ht. rewrite stack_pop_push by done. split; [done|]. cbn.
  intros i Hi. unfold Stack.get. by rewrite !lookup_insert_ne by lia.
Qed.

Lemma push_all_depth (ms : list value) (s : Stack.stack) :
  Stack.t (push_all ms s) = (Stack.t s + Z.of_nat (length ms))%Z.
Proof.
  revert s. induction ms as [|m ms IH]; intros s; cbn; [lia|].
  unfold push_all in IH. rewrite IH. cbn. lia.
Qed.

Lemma push_all_reachable (ms : list value) (s : Stack.stack) :
  Stack.reachable s -> Stack.reachable (push_all ms s).
Proof.
  revert s. induction ms as [|m ms IH]; intros s Hr; [done|].
  apply IH. exact (Stack.reach_exec (Stack.Push m) s Hr).
Qed.

(** X14. Last in, first out, for any number of matrices: on any stack a
    [Stack] object can hold, pushing [ms] and then popping as many times
    returns [ms] in reverse order, and leaves the stack with the depth, the
    elements and the top it had. *)
Theorem pops_reverse_pushes (ms : list value) (s : Stack.stack) :
  Stack.reachable s ->
  let r := pop_n (length ms) (push_all ms s) in
  r.1 = rev ms
  /\ same_content s r.2
  /\ Stack.top r.2 = Stack.top s.
Proof.
  intros Hr. pose proof (stack_reachable_depth s Hr) as Ht. cbv zeta.
  assert (H : (pop_n (length ms) (push_all ms s)).1 = rev ms
              /\ same_content s (pop_n (length ms) (push_all ms s)).2).
  { induction ms as [|m ms [IHv IHc]] using rev_ind; [by split|].
    rewrite length_app, Nat.add_1_r. unfold push_all in *.
    rewrite fold_left_app. cbn [fold_left pop_n].
    set (s' := fold_left (fun s m => Stack.push m s) ms s) in *.
    assert (Ht' : (0 <= Stack.t s')%Z).
    { pose proof (push_all_depth ms s) as Hd. unfold push_all in Hd.
      subst s'. lia. }
    destruct (same_content_pop_n (length ms) s' _
                (same_content_pop_push m s' Ht')) as [Hv Hc].
    rewrite stack_pop_push in Hv, Hc |- * by done. cbn [fst snd] in *.
    rewrite Hv, IHv, rev_app_distr. split; [done|].
    by apply (same_content_trans _ _ _ IHc). }
  destruct H as [Hv [Hd Hg]]. repeat split; try done.
  unfold Stack.top. rewrite Hd.
  destruct (Z.leb_spec (Stack.t s) 0); [done|]. f_equal. apply Hg. lia.
Qed.

(** X15. A stack keeps no reference to what was popped: on any stack a
    [Stack] object can hold, the stack pointer is never negative and every
    slot at or above it, and every slot below zero, reads [undefined]. *)
Theorem popped_slots_cleared (s : Stack.stack) (i : Z) :
  Stack.reachable s ->
  (0 <= Stack.t s)%Z
  /\ ((Stack.t s <= i)%Z \/ (i < 0)%Z ->
      Stack.get (Stack.elements s) i = undefined).
Proof.
  intros Hr. split; [by apply stack_reachable_depth|]. revert i.
  induction Hr as [|o s Hr IH]; intros i Hi; [done|].
  pose proof (stack_reachable_depth s Hr) as Ht.
  destruct o; cbn [Stack.exec] in *; try (by apply IH).
  - cbn in Hi |- *. unfold Stack.get in *.
    rewrite lookup_insert_ne by lia. apply IH. lia.
  - unfold Stack.pop in *.
    destruct (Z.leb_spec (Stack.t s) 0); cbn in Hi |- *; [by apply IH|].
    unfold Stack.get in *.
    destruct (decide (Stack.t s - 1 = i)%Z) as [->|Hne].
    + by rewrite lookup_insert_eq.
    + rewrite lookup_insert_ne by done. apply IH. lia.
Qed.

Lemma pop_n_depth (n : nat) (s : Stack.stack) :
  (0 <= Stack.t s)%Z ->
  Stack.t (pop_n n s).2 = Z.max 0 (Stack.t s - Z.of_nat n).
Proof.
  revert s. induction n as [|n IH]; intros s Ht; [cbn; lia|].
  cbn [pop_n snd]. unfold Stack.pop at 1.
  destruct (Z.leb_spec (Stack.t s) 0); cbn [fst snd].
  - rewrite IH by done. lia.
  - rewrite IH by (cbn; lia). cbn. lia.
Qed.

(** X16. Pops in excess do no harm: on any stack a [Stack] object can
    hold, [n] pops leave the depth at [max 0 (depth - n)], never below
    zero; from then on the stack is empty, and a push followed by [top]
    works as on a new stack. *)
Theorem excess_pops_harmless (n : nat) (s : Stack.stack) (m : value) :
  Stack.reachable s ->
  let s' := (pop_n n s).2 in
  Stack.t s' = Z.max 0 (Stack.t s - Z.of_nat n)
  /\ length (pop_n n s).1 = n
  /\ ((Stack.t s <= Z.of_nat n)%Z ->
      Stack.isEmpty s' = true
      /\ Stack.top (Stack.push m s') = (m, [])
      /\ Stack.t (Stack.push m s') = 1%Z).
Proof.
  intros Hr. pose proof (stack_reachable_depth s Hr) as Ht. cbv zeta.
  pose proof (pop_n_depth n s Ht) as Hd.
  split; [done|]. split.
  - clear. revert s. induction n as [|n IH]; intros s; [done|].
    cbn. by rewrite IH.
  - intros Hn. unfold Stack.isEmpty.
    rewrite stack_top_push by lia. cbn. rewrite Hd.
    repeat split; try done; lia.
Qed.

(** * The cube model *)

Section CubeLoop.

Variables (rawV rawC rawN : list Q) (idx : list nat).

Lemma cube_loop_S (n : nat) :
  cube_loop rawV rawC rawN idx (S n)
  = cube_step rawV rawC rawN idx (cube_loop rawV rawC rawN idx n) n.
Proof. unfold cube_loop. by rewrite seq_S, fold_left_app. Qed.

Lemma attribute_app_old (size : nat) (data new : list jsnum) (i n : nat) :
  length data = size * n -> i < n ->
  attribute size (data ++ new) i = attribute size data i.
Proof.
  intros Hl Hi. unfold attribute.
  rewrite drop_app_le by nia.
  apply take_app_le. rewrite length_drop. nia.
Qed.

Lemma attribute_app_new (size : nat) (data new : list jsnum) (n : nat) :
  length data = size * n -> length new = size ->
  attribute size (data ++ new) n = new.
Proof.
  intros Hl Hn. unfold attribute.
  rewrite <- Hl, drop_app_length. apply take_ge. lia.
Qed.

Lemma cube_loop_spec (n : nat) :
  let r := cube_loop rawV rawC rawN idx n in
  length r.1.1 = 3 * n /\ length r.1.2 = 4 * n /\ length r.2 = 3 * n
  /\ forall i, i < n ->
       attribute 3 r.1.1 i
       = map (fun j => idx !! i ≫= fun k => rawV !! (3 * k + j)) [0; 1; 2]
       /\ attribute 4 r.1.2 i
          = map (fun j => rawC !! (4 * (i / 6) + j)) [0; 1; 2; 3]
       /\ attribute 3 r.2 i
          = map (fun j => rawN !! (3 * (i / 6) + j)) [0; 1; 2].
Proof.
  induction n as [|n (Lv & Lc & Ln & IH)]; cbv zeta.
  - repeat split; try done; lia.
  - rewrite cube_loop_S. unfold cube_step. cbn [fst snd].
    rewrite !length_app, Lv, Lc, Ln. cbn [length map].
    split; [lia|]. split; [lia|]. split; [lia|].
    intros i Hi. destruct (decide (i = n)) as [->|Hne].
    + by rewrite !attribute_app_new.
    + rewrite !(attribute_app_old _ _ _ i n) by (done || lia).
      apply IH. lia.
Qed.

End CubeLoop.

(** X17. Whatever tables the cube is built from, the three arrays it
    returns hold [numVertices] = 36 records of 3, 4 and 3 numbers, as the
    attribute pointers and the draw call of [renderCube] assume; record [i]
    holds the position of vertex [indices[i]], and the colour and the normal
    of face [i / 6]; an entry a table does not have reads [undefined]. *)
Theorem cube_arrays_aligned (rawV rawC rawN : list Q) (idx : list nat)
  (i : nat) :
  i < 36 ->
  let c := make_cube rawV rawC rawN idx in
  numVertices c = 36
  /\ length (vertices c) = 3 * numVertices c
  /\ length (colors c) = 4 * numVertices c
  /\ length (normals c) = 3 * numVertices c
  /\ attribute 3 (vertices c) i
     = map (fun j => idx !! i ≫= fun k => rawV !! (3 * k + j)) [0; 1; 2]
  /\ attribute 4 (colors c) i
     = map (fun j => rawC !! (4 * (i / 6) + j)) [0; 1; 2; 3]
  /\ attribute 3 (normals c) i
     = map (fun j => rawN !! (3 * (i / 6) + j)) [0; 1; 2].
Proof.
  intros Hi. cbv zeta. unfold make_cube. cbn [numVertices vertices colors normals].
  destruct (cube_loop_spec rawV rawC rawN idx 36) as (Lv & Lc & Ln & Ha).
  destruct (Ha i Hi) as (Av & Ac & An).
  repeat split; done.
Qed.

(** X18. The cube of the page is sound: none of its 108 + 144 + 108
    numbers is [undefined]; every vertex is a corner of the cube of side 1
    about the origin; and each of its twelve triangles lies in the face
    whose outward normal its three vertices carry and winds
    counter-clockwise seen from outside (its edge product is that normal),
    so that culling back faces keeps the outside. *)
Theorem cube_faces_outwards (t : nat) :
  t < 12 ->
  Forall is_Some (vertices cube) /\ Forall is_Some (colors cube)
  /\ Forall is_Some (normals cube)
  /\ Forall (fun x => x = Some (0.5)%Q \/ x = Some (-0.5)%Q) (vertices cube)
  /\ exists p0 p1 p2 n : point,
       vertex_at cube (3 * t) = Some p0
       /\ vertex_at cube (3 * t + 1) = Some p1
       /\ vertex_at cube (3 * t + 2) = Some p2
       /\ normal_at cube (3 * t) = Some n
       /\ normal_at cube (3 * t + 1) = Some n
       /\ normal_at cube (3 * t + 2) = Some n
       /\ same_point (cross (minus p1 p0) (minus p2 p0)) n
       /\ (inner n p0 == 0.5 /\ inner n p1 == 0.5 /\ inner n p2 == 0.5)%Q.
Proof.
  intros Ht.
  split; [vm_compute; repeat constructor; by eexists|].
  split; [vm_compute; repeat constructor; by eexists|].
  split; [vm_compute; repeat constructor; by eexists|].
  split; [vm_compute; repeat (constructor; [by (left + right)|]); constructor|].
  exists (default (0, 0, 0)%Q (vertex_at cube (3 * t))),
         (default (0, 0, 0)%Q (vertex_at cube (3 * t + 1))),
         (default (0, 0, 0)%Q (vertex_at cube (3 * t + 2))),
         (default (0, 0, 0)%Q (normal_at cube (3 * t))).
  do 12 (destruct t as [|t]; [vm_compute; repeat split; reflexivity|]).
  lia.
Qed.

(** * Instances of the further properties *)

Lemma example_turned_reachable : reachable example_turned.
Proof. exact (reach_step (KeyDown "t") _ (reach_initial shader_ok)). Defined.

Lemma example_fast_reachable : reachable example_fast.
Proof.
  exact (reach_step (KeyDown "R") _
           (reach_step (KeyDown "B") _
              (reach_step (KeyDown "B") _ (reach_initial shader_ok)))).
Defined.

Lemma joint_matrices_follow_angles_witness :
  reachable example_turned
  /\ deref (heap example_turned) turbineMatrix = [Rotation 15 0 1 0]
  /\ deref (heap example_turned) generatorMatrix = [Translation 0 8 0]
  /\ (15 | turbine (joint example_turned))%Z.
Proof.
  split; [exact example_turned_reachable|].
  destruct (joint_matrices_follow_angles example_turned
              example_turned_reachable) as (Ht & Hg & Hd & _).
  split; [rewrite Ht; reflexivity|].
  split; [rewrite Hg; reflexivity|exact Hd].
Defined.

Lemma fixed_parts_never_written_witness :
  reachable example_turned
  /\ deref (heap example_turned) baseMatrix = [Translation 0 (-10) 0]
  /\ deref (heap example_turned) bladeMatrix = []
  /\ base (joint example_turned) = 0%Z
  /\ shoulder (joint example_turned) = 45%Z.
Proof.
  split; [exact example_turned_reachable|].
  destruct (fixed_parts_never_written example_turned shader_ok
              example_turned_reachable)
    as (Hb & Hl & _ & Hj & _ & Hs & _).
  split; [rewrite Hb; reflexivity|]. split; [rewrite Hl; reflexivity|].
  split; [rewrite Hj; reflexivity|rewrite Hs; reflexivity].
Defined.

Lemma unbound_key_ignored_witness :
  ("x" ∉ bound_keys)
  /\ handleKeyPress "x" example_initial
     = (tt, add_console [[LStr "x"]] example_initial)
  /\ ("t" ∈ bound_keys)
  /\ reachable example_initial
  /\ clears (drop (length (gl example_initial)) (gl example_turned)) = 1.
Proof.
  assert (Hx : "x" ∉ bound_keys).
  { apply (bool_decide_unpack _). reflexivity. }
  assert (Ht : "t" ∈ bound_keys) by constructor.
  split; [exact Hx|].
  destruct (unbound_key_ignored "x" example_initial) as (Hu & _).
  split; [exact (Hu Hx)|]. split; [exact Ht|].
  split; [exact (reach_initial shader_ok)|].
  destruct (unbound_key_ignored "t" example_initial) as (_ & Hb).
  destruct (Hb Ht (reach_initial shader_ok)) as (Hc & _).
  exact Hc.
Defined.

Lemma turn_keys_undo_witness :
  reachable example_ticked
  /\ joint (step (KeyDown "T") (step (KeyDown "t") example_ticked))
     = joint example_ticked
  /\ deref (heap (step (KeyDown "T") (step (KeyDown "t") example_ticked)))
       turbineMatrix
     = deref (heap example_ticked) turbineMatrix.
Proof.
  split; [exact (reach_step AnimationFrame _ (reach_initial shader_ok))|].
  destruct (turn_keys_undo example_ticked "t" "T"
              (reach_step AnimationFrame _ (reach_initial shader_ok))
              ltac:(constructor))
    as (Hj & _ & _ & _ & Hh).
  split; [exact Hj|]. apply Hh. vm_compute. lia.
Defined.

Lemma speed_keys_count_witness :
  (1 <= rotSpeed example_fast)%Z
  /\ rotSpeed (run (repeat (KeyDown "B") 5) example_fast) = 8%Z
  /\ rotSpeed (run (repeat (KeyDown "b") 5) example_fast) = 1%Z
  /\ rotSpeed (run (repeat (KeyDown "B") 5)
                 (run (repeat (KeyDown "b") 5) example_fast)) = 6%Z.
Proof.
  assert (H3 : rotSpeed example_fast = 3%Z) by reflexivity.
  assert (Hle : (1 <= rotSpeed example_fast)%Z) by (rewrite H3; lia).
  split; [exact Hle|].
  destruct (speed_keys_count example_fast 5 Hle) as (Hf & Hs & _ & Hfs & _).
  split; [rewrite Hf, H3; reflexivity|].
  split; [rewrite Hs, H3; reflexivity|rewrite Hfs, H3; reflexivity].
Defined.

Lemma frames_add_up_witness :
  reachable example_fast
  /\ rotAnim example_fast = true
  /\ rotor (joint (run (repeat AnimationFrame 4) example_fast)) = 12%Z
  /\ deref (heap (run (repeat AnimationFrame 4) example_fast)) rotorMatrix
     = [Translation 0 0 3; Rotation 12 0 0 1].
Proof.
  split; [exact example_fast_reachable|]. split; [reflexivity|].
  destruct (frames_add_up example_fast 4 example_fast_reachable eq_refl)
    as (Hr & _ & _ & _ & _ & Hm & _).
  split; [rewrite Hr; reflexivity|].
  rewrite (Hm ltac:(lia)). reflexivity.
Defined.

Lemma reversal_retraces_witness :
  Matrix4Laws (list factor)
  /\ reachable example_initial
  /\ rotAnim example_initial = true
  /\ rotor (joint (run (repeat AnimationFrame 3)
                     (step (KeyDown "R") example_initial))) = 3%Z
  /\ joint (run (repeat AnimationFrame 3)
              (step (KeyDown "r")
                 (run (repeat AnimationFrame 3)
                    (step (KeyDown "R") example_initial))))
     = joint example_initial.
Proof.
  split; [exact word_Matrix4Laws|].
  split; [exact (reach_initial shader_ok)|]. split; [reflexivity|].
  destruct (reversal_retraces (laws := word_Matrix4Laws) example_initial 3
              (reach_initial shader_ok) eq_refl)
    as (Hu & Hd & _).
  split; [rewrite Hu; reflexivity|exact Hd].
Defined.

Lemma renderCube_reports_first_missing_witness :
  first_missing (lightingShader example_broken) = Some "a_Normal"
  /\ renderCube Stack.new turbineMatrixLocal example_broken
     = (tt, add_console [failure_line "a_Normal"]
              (add_gl (UseProgram true) example_broken)).
Proof.
  split; [reflexivity|].
  destruct (renderCube_reports_first_missing Stack.new turbineMatrixLocal
              "a_Normal" example_broken eq_refl) as (Hr & _).
  exact Hr.
Defined.

Lemma renderCube_on_empty_stack_witness :
  Stack.isEmpty Stack.new = true
  /\ all_attributes_found (lightingShader example_initial) = true
  /\ renderCube Stack.new turbineMatrixLocal example_initial
     = (tt, extend [[Scaling 2 20 2]; [Scaling 2 20 2]]
              [CallTop undefined]
              (drawn [Scaling 2 20 2])
              [[LStr "top = "; LNum 0]; [LStr "Warning: stack underflow"]]
              example_initial).
Proof.
  split; [reflexivity|]. split; [reflexivity|].
  rewrite (renderCube_on_empty_stack Stack.new turbineMatrixLocal
             example_initial eq_refl eq_refl
             ltac:(vm_compute; lia) ltac:(vm_compute; lia)).
  reflexivity.
Defined.

Lemma pass_output_witness :
  reachable example_initial
  /\ first_missing (lightingShader example_initial) = None
  /\ pass_gl example_initial
     = Clear
       :: drawn [Scaling 2 20 2]
       ++ drawn [Translation 0 (-10) 0; Scaling 5 1 5]
       ++ drawn [Translation 0 8 0; Scaling 3 3 5]
       ++ drawn [Translation 0 8 0; Translation 0 0 3; Scaling 1.2 1.2 1]
       ++ drawn [Translation 0 8 0; Translation 0 0 3; Scaling 20 0.8 0.8]
  /\ reachable example_broken
  /\ first_missing (lightingShader example_broken) = Some "a_Normal"
  /\ pass_gl example_broken = Clear :: repeat (UseProgram true) 5
  /\ pass_console example_broken = repeat (failure_line "a_Normal") 5.
Proof.
  split; [exact (reach_initial shader_ok)|]. split; [reflexivity|].
  destruct (pass_output example_initial (reach_initial shader_ok))
    as (Hok & _).
  destruct (Hok eq_refl) as (Hg & _).
  split; [rewrite Hg; reflexivity|].
  split; [exact (reach_initial shader_no_normal)|]. split; [reflexivity|].
  destruct (pass_output example_broken (reach_initial shader_no_normal))
    as (_ & Hko).
  exact (Hko "a_Normal" eq_refl).
Defined.

Lemma draw_twice_same_picture_witness :
  reachable example_turned
  /\ pass_gl (draw example_turned).2 = pass_gl example_turned
  /\ pass_console (draw example_turned).2 = pass_console example_turned.
Proof.
  split; [exact example_turned_reachable|].
  destruct (draw_twice_same_picture example_turned example_turned_reachable)
    as (Hg & Hc & _).
  split; [exact Hg|exact Hc].
Defined.

Lemma pops_reverse_pushes_witness :
  Stack.reachable example_stack
  /\ (pop_n 2 (push_all [ref baseMatrix; ref generatorMatrix] example_stack)).1
     = [ref generatorMatrix; ref baseMatrix]
  /\ Stack.top
       (pop_n 2 (push_all [ref baseMatrix; ref generatorMatrix]
                   example_stack)).2
     = (ref turbineMatrix, []).
Proof.
  split; [exact example_stack_reachable|].
  destruct (pops_reverse_pushes [ref baseMatrix; ref generatorMatrix]
              example_stack example_stack_reachable) as (Hr & _ & Ht).
  split; [exact Hr|]. etrans; [exact Ht|reflexivity].
Defined.

Lemma popped_slots_cleared_witness :
  Stack.reachable (Stack.exec Stack.Pop example_stack)
  /\ Stack.t (Stack.exec Stack.Pop example_stack) = 0%Z
  /\ Stack.get (Stack.elements (Stack.exec Stack.Pop example_stack)) 0
     = undefined.
Proof.
  split; [exact (Stack.reach_exec Stack.Pop _ example_stack_reachable)|].
  split; [reflexivity|].
  destruct (popped_slots_cleared (Stack.exec Stack.Pop example_stack) 0
              (Stack.reach_exec Stack.Pop _ example_stack_reachable))
    as (_ & Hc).
  apply Hc. left. vm_compute. discriminate.
Defined.

Lemma excess_pops_harmless_witness :
  Stack.reachable example_stack
  /\ Stack.t (pop_n 3 example_stack).2 = 0%Z
  /\ Stack.top (Stack.push (ref bladeMatrix) (pop_n 3 example_stack).2)
     = (ref bladeMatrix, []).
Proof.
  split; [exact example_stack_reachable|].
  destruct (excess_pops_harmless 3 example_stack (ref bladeMatrix)
              example_stack_reachable) as (Hd & _ & He).
  split; [rewrite Hd; reflexivity|].
  destruct (He ltac:(vm_compute; discriminate)) as (_ & Ht & _).
  exact Ht.
Defined.

Lemma cube_arrays_aligned_witness :
  7 < 36
  /\ length (vertices cube) = 108
  /\ length (colors cube) = 144
  /\ attribute 3 (vertices cube) 7 = [Some 0.5; Some (-0.5); Some (-0.5)]%Q
  /\ attribute 4 (colors cube) 7 = [Some 0; Some 1; Some 0; Some 1]%Q
  /\ attribute 3 (normals cube) 7 = [Some 1; Some 0; Some 0]%Q.
Proof.
  split; [lia|].
  destruct (cube_arrays_aligned rawVertices rawColors rawNormals indices 7
              ltac:(lia)) as (_ & Lv & Lc & _ & Av & Ac & An).
  split; [exact Lv|]. split; [exact Lc|].
  split; [etrans; [exact Av|reflexivity]|].
  split; [etrans; [exact Ac|reflexivity]|etrans; [exact An|reflexivity]].
Defined.

Lemma cube_faces_outwards_witness :
  2 < 12
  /\ Forall is_Some (vertices cube)
  /\ Forall is_Some (colors cube)
  /\ Forall is_Some (normals cube).
Proof.
  split; [lia|].
  destruct (cube_faces_outwards 2 ltac:(lia)) as (Hv & Hc & Hn & _).
  split; [exact Hv|]. split; [exact Hc|exact Hn].
Defined.
